(** * fiberize: event dispatch, mailbox draining and system lifecycle

    A shallow embedding of the parts of the fiberize runtime that the
    event-dispatch and lifecycle properties talk about:

    - [Context::bind], [Context::super], [Context::handleEvent],
      [Context::process], [Context::yield]      (context.cpp)
    - [Event<A>::await], [Event<A>::bind]        (event.hpp)
    - [System::run], [System::shutdown]          (system.hpp)
    - [System::schedule], [System::fiberFinished] (system.cpp)

    Stateful code is written in a small state / exception / trace monad
    over the per-fiber [Context]; the handler table is a finite map from
    paths to handler blocks. *)

From Stdlib Require Import List Arith ZArith Lia Bool.
From stdpp Require Import base option list gmap.

(** ** Data model *)

(** A [Path] is an opaque key with equality and hashing. *)
Abbreviation Path := nat (only parsing).

(** [PendingEvent { path, data, freeData }]: [data] is the address of the
    type-erased payload, [freeData] the address of the function releasing it. *)
Record PendingEvent := mkPendingEvent {
  path : Path;
  data : nat;
  freeData : nat
}.

(** What a handler can throw: the private [EventFired{value}] transfer of
    [Event<A>::await], or any other exception of user code. *)
Inductive Exception :=
| EventFired (value : nat)
| Failure (tag : nat).

(** The body of a handler ([std::function<void (const A&)>]) as the sequence
    of runtime calls it makes.  [CThrowFired] is [throw EventFired{value}]
    with the payload the handler received. *)
#[warnings="-register-all"]
Inductive Cmd :=
| CSuper
| CThrowFired
| CThrow (tag : nat)
| CDestroy (h : nat)
| CBind (p : Path) (body : list Cmd).

(** A [detail::Handler], identified by its heap address [hid]. *)
Record Handler := mkHandler {
  hid : nat;
  isDestroyed : bool;
  fn : list Cmd
}.

(** [struct HandlerBlock { std::list<std::unique_ptr<Handler>> stackedHandlers; }],
    front of the list first. *)
Record HandlerBlock := mkHandlerBlock {
  stackedHandlers : list Handler
}.

(** A [std::list] iterator: past-the-end, or the node holding the handler at
    the given address.  An iterator to a node that is no longer in the list
    is invalid. *)
Inductive Iter :=
| End
| At (h : nat).

(** [detail::HandlerContext]: the block is named by its key in the handler
    table, [handler] is the cursor, [hdata] the payload pointer. *)
Record HandlerContext := mkHandlerContext {
  handlerBlock : Path;
  handler : Iter;
  hdata : nat
}.

(** The fields of [detail::ControlBlock] that [Context] uses. *)
Record ControlBlock := mkControlBlock {
  executor : option nat;
  mutex : bool;
  mailbox : list PendingEvent
}.

(** [class Context].  [heapNext] is the next address [new] hands out for a
    handler object. *)
Record Context := mkContext {
  controlBlock : ControlBlock;
  handlerBlocks : gmap nat HandlerBlock;
  handlerContext : option HandlerContext;
  heapNext : nat
}.

(** Calls that are visible outside the dispatch engine, in program order. *)
Inductive Action :=
| ADequeue (e : PendingEvent)
| AExecute (h : nat) (d : nat)
| AFreeData (f : nat) (d : nat)
| ALock
| AUnlock
| ASuspend (pending : list PendingEvent) (locked : bool)
| ASleep (ms : nat).

(** ** The monad: state, exceptions, undefined behaviour, trace *)

Inductive Res (A : Type) :=
| Ok (a : A)
| Exc (e : Exception)
| UB
| Unfinished.
Arguments Ok {A} a.
Arguments Exc {A} e.
Arguments UB {A}.
Arguments Unfinished {A}.

Definition M (A : Type) : Type := Context -> Res A * Context * list Action.

Definition ret {A} (a : A) : M A := fun ctx => (Ok a, ctx, []).

Definition bind {A B} (m : M A) (k : A -> M B) : M B := fun ctx =>
  match m ctx with
  | (Ok a, ctx1, t1) =>
      match k a ctx1 with
      | (r, ctx2, t2) => (r, ctx2, t1 ++ t2)
      end
  | (Exc e, ctx1, t1) => (Exc e, ctx1, t1)
  | (UB, ctx1, t1) => (UB, ctx1, t1)
  | (Unfinished, ctx1, t1) => (Unfinished, ctx1, t1)
  end.

Declare Scope fiber_scope.
Delimit Scope fiber_scope with fiber.
Bind Scope fiber_scope with M.
Notation "'let*' x ':=' m 'in' k" := (bind m (fun x => k))
  (at level 10, x name, m at level 100, k at level 200) : fiber_scope.
Notation "m ;; k" := (bind m (fun _ => k))
  (at level 100, k at level 200, right associativity) : fiber_scope.
Open Scope fiber_scope.

Definition throw {A} (e : Exception) : M A := fun ctx => (Exc e, ctx, []).
Definition unfinished {A} : M A := fun ctx => (Unfinished, ctx, []).
Definition tell (a : Action) : M unit := fun ctx => (Ok tt, ctx, [a]).
Definition get : M Context := fun ctx => (Ok ctx, ctx, []).
Definition modify (f : Context -> Context) : M unit := fun ctx => (Ok tt, f ctx, []).

(** [try { m } catch (...) { h; throw; }] *)
Definition try_catch_rethrow {A} (m : M A) (h : M unit) : M A := fun ctx =>
  match m ctx with
  | (Exc e, ctx1, t1) =>
      match h ctx1 with
      | (Ok _, ctx2, t2) => (Exc e, ctx2, t1 ++ t2)
      | (Exc e', ctx2, t2) => (Exc e', ctx2, t1 ++ t2)
      | (UB, ctx2, t2) => (UB, ctx2, t1 ++ t2)
      | (Unfinished, ctx2, t2) => (Unfinished, ctx2, t1 ++ t2)
      end
  | r => r
  end.

Definition outcome {A} (r : Res A * Context * list Action) : Res A := fst (fst r).
Definition final {A} (r : Res A * Context * list Action) : Context := snd (fst r).
Definition trace {A} (r : Res A * Context * list Action) : list Action := snd r.

(** ** State updates *)

Definition set_mailbox (mb : list PendingEvent) (ctx : Context) : Context :=
  mkContext (mkControlBlock (executor (controlBlock ctx)) (mutex (controlBlock ctx)) mb)
            (handlerBlocks ctx) (handlerContext ctx) (heapNext ctx).

Definition set_mutex (b : bool) (ctx : Context) : Context :=
  mkContext (mkControlBlock (executor (controlBlock ctx)) b (mailbox (controlBlock ctx)))
            (handlerBlocks ctx) (handlerContext ctx) (heapNext ctx).

Definition set_handlerBlocks (hb : gmap nat HandlerBlock) (ctx : Context) : Context :=
  mkContext (controlBlock ctx) hb (handlerContext ctx) (heapNext ctx).

Definition set_handlerContext (hc : option HandlerContext) (ctx : Context) : Context :=
  mkContext (controlBlock ctx) (handlerBlocks ctx) hc (heapNext ctx).

Definition set_heapNext (n : nat) (ctx : Context) : Context :=
  mkContext (controlBlock ctx) (handlerBlocks ctx) (handlerContext ctx) n.

(** ** [std::list] operations on a handler stack *)

Definition iter_eqb (a b : Iter) : bool :=
  match a, b with
  | End, End => true
  | At x, At y => x =? y
  | _, _ => false
  end.

(** [l.begin()]; equals [l.end()] on the empty list. *)
Definition begin (l : list Handler) : Iter :=
  match l with
  | [] => End
  | h :: _ => At (hid h)
  end.

(** [*it]: the handler an iterator points to, if the iterator is valid and
    not past-the-end. *)
Fixpoint deref (l : list Handler) (h : nat) : option Handler :=
  match l with
  | [] => None
  | a :: t => if hid a =? h then Some a else deref t h
  end.

(** The node before node [h]; [None] when [h] is the front or not in the
    list. *)
Fixpoint pred_of (l : list Handler) (h : nat) : option nat :=
  match l with
  | a :: t =>
      match t with
      | b :: _ => if hid b =? h then Some (hid a) else pred_of t h
      | [] => None
      end
  | [] => None
  end.

Fixpoint back (l : list Handler) : option Handler :=
  match l with
  | [] => None
  | [a] => Some a
  | _ :: t => back t
  end.

(** [--it].  Decrementing [begin()] or an invalid iterator is undefined. *)
Definition decr (l : list Handler) (it : Iter) : option nat :=
  match it with
  | End => option_map hid (back l)
  | At h => pred_of l h
  end.

(** [l.erase(it)] *)
Fixpoint erase (l : list Handler) (h : nat) : list Handler :=
  match l with
  | [] => []
  | a :: t => if hid a =? h then t else a :: erase t h
  end.

Definition pop_front (l : list Handler) : list Handler := tl l.

Fixpoint pop_back (l : list Handler) : list Handler :=
  match l with
  | [] => []
  | [_] => []
  | a :: t => a :: pop_back t
  end.

(** ** [Context::bind] and handler destruction *)

(** [Context::bind(path, handler)]: find or create the block, append at the
    back. *)
Definition Context_bind (p : Path) (h : Handler) : M nat := fun ctx =>
  let block :=
    match handlerBlocks ctx !! p with
    | None => mkHandlerBlock []
    | Some b => b
    end in
  (Ok (hid h),
   set_handlerBlocks (<[p := mkHandlerBlock (stackedHandlers block ++ [h])]> (handlerBlocks ctx)) ctx,
   []).

(** [Event<A>::bind(context, function)]: allocate a [TypedHandler<A>] and
    bind it.  The result stands for the [HandlerRef]. *)
Definition Event_bind (p : Path) (f : list Cmd) : M nat := fun ctx =>
  let h := mkHandler (heapNext ctx) false f in
  Context_bind p h (set_heapNext (S (heapNext ctx)) ctx).

Definition mark_destroyed (h : nat) (x : Handler) : Handler :=
  if hid x =? h then mkHandler (hid x) true (fn x) else x.

(** Modelled from the spec: handler.hpp (HandlerRef and the destroyed flag of
    Handler) is missing.  "Returns an opaque HandlerRef that owns a flag
    allowing the caller to later destroy the handler.  Destroyed handlers are
    not removed immediately": destroying only sets the flag. *)
Definition HandlerRef_destroy (h : nat) : M unit :=
  modify (fun ctx =>
    set_handlerBlocks
      (fmap (fun b => mkHandlerBlock (map (mark_destroyed h) (stackedHandlers b)))
            (handlerBlocks ctx)) ctx).

(** ** [Context::super] *)

Inductive Scan :=
| Alive (l : list Handler) (h : Handler)
| Exhausted (l : list Handler)
| ScanUB
| ScanUnfinished.

(** The [while (it->isDestroyed())] loop of [super]: starting at [it],
    erase destroyed handlers towards the front.  [n] bounds the number of
    iterations. *)
Fixpoint find_alive (n : nat) (l : list Handler) (it : nat) : Scan :=
  match deref l it with
  | None => ScanUB
  | Some h =>
      if isDestroyed h then
        if iter_eqb (At it) (begin l) then Exhausted (pop_front l)
        else
          match n with
          | 0 => ScanUnfinished
          | S n' =>
              match pred_of l it with
              | None => ScanUB
              | Some it' => find_alive n' (erase l it) it'
              end
          end
      else Alive l h
  end.

(** Running a handler body; [super_rec] is what [context->super()] does. *)
Fixpoint run_body (super_rec : M unit) (d : nat) (cs : list Cmd) : M unit :=
  match cs with
  | [] => ret tt
  | CSuper :: cs' => super_rec ;; run_body super_rec d cs'
  | CThrowFired :: _ => throw (EventFired d)
  | CThrow tag :: _ => throw (Failure tag)
  | CDestroy h :: cs' => HandlerRef_destroy h ;; run_body super_rec d cs'
  | CBind p f :: cs' => Event_bind p f ;; run_body super_rec d cs'
  end.

Definition store_block (p : Path) (l : list Handler) (it : Iter) (d : nat) (ctx : Context) : Context :=
  set_handlerContext (Some (mkHandlerContext p it d))
    (set_handlerBlocks (<[p := mkHandlerBlock l]> (handlerBlocks ctx)) ctx).

(** [Context::super()], given what [handler->execute(data)] does. *)
Definition super_with (execute : Handler -> nat -> M unit) : M unit := fun ctx =>
  match handlerContext ctx with
  | None => (UB, ctx, [])
  | Some hc =>
      match handlerBlocks ctx !! handlerBlock hc with
      | None => (UB, ctx, [])
      | Some blk =>
          let l := stackedHandlers blk in
          if iter_eqb (handler hc) (begin l) then (Ok tt, ctx, [])
          else
            match decr l (handler hc) with
            | None => (UB, ctx, [])
            | Some it0 =>
                match find_alive (length l) l it0 with
                | ScanUB => (UB, ctx, [])
                | ScanUnfinished => (Unfinished, ctx, [])
                | Exhausted l' =>
                    (Ok tt, store_block (handlerBlock hc) l' (At it0) (hdata hc) ctx, [])
                | Alive l' h =>
                    execute h (hdata hc)
                      (store_block (handlerBlock hc) l' (At (hid h)) (hdata hc) ctx)
                end
            end
      end
  end.

(** [TypedHandler<A>::execute(data)] runs the bound function, whose calls of
    [context->super()] enter [super] again.  [fuel] bounds the nesting of
    handler executions. *)
Fixpoint super (fuel : nat) : M unit :=
  super_with (fun h d =>
    match fuel with
    | 0 => unfinished
    | S fuel' => tell (AExecute (hid h) d) ;; run_body (super fuel') d (fn h)
    end).

(** ** [Context::handleEvent] *)

(** [while (!empty() && back()->isDestroyed()) pop_back();] *)
Fixpoint prune_back (n : nat) (l : list Handler) : list Handler :=
  match back l with
  | None => l
  | Some h =>
      if isDestroyed h then
        match n with
        | 0 => l
        | S n' => prune_back n' (pop_back l)
        end
      else l
  end.

Definition handleEvent (event : PendingEvent) : M unit := fun ctx =>
  match handlerBlocks ctx !! path event with
  | None => (Ok tt, ctx, [])
  | Some block =>
      let l := prune_back (length (stackedHandlers block)) (stackedHandlers block) in
      match l with
      | [] => (Ok tt, set_handlerBlocks (delete (path event) (handlerBlocks ctx)) ctx, [])
      | _ :: _ =>
          (super (length l) ;; modify (set_handlerContext None))
            (store_block (path event) l End (data event) ctx)
      end
  end.

(** ** [Context::process] *)

Definition free (event : PendingEvent) : M unit :=
  tell (AFreeData (freeData event) (data event)).

(** [mailbox->dequeue(event)] on the owning fiber. *)
Definition dequeue : M (option PendingEvent) := fun ctx =>
  match mailbox (controlBlock ctx) with
  | [] => (Ok None, ctx, [])
  | event :: rest => (Ok (Some event), set_mailbox rest ctx, [ADequeue event])
  end.

(** The body of both dispatch sites:
    [try { handleEvent(event); } catch (...) { event.freeData(event.data); throw; }
     event.freeData(event.data);] *)
Definition dispatch (event : PendingEvent) : M unit :=
  try_catch_rethrow (handleEvent event) (free event) ;;
  free event.

(** [n] bounds the number of loop iterations. *)
Fixpoint process_loop (n : nat) : M unit :=
  let* r := dequeue in
  match r with
  | None => ret tt
  | Some event =>
      match n with
      | 0 => unfinished
      | S n' => dispatch event ;; process_loop n'
      end
  end.

Definition process : M unit := fun ctx =>
  process_loop (length (mailbox (controlBlock ctx))) ctx.

(** ** [Context::yield] *)

(** What other threads enqueue into this fiber's mailbox during one
    iteration of the [yield] loop: after [process()] has drained the mailbox
    and before the mutex is taken ([afterDrain]), and from the check under
    the mutex until the fiber runs again ([whileWaiting]).  An event enqueued
    while [process()] is still draining is taken out by that drain, like one
    that was in the mailbox before. *)
Record Arrivals := mkArrivals {
  afterDrain : list PendingEvent;
  whileWaiting : list PendingEvent
}.

(** A move of the environment: senders enqueue at the back. *)
Definition arrive (es : list PendingEvent) (ctx : Context) : Context :=
  set_mailbox (mailbox (controlBlock ctx) ++ es) ctx.

Definition senders (es : list PendingEvent) : M unit := modify (arrive es).

Definition lock : M unit := tell ALock ;; modify (set_mutex true).
Definition unlock : M unit := tell AUnlock ;; modify (set_mutex false).

(** Modelled from the spec: executor.cpp is missing.  "suspend(lock_held):
    called with mutex held by the currently running fiber when it decides it
    has nothing to do ... releases the mutex; jumps back to the scheduler
    context."  The call is logged with the mailbox and the mutex as they are
    when it is made; it returns when the fiber is resumed. *)
Definition Executor_suspend : M unit :=
  let* ctx := get in
  tell (ASuspend (mailbox (controlBlock ctx)) (mutex (controlBlock ctx))) ;;
  modify (set_mutex false).

Definition sleep_for (ms : nat) : M unit := tell (ASleep ms).

(** One iteration of [while (true)] in [Context::yield]. *)
Definition yield_iteration (a : Arrivals) : M unit :=
  process ;;
  senders (afterDrain a) ;;
  let* ctx := get in
  match executor (controlBlock ctx) with
  | Some _ =>
      lock ;;
      let* r := dequeue in
      match r with
      | Some event =>
          unlock ;;
          dispatch event
      | None =>
          Executor_suspend ;;
          senders (whileWaiting a)
      end
  | None =>
      sleep_for 1 ;;
      senders (whileWaiting a)
  end.

(** [Context::yield()]: the loop has no exit; the list of arrivals bounds how
    many iterations are followed. *)
Fixpoint yield (env : list Arrivals) : M unit :=
  match env with
  | [] => unfinished
  | a :: env' => yield_iteration a ;; yield env'
  end.

(** ** [Event<A>::await] *)

(** The lambda [[context] (const A& value) { context->super(); throw EventFired{value}; }] *)
Definition await_handler : list Cmd := [CSuper; CThrowFired].

(** [try { m } catch (const EventFired& eventFired) { return eventFired.value; }]
    at the end of a function returning [A]: flowing off the end is
    undefined. *)
Definition catch_EventFired (m : M unit) : M nat := fun ctx =>
  match m ctx with
  | (Exc (EventFired v), ctx1, t) => (Ok v, ctx1, t)
  | (Exc (Failure tag), ctx1, t) => (Exc (Failure tag), ctx1, t)
  | (Ok _, ctx1, t) => (UB, ctx1, t)
  | (UB, ctx1, t) => (UB, ctx1, t)
  | (Unfinished, ctx1, t) => (Unfinished, ctx1, t)
  end.

(** Running [cleanup] when the scope is left, normally or by an exception. *)
Definition scoped {A} (m : M A) (cleanup : M unit) : M A := fun ctx =>
  match m ctx with
  | (Ok a, ctx1, t1) =>
      match cleanup ctx1 with
      | (_, ctx2, t2) => (Ok a, ctx2, t1 ++ t2)
      end
  | (Exc e, ctx1, t1) =>
      match cleanup ctx1 with
      | (_, ctx2, t2) => (Exc e, ctx2, t1 ++ t2)
      end
  | r => r
  end.

(** [Event<A>::await(context)] for the event with path [p].  The local
    [HandlerRef] is released when the frame is left (modelled from the spec,
    see [HandlerRef_destroy]: "binds a single-shot handler"). *)
Definition await (p : Path) (env : list Arrivals) : M nat :=
  let* h := Event_bind p await_handler in
  scoped (catch_EventFired (yield env)) (HandlerRef_destroy h).

(** ** [System] *)

(** [detail::FiberRefImpl]: a local reference names the mailbox it delivers
    to; a dead-letter reference drops what it is sent. *)
Inductive FiberRefImpl :=
| LocalFiberRef (mbox : nat)
| DeadLetterFiberRef.

(** The fields [System::run] fills in of a fresh [detail::ControlBlock]. *)
Record Block := mkBlock {
  blockMailbox : nat;
  blockFiber : nat;
  finished : bool
}.

(** [class System].  [executors] holds, per executor, the addresses of the
    control blocks handed to it; [heap] the control blocks allocated so far
    (a block's address is its index); [running] and [roundRobinCounter] are
    64-bit unsigned atomics; [mainMailbox] is the mailbox of the main control
    block. *)
Record System := mkSystem {
  executors : list (list nat);
  shuttingDown : bool;
  heap : list Block;
  running : Z;
  roundRobinCounter : Z;
  allFibersFinished_ : Path;
  mainMailbox : list PendingEvent
}.

Definition uint64 (z : Z) : Z := (z mod 2 ^ 64)%Z.
Definition uint32 (z : Z) : Z := (z mod 2 ^ 32)%Z.

(** [std::uniform_int_distribution<uint32_t>(a, b)(engine)] returns one of
    the values [a..b].  Which one depends on the state of the engine and on
    the algorithm of the standard library, neither of which is modelled: the
    call is given by its outcome.  [draw] is the rank of the value that is
    drawn, counted from [a]; ranks are taken modulo the size of the range, so
    that every number names a value of the range and every value of the
    range has a rank.  [draw] is not the number the engine produces. *)
Definition uniform_int_distribution (a b draw : Z) : Z :=
  (a + draw mod (uint32 (b - a) + 1))%Z.

(** Modelled from the spec: executor.cpp is missing.  "pushes into some
    worker's ready queue": [executors[i]->execute(block)] and
    [executors[i]->schedule(block)] put the block at the back of the queue of
    executor [i].  Indexing [executors] past the end is undefined ([None]). *)
Definition hand_to (i : Z) (block : nat) (ex : list (list nat)) : option (list (list nat)) :=
  match ex !! Z.to_nat i with
  | Some q => Some (<[Z.to_nat i := q ++ [block]]> ex)
  | None => None
  end.

(** [System::run<FiberImpl>(args...)]; [fiber] stands for the constructed
    fiber object, [draw] for the outcome of [chooseExecutor(System::random)]
    (the rank of the executor index that is drawn, see
    [uniform_int_distribution]).  [None] is undefined behaviour. *)
Definition System_run (fiber : nat) (draw : Z) (s : System) : option (FiberRefImpl * System) :=
  if negb (shuttingDown s) then
    let block := mkBlock (length (heap s)) fiber false in
    let addr := length (heap s) in
    let chooseExecutor :=
      uniform_int_distribution 0 (uint32 (uint64 (Z.of_nat (length (executors s)) - 1))) in
    match hand_to (chooseExecutor draw) addr (executors s) with
    | Some ex' =>
        Some (LocalFiberRef (blockMailbox block),
              mkSystem ex' (shuttingDown s) (heap s ++ [block]) (running s)
                       (roundRobinCounter s) (allFibersFinished_ s) (mainMailbox s))
    | None => None
    end
  else Some (DeadLetterFiberRef, s).

(** [System::shutdown()] *)
Definition System_shutdown (s : System) : System :=
  mkSystem (executors s) true (heap s) (running s) (roundRobinCounter s)
           (allFibersFinished_ s) (mainMailbox s).

(** [System::schedule(controlBlock)]: [i = fetch_add(&roundRobinCounter, 1)],
    then [executors[i % executors.size()]->schedule(controlBlock)].  [None]
    is undefined behaviour (no executors). *)
Definition System_schedule (block : nat) (s : System) : option System :=
  let i := roundRobinCounter s in
  match executors s with
  | [] => None
  | _ :: _ =>
      match hand_to (i mod Z.of_nat (length (executors s))) block (executors s) with
      | Some ex' =>
          Some (mkSystem ex' (shuttingDown s) (heap s) (running s)
                         (uint64 (i + 1)) (allFibersFinished_ s) (mainMailbox s))
      | None => None
      end
  end.

(** Modelled from the spec: fiberref.hpp and localfiberref.cpp are missing.
    "emit(event, value) on a reference constructs a PendingEvent ... then
    calls send"; "send enqueues into the target's mailbox".  The event has the
    unit payload. *)
Definition mainFiber_emit (p : Path) (s : System) : System :=
  mkSystem (executors s) (shuttingDown s) (heap s) (running s) (roundRobinCounter s)
           (allFibersFinished_ s) (mainMailbox s ++ [mkPendingEvent p 0 0]).

Definition set_running (r : Z) (s : System) : System :=
  mkSystem (executors s) (shuttingDown s) (heap s) r (roundRobinCounter s)
           (allFibersFinished_ s) (mainMailbox s).

(** [System::fiberFinished()]:
    [if (atomic_fetch_sub(&running, 1) == 1) mainFiber().emit(allFibersFinished_);] *)
Definition System_fiberFinished (s : System) : System :=
  let old := running s in
  let s' := set_running (uint64 (old - 1)) s in
  if (old =? 1)%Z then mainFiber_emit (allFibersFinished_ s') s' else s'.

(** Modelled from the spec: the code that counts a started fiber is missing.
    "run ... bump the running-fiber counter". *)
Definition System_fiberStarted (s : System) : System :=
  set_running (uint64 (running s + 1)) s.

(** The calls made on a system during its lifetime. *)
Inductive SystemCall :=
| CallRun (fiber : nat) (draw : Z)
| CallShutdown
| CallSchedule (block : nat)
| CallFiberStarted
| CallFiberFinished.

(** One call; the reference [run] returns is kept. *)
Definition system_call (c : SystemCall) (s : System) : option (option FiberRefImpl * System) :=
  match c with
  | CallRun fiber draw =>
      match System_run fiber draw s with
      | Some (r, s') => Some (Some r, s')
      | None => None
      end
  | CallShutdown => Some (None, System_shutdown s)
  | CallSchedule block =>
      match System_schedule block s with
      | Some s' => Some (None, s')
      | None => None
      end
  | CallFiberStarted => Some (None, System_fiberStarted s)
  | CallFiberFinished => Some (None, System_fiberFinished s)
  end.

(** A sequence of calls; collects the references returned by [run]. *)
Fixpoint system_calls (cs : list SystemCall) (s : System) : option (list FiberRefImpl * System) :=
  match cs with
  | [] => Some ([], s)
  | c :: cs' =>
      match system_call c s with
      | Some (r, s1) =>
          match system_calls cs' s1 with
          | Some (rs, s2) =>
              Some (match r with Some x => x :: rs | None => rs end, s2)
          | None => None
          end
      | None => None
      end
  end.

(** [System::System(macrothreads)], as far as these fields go. *)
Definition System_new (macrothreads : nat) (allFinished : Path) : System :=
  mkSystem (repeat [] macrothreads) false [] 0 0 allFinished [].

(** How many [allFibersFinished] events the main fiber has been sent. *)
Definition fired (s : System) : nat :=
  length (List.filter (fun e => path e =? allFibersFinished_ s) (mainMailbox s)).

(** ** Reading traces *)

(** The [freeData(data)] calls of a trace, as (function, argument). *)
Fixpoint freed (t : list Action) : list (nat * nat) :=
  match t with
  | [] => []
  | AFreeData f d :: t' => (f, d) :: freed t'
  | _ :: t' => freed t'
  end.

(** The events a trace takes out of the mailbox. *)
Fixpoint dequeued (t : list Action) : list PendingEvent :=
  match t with
  | [] => []
  | ADequeue e :: t' => e :: dequeued t'
  | _ :: t' => dequeued t'
  end.

Definition is_execute (a : Action) : Prop :=
  match a with
  | AExecute _ _ => True
  | _ => False
  end.

(** Actions of the suspend handshake. *)
Definition is_handshake (a : Action) : bool :=
  match a with
  | ALock | AUnlock | ASuspend _ _ => true
  | _ => false
  end.

Definition owed (e : PendingEvent) : nat * nat := (freeData e, data e).

Definition quiet (t : list Action) : bool :=
  forallb (fun a => negb (is_handshake a)) t.

Definition exits {A} (r : Res A) : Prop :=
  match r with
  | Ok _ | Exc _ => True
  | UB | Unfinished => False
  end.

(** ** The dispatch in progress *)

(** The handlers in front of node [h], front first; [None] when the list has
    no such node. *)
Fixpoint before (l : list Handler) (h : nat) : option (list Handler) :=
  match l with
  | [] => None
  | a :: t => if hid a =? h then Some [] else option_map (cons a) (before t h)
  end.

(** The handlers a further [super()] can still reach: those in front of the
    cursor.  An invalid cursor reaches none. *)
Definition ahead (l : list Handler) (it : Iter) : list Handler :=
  match it with
  | End => l
  | At h =>
      match before l h with
      | Some b => b
      | None => []
      end
  end.

(** Addresses of the handlers that are not destroyed, in list order. *)
Fixpoint live_ids (l : list Handler) : list nat :=
  match l with
  | [] => []
  | h :: t => if isDestroyed h then live_ids t else hid h :: live_ids t
  end.

(** Path, payload, handler stack and cursor of the dispatch in progress. *)
Definition cursor_view (ctx : Context) : option (Path * nat * list Handler * Iter) :=
  match handlerContext ctx with
  | Some hc =>
      match handlerBlocks ctx !! handlerBlock hc with
      | Some b => Some (handlerBlock hc, hdata hc, stackedHandlers b, handler hc)
      | None => None
      end
  | None => None
  end.

(** Handler objects are distinct heap objects below the allocation mark, and
    so is the node the cursor is or was on. *)
Definition well_formed (next : nat) (l : list Handler) (it : Iter) : Prop :=
  List.NoDup (map hid l) /\
  Forall (fun h => hid h < next) l /\
  match it with
  | End => True
  | At c => c < next
  end.

(** Every handler block holds distinct handler objects below the allocation
    mark. *)
Definition sound_stack (next : nat) (l : list Handler) : Prop :=
  List.NoDup (map hid l) /\ Forall (fun h => hid h < next) l.

Definition sound_blocks (ctx : Context) : Prop :=
  forall p b, handlerBlocks ctx !! p = Some b ->
              sound_stack (heapNext ctx) (stackedHandlers b).

(** What a piece of dispatch code [m] does to the dispatch in progress, when
    started with handler stack [l] and cursor [it] for path [p] and payload
    [d]: it executes the handlers [ex] (in that order, with the payload),
    which are taken, newest first, from the live handlers it could reach,
    and what can be reached afterwards lies in front of them.  With [fuel]
    at least the number of live handlers in reach it does not run out. *)
Definition advances (fuel : nat) (m : M unit) (ctx : Context)
    (p : Path) (d : nat) (l : list Handler) (it : Iter) : Prop :=
  cursor_view ctx = Some (p, d, l, it) ->
  well_formed (heapNext ctx) l it ->
  exists l' it' ex,
    cursor_view (final (m ctx)) = Some (p, d, l', it') /\
    well_formed (heapNext (final (m ctx))) l' it' /\
    (it <> End -> it' <> End) /\
    trace (m ctx) = map (fun i => AExecute i d) ex /\
    sublist (live_ids (ahead l' it') ++ rev ex) (live_ids (ahead l it)) /\
    (length (live_ids (ahead l it)) <= fuel -> outcome (m ctx) <> Unfinished).

(** What [handler->execute(data)] has to do for [super] to advance: started
    on a live handler [h] with the cursor on it. *)
Definition executes_in_order (fuel : nat) (execute : Handler -> nat -> M unit) : Prop :=
  forall h d ctx p K R,
    isDestroyed h = false ->
    cursor_view ctx = Some (p, d, K ++ h :: R, At (hid h)) ->
    well_formed (heapNext ctx) (K ++ h :: R) (At (hid h)) ->
    exists l' it' ex,
      cursor_view (final (execute h d ctx)) = Some (p, d, l', it') /\
      well_formed (heapNext (final (execute h d ctx))) l' it' /\
      it' <> End /\
      trace (execute h d ctx) = map (fun i => AExecute i d) ex /\
      sublist (live_ids (ahead l' it') ++ rev ex) (live_ids K ++ [hid h]) /\
      (length (live_ids K) < fuel -> outcome (execute h d ctx) <> Unfinished).

(** ** States around an [await] *)

(** The handlers bound to path [p], oldest first. *)
Definition bound_to (p : Path) (ctx : Context) : list Handler :=
  match handlerBlocks ctx !! p with
  | Some b => stackedHandlers b
  | None => []
  end.

(** The handler object [await] creates in context [ctx]. *)
Definition await_binding (ctx : Context) : Handler :=
  mkHandler (heapNext ctx) false await_handler.

(** The context right after [await] has bound its handler. *)
Definition awaiting (p : Path) (ctx : Context) : Context :=
  final (Event_bind p await_handler ctx).

(** The context in which the handler of [await] starts its body for an event
    with payload [v]: the events up to that one are out of the mailbox, and
    the cursor is at the handler of [await], the newest of its block. *)
Definition in_await_handler (p : Path) (v : nat) (rest : list PendingEvent)
    (ctx : Context) : Context :=
  store_block p (bound_to p ctx ++ [await_binding ctx]) (At (heapNext ctx)) v
    (set_mailbox rest (awaiting p ctx)).

(** What [process] logs for events nobody has bound a handler for. *)
Definition dropped_trace (es : list PendingEvent) : list Action :=
  flat_map (fun e => [ADequeue e; AFreeData (freeData e) (data e)]) es.

(** ** Sample states *)

(** A context with nothing bound and an empty mailbox, bound to the given
    executor or to none. *)
Definition idle_context (ex : option nat) : Context :=
  mkContext (mkControlBlock ex false []) ∅ None 100.

Definition with_mailbox (mb : list PendingEvent) (ctx : Context) : Context :=
  set_mailbox mb ctx.

Definition with_block (p : Path) (l : list Handler) (ctx : Context) : Context :=
  set_handlerBlocks (<[p := mkHandlerBlock l]> (handlerBlocks ctx)) ctx.

Definition sample_event : PendingEvent := mkPendingEvent 7 42 9.
Definition other_event : PendingEvent := mkPendingEvent 8 1 2.

(** A bound context with a handler on path 7 that throws, and three pending
    events. *)
Definition throwing_context : Context :=
  with_mailbox [other_event; sample_event; other_event]
    (with_block 7 [mkHandler 1 false [CThrow 3]] (idle_context (Some 0))).

(** A bound context with one handler on path 7, an event for another path
    and then an event for path 7 in the mailbox. *)
Definition awaited_context : Context :=
  with_mailbox [other_event; sample_event]
    (with_block 7 [mkHandler 1 false []] (idle_context (Some 0))).

(** A running system with two executors whose round-robin counter is 1. *)
Definition two_executors : System := mkSystem [[]; []] false [] 0 1 5 [].

(** A block on path 7 whose front handler has been destroyed while the
    newest one, which calls [super()] twice, is alive. *)
Definition stale_front_context : Context :=
  with_block 7 [mkHandler 1 true []; mkHandler 2 false [CSuper; CSuper]] (idle_context None).

(** The same block with the front handler alive. *)
Definition live_front_context : Context :=
  with_block 7 [mkHandler 1 false []; mkHandler 2 false [CSuper; CSuper]] (idle_context None).

(** ** The control block mutex along a trace *)

(** What one logged call does to the mutex, given whether the fiber holds it:
    [lock()] needs it free, [unlock()] and [suspend()] need it held and
    release it, and a handler is entered only with the mutex free.  [None]
    when the call is made in the wrong state. *)
Definition mutex_step (held : bool) (a : Action) : option bool :=
  match a with
  | ALock => if held then None else Some true
  | AUnlock => if held then Some false else None
  | ASuspend _ locked => if held && locked then Some false else None
  | AExecute _ _ => if held then None else Some false
  | ADequeue _ | AFreeData _ _ | ASleep _ => Some held
  end.

(** Whether the fiber holds the mutex after the calls of a trace. *)
Fixpoint mutex_after (held : bool) (t : list Action) : option bool :=
  match t with
  | [] => Some held
  | a :: t' =>
      match mutex_step held a with
      | Some held' => mutex_after held' t'
      | None => None
      end
  end.

(** ** Reading handler bodies *)

(** Whether a handler body calls [context->super()] itself. *)
Definition calls_super (cs : list Cmd) : bool :=
  existsb (fun c => match c with CSuper => true | _ => false end) cs.

(** Whether a call destroys a handler, itself or in a handler it binds. *)
Fixpoint destroys (c : Cmd) : bool :=
  match c with
  | CDestroy _ => true
  | CBind _ body => existsb destroys body
  | CSuper | CThrowFired | CThrow _ => false
  end.

(** A handler that is not destroyed and whose body destroys none. *)
Definition keeps_handlers (h : Handler) : Prop :=
  isDestroyed h = false /\ existsb destroys (fn h) = false.

(** No handler of the context is destroyed or destroys one. *)
Definition never_destroyed (ctx : Context) : Prop :=
  forall p b, handlerBlocks ctx !! p = Some b -> Forall keeps_handlers (stackedHandlers b).

(** ** Further sample states *)

(** A system with two executors and three running fibers. *)
Definition three_running : System := set_running 3 (System_new 2 5).

(** A context with two events in the mailbox and no handler bound. *)
Definition unbound_events_context : Context :=
  with_mailbox [sample_event; other_event] (idle_context None).

(** ** Dispatch without destroyed handlers *)

(** The cursor of the dispatch in progress is past-the-end or on a node of
    its block. *)
Definition cursor_valid (ctx : Context) : Prop :=
  exists p d l it,
    cursor_view ctx = Some (p, d, l, it) /\
    match it with
    | End => True
    | At c => In c (map hid l)
    end.

(** A dispatch in progress over sound blocks in which nothing is or gets
    destroyed. *)
Definition steady (ctx : Context) : Prop :=
  sound_blocks ctx /\ never_destroyed ctx /\ cursor_valid ctx.

(** ** Handlers that pass the event on *)

(** Whether the body of a handler begins with [context->super()]. *)
Definition starts_with_super (h : Handler) : bool :=
  match fn h with
  | CSuper :: _ => true
  | _ => false
  end.

(** The dispatch in progress has run through its block: the cursor is on the
    front node, or on a node that [super] has erased. *)
Definition settled (ctx : Context) : Prop :=
  exists p d l c,
    cursor_view ctx = Some (p, d, l, At c) /\
    c < heapNext ctx /\
    (begin l = At c \/ ~ In c (map hid l)).

(** ** Handlers that have been destroyed *)

(** Whether a trace holds an execution of the handler at address [t]. *)
Definition executes (t : nat) (tr : list Action) : bool :=
  existsb (fun a => match a with AExecute h _ => h =? t | _ => false end) tr.

(** The handler object at address [t] has been allocated, and wherever it
    is still linked into a block it is marked destroyed. *)
Definition retired (t : nat) (ctx : Context) : Prop :=
  t < heapNext ctx /\
  forall p b h, handlerBlocks ctx !! p = Some b -> In h (stackedHandlers b) ->
                hid h = t -> isDestroyed h = true.

(** ** Further states of a system and of a nested [await] *)

Definition set_roundRobinCounter (c : Z) (s : System) : System :=
  mkSystem (executors s) (shuttingDown s) (heap s) (running s) c
           (allFibersFinished_ s) (mainMailbox s).



(** * Properties *)

(** ** Traces *)

Lemma freed_app t1 t2 : freed (t1 ++ t2) = freed t1 ++ freed t2.
Proof.
  induction t1 as [|a t1 IH]; [reflexivity|].
  destruct a; simpl; rewrite IH; reflexivity.
Qed.

Lemma dequeued_app t1 t2 : dequeued (t1 ++ t2) = dequeued t1 ++ dequeued t2.
Proof.
  induction t1 as [|a t1 IH]; [reflexivity|].
  destruct a; simpl; rewrite IH; reflexivity.
Qed.

Lemma only_execute_freed t : Forall is_execute t -> freed t = [].
Proof.
  induction 1 as [|a t Ha _ IH]; [reflexivity|].
  destruct a; simpl in *; try contradiction; exact IH.
Qed.

Lemma only_execute_dequeued t : Forall is_execute t -> dequeued t = [].
Proof.
  induction 1 as [|a t Ha _ IH]; [reflexivity|].
  destruct a; simpl in *; try contradiction; exact IH.
Qed.

Lemma only_execute_handshake t : Forall is_execute t -> quiet t = true.
Proof.
  induction 1 as [|a t Ha _ IH]; [reflexivity|].
  destruct a; simpl in *; try contradiction; exact IH.
Qed.

(** ** The monad *)

Lemma bind_eq {A B} (m : M A) (k : A -> M B) ctx :
  bind m k ctx =
  match m ctx with
  | (Ok a, ctx1, t1) => (outcome (k a ctx1), final (k a ctx1), t1 ++ trace (k a ctx1))
  | (Exc e, ctx1, t1) => (Exc e, ctx1, t1)
  | (UB, ctx1, t1) => (UB, ctx1, t1)
  | (Unfinished, ctx1, t1) => (Unfinished, ctx1, t1)
  end.
Proof.
  unfold bind, outcome, final, trace.
  destruct (m ctx) as [[[a|e| |] c1] t1]; try reflexivity.
  destruct (k a c1) as [[r c2] t2]; reflexivity.
Qed.

Lemma triple_eta {A} (r : Res A * Context * list Action) :
  r = (outcome r, final r, trace r).
Proof. destruct r as [[? ?] ?]; reflexivity. Qed.

(** What a handler body logs, given what [super()] logs. *)
Lemma run_body_trace (P : list Action -> Prop) (super_rec : M unit) d :
  P [] ->
  (forall t1 t2, P t1 -> P t2 -> P (t1 ++ t2)) ->
  (forall ctx, P (trace (super_rec ctx))) ->
  forall cs ctx, P (trace (run_body super_rec d cs ctx)).
Proof.
  intros Hnil Happ Hrec cs.
  induction cs as [|c cs IH]; intros ctx; [exact Hnil|].
  destruct c; simpl; try exact Hnil.
  - rewrite bind_eq. specialize (Hrec ctx).
    destruct (super_rec ctx) as [[[[]|e| |] c1] t1]; simpl in *; auto.
  - rewrite bind_eq. unfold HandlerRef_destroy, modify. simpl. apply IH.
  - rewrite bind_eq. unfold Event_bind, Context_bind. simpl. apply IH.
Qed.

Lemma super_trace fuel : forall ctx, Forall is_execute (trace (super fuel ctx)).
Proof.
  induction fuel as [|fuel IH]; intros ctx; simpl; unfold super_with;
    repeat match goal with
           | |- context [match ?x with _ => _ end] => destruct x
           end; simpl; try constructor.
  rewrite bind_eq. simpl. constructor; [exact I|].
  apply (run_body_trace (Forall is_execute)); auto using Forall_nil.
  intros; apply Forall_app; auto.
Qed.

Lemma handleEvent_trace event ctx : Forall is_execute (trace (handleEvent event ctx)).
Proof.
  unfold handleEvent.
  destruct (handlerBlocks ctx !! path event) as [block|]; [|constructor].
  destruct (prune_back _ _) as [|h l]; [constructor|].
  rewrite bind_eq.
  match goal with |- context [super ?n ?c] =>
    pose proof (super_trace n c) as H; destruct (super n c) as [[[[]|e| |] c1] t1]
  end; simpl in *; auto.
  rewrite app_nil_r; auto.
Qed.

(** ** Handler stacks *)

Lemma back_None l : back l = None -> l = [].
Proof.
  induction l as [|a [|b t] IH]; simpl; intros H; try reflexivity; try discriminate.
  specialize (IH H). discriminate.
Qed.

Lemma back_pop_back l h : back l = Some h -> l = pop_back l ++ [h].
Proof.
  induction l as [|a [|b t] IH]; intros H; try discriminate.
  - simpl in H. injection H as ->. reflexivity.
  - change (pop_back (a :: b :: t)) with (a :: pop_back (b :: t)).
    simpl app. f_equal. apply IH. exact H.
Qed.

Lemma pop_back_length l : length (pop_back l) = pred (length l).
Proof.
  induction l as [|a [|b t] IH]; try reflexivity.
  change (pop_back (a :: b :: t)) with (a :: pop_back (b :: t)).
  simpl length in *. rewrite IH. reflexivity.
Qed.

(** The pruning loop of [handleEvent] removes exactly the destroyed handlers
    at the back. *)
Lemma prune_back_spec n l :
  length l <= n ->
  exists dropped,
    l = prune_back n l ++ dropped /\
    Forall (fun h => isDestroyed h = true) dropped /\
    (forall h, back (prune_back n l) = Some h -> isDestroyed h = false).
Proof.
  revert l. induction n as [|n IH]; intros l Hlen.
  - destruct l; [|simpl in Hlen; lia].
    exists []. simpl. repeat split; [constructor | discriminate].
  - simpl. destruct (back l) as [h|] eqn:Hb.
    + destruct (isDestroyed h) eqn:Hd.
      * destruct (IH (pop_back l)) as (dr & Heq & Hall & Hlive).
        { rewrite pop_back_length. lia. }
        exists (dr ++ [h]). split; [|split].
        -- rewrite app_assoc, <- Heq. apply back_pop_back; exact Hb.
        -- apply Forall_app; split; [exact Hall | repeat constructor; exact Hd].
        -- exact Hlive.
      * exists []. rewrite app_nil_r. repeat split; [constructor|].
        intros h' Hh'. congruence.
    + exists []. rewrite app_nil_r. repeat split; [constructor|].
      intros h' Hh'. congruence.
Qed.

(** C7.  [handleEvent(event)] looks up the handler block of [event.path].
    When there is none, the event is dropped: nothing is executed and the
    context is unchanged.  Otherwise the destroyed handlers at the back of
    the block are popped ([dropped]); when nothing is left, the map entry of
    the path is erased and [handleEvent] returns without dispatching; when
    handlers are left ([kept]), the dispatch runs on the pruned block. *)
Theorem handleEvent_lookup_prune_erase (event : PendingEvent) (ctx : Context) :
  (handlerBlocks ctx !! path event = None ->
   handleEvent event ctx = (Ok tt, ctx, [])) /\
  (forall block, handlerBlocks ctx !! path event = Some block ->
   exists kept dropped,
     stackedHandlers block = kept ++ dropped /\
     Forall (fun h => isDestroyed h = true) dropped /\
     (forall h, back kept = Some h -> isDestroyed h = false) /\
     (kept = [] ->
      handleEvent event ctx =
        (Ok tt, set_handlerBlocks (delete (path event) (handlerBlocks ctx)) ctx, [])) /\
     (kept <> [] ->
      handleEvent event ctx =
        (super (length kept) ;; modify (set_handlerContext None))
          (store_block (path event) kept End (data event) ctx))).
Proof.
  split.
  - intros Hnone. unfold handleEvent. rewrite Hnone. reflexivity.
  - intros block Hsome.
    destruct (prune_back_spec (length (stackedHandlers block)) (stackedHandlers block))
      as (dropped & Heq & Hall & Hlive); [lia|].
    exists (prune_back (length (stackedHandlers block)) (stackedHandlers block)), dropped.
    repeat split; try assumption.
    + intros Hk. unfold handleEvent. rewrite Hsome, Hk. reflexivity.
    + intros Hk. unfold handleEvent. rewrite Hsome.
      destruct (prune_back _ _) as [|h l]; [congruence | reflexivity].
Qed.

Lemma handleEvent_lookup_prune_erase_witness :
  handleEvent sample_event (idle_context None) = (Ok tt, idle_context None, []) /\
  exists kept dropped,
    [mkHandler 1 false []; mkHandler 2 true [CSuper]] = kept ++ dropped /\
    Forall (fun h => isDestroyed h = true) dropped.
Proof.
  split.
  - apply (proj1 (handleEvent_lookup_prune_erase sample_event (idle_context None))).
    reflexivity.
  - destruct (proj2 (handleEvent_lookup_prune_erase sample_event
       (with_block 7 [mkHandler 1 false []; mkHandler 2 true [CSuper]] (idle_context None)))
       (mkHandlerBlock [mkHandler 1 false []; mkHandler 2 true [CSuper]]) eq_refl)
      as (kept & dropped & Heq & Hall & _).
    exists kept, dropped. split; assumption.
Defined.

(** ** Freeing payloads *)

Lemma dispatch_eq event ctx :
  dispatch event ctx =
  match handleEvent event ctx with
  | (Ok _, c, t) => (Ok tt, c, t ++ [AFreeData (freeData event) (data event)])
  | (Exc e, c, t) => (Exc e, c, t ++ [AFreeData (freeData event) (data event)])
  | (UB, c, t) => (UB, c, t)
  | (Unfinished, c, t) => (Unfinished, c, t)
  end.
Proof.
  unfold dispatch. rewrite bind_eq. unfold try_catch_rethrow, free, tell.
  destruct (handleEvent event ctx) as [[[[]|e| |] c] t]; simpl; reflexivity.
Qed.

(** One dispatch frees the payload once when [handleEvent] exits, normally
    or by an exception. *)
Lemma dispatch_frees_once event ctx :
  exits (outcome (handleEvent event ctx)) ->
  freed (trace (dispatch event ctx)) = [owed event] /\
  dequeued (trace (dispatch event ctx)) = [] /\
  outcome (dispatch event ctx) = outcome (handleEvent event ctx).
Proof.
  intros Hex. rewrite dispatch_eq.
  pose proof (handleEvent_trace event ctx) as Ht.
  destruct (handleEvent event ctx) as [[[[]|e| |] c] t]; simpl in *; try contradiction;
    rewrite freed_app, dequeued_app, (only_execute_freed t), (only_execute_dequeued t);
    auto.
Qed.

Lemma dispatch_exits event ctx :
  exits (outcome (dispatch event ctx)) -> exits (outcome (handleEvent event ctx)).
Proof.
  rewrite dispatch_eq.
  destruct (handleEvent event ctx) as [[[[]|e| |] c] t]; simpl; auto.
Qed.

Lemma process_loop_frees n : forall ctx,
  exits (outcome (process_loop n ctx)) ->
  freed (trace (process_loop n ctx)) = map owed (dequeued (trace (process_loop n ctx))).
Proof.
  induction n as [|n IH]; intros ctx; simpl; rewrite bind_eq; unfold dequeue;
    destruct (mailbox (controlBlock ctx)) as [|event rest]; simpl; auto; try contradiction.
  rewrite bind_eq. intros Hex.
  assert (Hh : exits (outcome (handleEvent event (set_mailbox rest ctx)))).
  { apply dispatch_exits.
    destruct (dispatch event (set_mailbox rest ctx)) as [[[[]|e| |] c] t]; simpl in *; auto. }
  destruct (dispatch_frees_once _ _ Hh) as (Hf & Hd & _).
  destruct (dispatch event (set_mailbox rest ctx)) as [[[[]|e| |] c] t]; simpl in *;
    try contradiction.
  - rewrite freed_app, dequeued_app, Hf, Hd. simpl. f_equal. apply IH. exact Hex.
  - rewrite Hf, Hd. reflexivity.
Qed.

(** ** The control block during dispatch *)

Lemma bind_pure {A B} (m : M A) (k : A -> M B) ctx a c1 :
  m ctx = (Ok a, c1, []) -> bind m k ctx = k a c1.
Proof.
  intros H. unfold bind. rewrite H. destruct (k a c1) as [[r c2] t2]. reflexivity.
Qed.

(** Dispatching touches the handler table only: the control block (executor,
    mutex, mailbox) is left as it is. *)
Lemma run_body_controlBlock (super_rec : M unit) d :
  (forall ctx, controlBlock (final (super_rec ctx)) = controlBlock ctx) ->
  forall cs ctx, controlBlock (final (run_body super_rec d cs ctx)) = controlBlock ctx.
Proof.
  intros Hrec cs.
  induction cs as [|c cs IH]; intros ctx; [reflexivity|].
  destruct c; simpl; try reflexivity.
  - rewrite bind_eq. specialize (Hrec ctx).
    destruct (super_rec ctx) as [[[[]|e| |] c1] t1]; simpl in *; auto.
    unfold final in *; simpl. rewrite <- Hrec. apply IH.
  - erewrite bind_pure by reflexivity. rewrite IH. reflexivity.
  - erewrite bind_pure by reflexivity. rewrite IH. reflexivity.
Qed.

Lemma super_controlBlock fuel : forall ctx,
  controlBlock (final (super fuel ctx)) = controlBlock ctx.
Proof.
  induction fuel as [|fuel IH]; intros ctx; simpl; unfold super_with;
    repeat match goal with
           | |- context [match ?x with _ => _ end] => destruct x
           end; try reflexivity.
  rewrite bind_eq. simpl.
  match goal with |- controlBlock (final (_, final ?r, _)) = _ =>
    change (controlBlock (final r) = controlBlock ctx) end.
  rewrite run_body_controlBlock; auto.
Qed.

Lemma handleEvent_controlBlock event ctx :
  controlBlock (final (handleEvent event ctx)) = controlBlock ctx.
Proof.
  unfold handleEvent.
  destruct (handlerBlocks ctx !! path event) as [block|]; [|reflexivity].
  destruct (prune_back _ _) as [|h l]; [reflexivity|].
  rewrite bind_eq.
  match goal with |- context [super ?n ?c] =>
    pose proof (super_controlBlock n c) as H; destruct (super n c) as [[[[]|e| |] c1] t1]
  end; simpl in *; auto.
Qed.

Lemma dispatch_controlBlock event ctx :
  controlBlock (final (dispatch event ctx)) = controlBlock ctx.
Proof.
  rewrite dispatch_eq. pose proof (handleEvent_controlBlock event ctx) as H.
  destruct (handleEvent event ctx) as [[[[]|e| |] c] t]; simpl in *; auto.
Qed.

Lemma dispatch_no_handshake event ctx :
  quiet (trace (dispatch event ctx)) = true.
Proof.
  rewrite dispatch_eq. pose proof (handleEvent_trace event ctx) as H.
  apply only_execute_handshake in H.
  destruct (handleEvent event ctx) as [[[[]|e| |] c] t]; simpl in *; auto;
    unfold quiet in *; rewrite forallb_app, H; reflexivity.
Qed.

(** ** [process] *)

(** [process] leaves executor and mutex alone, logs no lock traffic, and when
    it returns normally the mailbox is empty. *)
Lemma process_loop_spec n : forall ctx,
  let r := process_loop n ctx in
  executor (controlBlock (final r)) = executor (controlBlock ctx) /\
  mutex (controlBlock (final r)) = mutex (controlBlock ctx) /\
  quiet (trace r) = true /\
  (outcome r = Ok tt -> mailbox (controlBlock (final r)) = []).
Proof.
  induction n as [|n IH]; intros ctx; simpl; rewrite bind_eq; unfold dequeue;
    destruct (mailbox (controlBlock ctx)) as [|event rest] eqn:Hmb; simpl; auto.
  - repeat split; auto. discriminate.
  - rewrite bind_eq.
    pose proof (dispatch_controlBlock event (set_mailbox rest ctx)) as Hcb.
    pose proof (dispatch_no_handshake event (set_mailbox rest ctx)) as Hhs.
    destruct (dispatch event (set_mailbox rest ctx)) as [[[[]|e| |] c] t];
      unfold final, outcome, trace, quiet in *; simpl in *;
      try (rewrite Hcb; simpl; repeat split; auto; discriminate).
    destruct (IH c) as (He & Hm & Ht & Hok).
    rewrite He, Hm, Hcb, forallb_app, Hhs, Ht. simpl. repeat split; auto.
Qed.

Lemma process_spec ctx :
  let r := process ctx in
  executor (controlBlock (final r)) = executor (controlBlock ctx) /\
  mutex (controlBlock (final r)) = mutex (controlBlock ctx) /\
  quiet (trace r) = true /\
  (outcome r = Ok tt -> mailbox (controlBlock (final r)) = []).
Proof. apply process_loop_spec. Qed.

(** ** One iteration of [yield] *)

Lemma yield_iteration_eq a ctx :
  yield_iteration a ctx =
  match process ctx with
  | (Ok _, c1, t1) =>
      let c2 := arrive (afterDrain a) c1 in
      match executor (controlBlock c1) with
      | Some _ =>
          match mailbox (controlBlock c2) with
          | event :: rest =>
              let r := dispatch event (set_mutex false (set_mailbox rest (set_mutex true c2))) in
              (outcome r, final r, t1 ++ [ALock; ADequeue event; AUnlock] ++ trace r)
          | [] =>
              (Ok tt, arrive (whileWaiting a) (set_mutex false (set_mutex true c2)),
               t1 ++ [ALock; ASuspend [] true])
          end
      | None => (Ok tt, arrive (whileWaiting a) c2, t1 ++ [ASleep 1])
      end
  | (Exc e, c1, t1) => (Exc e, c1, t1)
  | (UB, c1, t1) => (UB, c1, t1)
  | (Unfinished, c1, t1) => (Unfinished, c1, t1)
  end.
Proof.
  unfold yield_iteration, bind, senders, modify, get, lock, unlock, tell, dequeue,
    Executor_suspend, sleep_for, arrive, outcome, final, trace.
  destruct (process ctx) as [[[[]|e| |] c1] t1]; try reflexivity.
  cbn -[dispatch].
  destruct (executor (controlBlock c1)) as [ex|]; cbn -[dispatch]; [|reflexivity].
  destruct (mailbox (controlBlock c1) ++ afterDrain a) as [|event rest]; cbn -[dispatch];
    [reflexivity|].
  match goal with |- context [dispatch ?e ?c] => destruct (dispatch e c) as [[r c'] t'] end.
  reflexivity.
Qed.

Lemma quiet_app t1 t2 : quiet (t1 ++ t2) = quiet t1 && quiet t2.
Proof. apply forallb_app. Qed.

Lemma quiet_no_handshake t x : quiet t = true -> In x t -> is_handshake x = false.
Proof.
  unfold quiet. rewrite forallb_forall. intros H Hin.
  specialize (H x Hin). destruct (is_handshake x); [discriminate | reflexivity].
Qed.

Lemma yield_iteration_executor a ctx :
  executor (controlBlock (final (yield_iteration a ctx))) = executor (controlBlock ctx).
Proof.
  rewrite yield_iteration_eq.
  destruct (process_spec ctx) as (He & _).
  destruct (process ctx) as [[[[]|e| |] c1] t1]; unfold final in *; simpl in *; auto.
  destruct (executor (controlBlock c1)) as [ex|] eqn:Hex; simpl; [|congruence].
  destruct (mailbox (controlBlock c1) ++ afterDrain a) as [|event rest]; simpl; [congruence|].
  match goal with |- context [dispatch ?e ?c] =>
    pose proof (dispatch_controlBlock e c) as Hcb; unfold final in Hcb; rewrite Hcb end.
  simpl. congruence.
Qed.

(** In one iteration, [suspend] is only ever called with the mutex held and
    the mailbox empty. *)
Lemma yield_iteration_suspend a ctx pending locked :
  In (ASuspend pending locked) (trace (yield_iteration a ctx)) ->
  pending = [] /\ locked = true.
Proof.
  rewrite yield_iteration_eq.
  destruct (process_spec ctx) as (_ & _ & Hq & _).
  destruct (process ctx) as [[[[]|e| |] c1] t1]; unfold trace in *; simpl in *;
    try (intros Hin; apply (quiet_no_handshake _ _ Hq) in Hin; discriminate).
  destruct (executor (controlBlock c1)) as [ex|]; simpl.
  - destruct (mailbox (controlBlock c1) ++ afterDrain a) as [|event rest]; simpl.
    + rewrite in_app_iff. intros [Hin|Hin].
      * apply (quiet_no_handshake _ _ Hq) in Hin; discriminate.
      * destruct Hin as [Hin|[Hin|[]]]; [discriminate|].
        injection Hin as <- <-. split; reflexivity.
    + rewrite in_app_iff. intros [Hin|Hin].
      * apply (quiet_no_handshake _ _ Hq) in Hin; discriminate.
      * destruct Hin as [Hin|[Hin|[Hin|Hin]]]; try discriminate.
        match type of Hin with In _ (snd (dispatch ?e ?c)) =>
          pose proof (dispatch_no_handshake e c) as Hd end.
        apply (quiet_no_handshake _ _ Hd) in Hin; discriminate.
  - rewrite in_app_iff. intros [Hin|Hin].
    + apply (quiet_no_handshake _ _ Hq) in Hin; discriminate.
    + destruct Hin as [Hin|[]]; discriminate.
Qed.

Lemma yield_suspend env : forall ctx pending locked,
  In (ASuspend pending locked) (trace (yield env ctx)) ->
  pending = [] /\ locked = true.
Proof.
  induction env as [|a env IH]; intros ctx pending locked; simpl; [intros []|].
  rewrite bind_eq.
  pose proof (yield_iteration_suspend a ctx pending locked) as Hit.
  destruct (yield_iteration a ctx) as [[[[]|e| |] c1] t1]; unfold trace in *; simpl in *; auto.
  rewrite in_app_iff. intros [Hin|Hin]; [auto | eapply IH; exact Hin].
Qed.

(** C2 (as amended).  For a fiber bound to an executor: once [process()] has
    drained the mailbox, [yield] takes the control block's mutex and looks
    into the mailbox again.  If an event was enqueued between the drain and
    the lock, the mutex is released, that event is handled and freed, nothing
    is suspended, and the loop starts over; if the mailbox is empty under the
    mutex, the fiber suspends.  In every run of [yield], [suspend] is only
    called with the mutex held and no event in the mailbox. *)
Theorem yield_rechecks_mailbox_under_mutex
    (a : Arrivals) (ctx c1 : Context) (t1 : list Action) (ex : nat) :
  executor (controlBlock ctx) = Some ex ->
  process ctx = (Ok tt, c1, t1) ->
  (forall event rest, afterDrain a = event :: rest ->
     let r := dispatch event (set_mutex false (set_mailbox rest (set_mutex true c1))) in
     yield_iteration a ctx =
       (outcome r, final r, t1 ++ [ALock; ADequeue event; AUnlock] ++ trace r) /\
     (forall pending locked, ~ In (ASuspend pending locked) (trace (yield_iteration a ctx))) /\
     (forall env, outcome r = Ok tt ->
        trace (yield (a :: env) ctx) =
          (t1 ++ [ALock; ADequeue event; AUnlock] ++ trace r) ++ trace (yield env (final r)))) /\
  (afterDrain a = [] ->
     yield_iteration a ctx =
       (Ok tt, set_mailbox (whileWaiting a) (set_mutex false c1),
        t1 ++ [ALock; ASuspend [] true])) /\
  (forall env c pending locked,
     In (ASuspend pending locked) (trace (yield env c)) -> pending = [] /\ locked = true).
Proof.
  intros Hex Hproc.
  destruct (process_spec ctx) as (He & _ & Hq & Hmb).
  rewrite Hproc in He, Hq, Hmb. unfold final, outcome, trace in He, Hq, Hmb.
  simpl in He, Hq, Hmb.
  specialize (Hmb eq_refl). rewrite Hex in He.
  assert (Hiter : forall event rest, afterDrain a = event :: rest ->
    yield_iteration a ctx =
      (outcome (dispatch event (set_mutex false (set_mailbox rest (set_mutex true c1)))),
       final (dispatch event (set_mutex false (set_mailbox rest (set_mutex true c1)))),
       t1 ++ [ALock; ADequeue event; AUnlock] ++
       trace (dispatch event (set_mutex false (set_mailbox rest (set_mutex true c1)))))).
  { intros event rest Ha. rewrite yield_iteration_eq, Hproc. cbn zeta.
    rewrite He. unfold arrive. cbn [mailbox controlBlock set_mailbox].
    rewrite Hmb, Ha. reflexivity. }
  split; [|split].
  - intros event rest Ha r. split; [|split].
    + apply Hiter; exact Ha.
    + intros pending locked. rewrite (Hiter _ _ Ha). unfold trace at 1. simpl.
      rewrite in_app_iff. intros [Hin|Hin].
      * apply (quiet_no_handshake _ _ Hq) in Hin; discriminate.
      * destruct Hin as [Hin|[Hin|[Hin|Hin]]]; try discriminate.
        pose proof (dispatch_no_handshake event
          (set_mutex false (set_mailbox rest (set_mutex true c1)))) as Hd.
        apply (quiet_no_handshake _ _ Hd) in Hin; discriminate.
    + intros env Hok. simpl yield. rewrite bind_eq, (Hiter _ _ Ha).
      fold r. rewrite Hok. reflexivity.
  - intros Ha. rewrite yield_iteration_eq, Hproc. cbn zeta.
    rewrite He. unfold arrive. cbn [mailbox controlBlock set_mailbox set_mutex].
    rewrite Hmb, Ha. simpl. unfold set_mailbox, set_mutex. simpl. reflexivity.
  - intros env c pending locked. apply yield_suspend.
Qed.

(** A bound fiber whose mailbox receives [sample_event] after the drain. *)
Lemma yield_rechecks_mailbox_under_mutex_witness :
  yield_iteration (mkArrivals [sample_event] []) (idle_context (Some 0)) =
    (Ok tt, set_mutex false (idle_context (Some 0)),
     [ALock; ADequeue sample_event; AUnlock; AFreeData 9 42]) /\
  yield_iteration (mkArrivals [] [other_event]) (idle_context (Some 0)) =
    (Ok tt, set_mailbox [other_event] (set_mutex false (idle_context (Some 0))),
     [ALock; ASuspend [] true]).
Proof.
  pose proof (yield_rechecks_mailbox_under_mutex (mkArrivals [sample_event] [])
                (idle_context (Some 0)) (idle_context (Some 0)) [] 0
                eq_refl eq_refl) as H1.
  pose proof (yield_rechecks_mailbox_under_mutex (mkArrivals [] [other_event])
                (idle_context (Some 0)) (idle_context (Some 0)) [] 0
                eq_refl eq_refl) as H2.
  split.
  - destruct H1 as (H1 & _). destruct (H1 sample_event [] eq_refl) as (H & _).
    rewrite H. reflexivity.
  - destruct H2 as (_ & H2 & _). exact (H2 eq_refl).
Defined.

(** C2 as stated does not hold for a fiber that is not bound to an executor:
    after the drain no mutex is taken and the mailbox is not looked at again,
    although an event has arrived. *)
Lemma yield_unbound_takes_no_mutex :
  ~ (forall (a : Arrivals) (ctx c1 : Context) (t1 : list Action),
       process ctx = (Ok tt, c1, t1) ->
       In ALock (trace (yield_iteration a ctx))).
Proof.
  intros H.
  specialize (H (mkArrivals [sample_event] []) (idle_context None) (idle_context None) []
                eq_refl).
  vm_compute in H. destruct H as [H|[]]. discriminate.
Qed.

(** ** Fibers without an executor *)

Lemma yield_iteration_unbound_quiet a ctx :
  executor (controlBlock ctx) = None ->
  quiet (trace (yield_iteration a ctx)) = true.
Proof.
  intros Hex. rewrite yield_iteration_eq.
  destruct (process_spec ctx) as (He & _ & Hq & _).
  destruct (process ctx) as [[[[]|e| |] c1] t1]; unfold final, trace in *; simpl in *; auto.
  rewrite He, Hex. simpl. rewrite quiet_app, Hq. reflexivity.
Qed.

Lemma yield_unbound_quiet env : forall ctx,
  executor (controlBlock ctx) = None ->
  quiet (trace (yield env ctx)) = true.
Proof.
  induction env as [|a env IH]; intros ctx Hex; simpl; [reflexivity|].
  rewrite bind_eq.
  pose proof (yield_iteration_unbound_quiet a ctx Hex) as Hq.
  pose proof (yield_iteration_executor a ctx) as He.
  destruct (yield_iteration a ctx) as [[[[]|e| |] c1] t1]; unfold final, trace in *;
    simpl in *; auto.
  rewrite quiet_app, Hq. simpl. apply IH. congruence.
Qed.

(** C9.  When the control block has no executor, an iteration of the [yield]
    loop drains the mailbox and then sleeps for 1 ms; neither the iteration
    nor the whole loop takes the mutex or calls [suspend]. *)
Theorem yield_unbound_sleeps_1ms (a : Arrivals) (ctx : Context) :
  executor (controlBlock ctx) = None ->
  (forall c1 t1, process ctx = (Ok tt, c1, t1) ->
     yield_iteration a ctx =
       (Ok tt, arrive (whileWaiting a) (arrive (afterDrain a) c1), t1 ++ [ASleep 1])) /\
  quiet (trace (yield_iteration a ctx)) = true /\
  (forall env, quiet (trace (yield env ctx)) = true).
Proof.
  intros Hex. split; [|split].
  - intros c1 t1 Hproc. rewrite yield_iteration_eq.
    destruct (process_spec ctx) as (He & _).
    rewrite Hproc in *. unfold final in He. simpl in He. rewrite He, Hex. reflexivity.
  - apply yield_iteration_unbound_quiet; exact Hex.
  - intros env. apply yield_unbound_quiet; exact Hex.
Qed.

Lemma yield_unbound_sleeps_1ms_witness :
  yield_iteration (mkArrivals [sample_event] [other_event]) (idle_context None) =
    (Ok tt, set_mailbox [sample_event; other_event] (idle_context None), [ASleep 1]).
Proof.
  destruct (yield_unbound_sleeps_1ms (mkArrivals [sample_event] [other_event])
              (idle_context None) eq_refl) as (H & _).
  exact (H (idle_context None) [] eq_refl).
Defined.

(** ** Leaving [yield] *)

Lemma super_exception fuel ctx e :
  outcome (super fuel ctx) = Exc e ->
  exists h d, In (AExecute h d) (trace (super fuel ctx)).
Proof.
  destruct fuel as [|fuel]; simpl; unfold super_with;
    repeat match goal with
           | |- context [match ?x with _ => _ end] => destruct x
           end; simpl; try discriminate.
  intros _. rewrite bind_eq. simpl. eexists _, _. left. reflexivity.
Qed.

Lemma handleEvent_exception event ctx e :
  outcome (handleEvent event ctx) = Exc e ->
  exists h d, In (AExecute h d) (trace (handleEvent event ctx)).
Proof.
  unfold handleEvent.
  destruct (handlerBlocks ctx !! path event) as [block|]; [|discriminate].
  destruct (prune_back _ _) as [|h l]; [discriminate|].
  rewrite bind_eq.
  match goal with |- context [super ?n ?c] =>
    pose proof (super_exception n c) as H; destruct (super n c) as [[[[]|e'| |] c1] t1]
  end; simpl in *; try discriminate.
  intros _. exact (H e' eq_refl).
Qed.

Lemma dispatch_exception event ctx e :
  outcome (dispatch event ctx) = Exc e ->
  exists h d, In (AExecute h d) (trace (dispatch event ctx)).
Proof.
  rewrite dispatch_eq.
  pose proof (handleEvent_exception event ctx) as H.
  destruct (handleEvent event ctx) as [[[[]|e'| |] c1] t1]; simpl in *; try discriminate.
  intros _. destruct (H e' eq_refl) as (h & d & Hin).
  exists h, d. apply in_or_app; left; exact Hin.
Qed.

Lemma process_loop_exception n : forall ctx e,
  outcome (process_loop n ctx) = Exc e ->
  exists h d, In (AExecute h d) (trace (process_loop n ctx)).
Proof.
  induction n as [|n IH]; intros ctx e; simpl; rewrite bind_eq; unfold dequeue;
    destruct (mailbox (controlBlock ctx)) as [|event rest]; simpl; try discriminate.
  rewrite bind_eq.
  pose proof (dispatch_exception event (set_mailbox rest ctx)) as Hd.
  destruct (dispatch event (set_mailbox rest ctx)) as [[[[]|e'| |] c] t];
    unfold outcome, trace in *; simpl in *; try discriminate.
  - intros H. destruct (IH c e H) as (h & d & Hin).
    exists h, d. right. apply in_or_app; right; exact Hin.
  - intros _. destruct (Hd e' eq_refl) as (h & d & Hin). exists h, d. right; exact Hin.
Qed.

Lemma yield_iteration_exception a ctx e :
  outcome (yield_iteration a ctx) = Exc e ->
  exists h d, In (AExecute h d) (trace (yield_iteration a ctx)).
Proof.
  rewrite yield_iteration_eq.
  pose proof (process_loop_exception (length (mailbox (controlBlock ctx))) ctx) as Hp.
  fold (process ctx) in Hp.
  destruct (process ctx) as [[[[]|e'| |] c1] t1]; unfold outcome, trace in *; simpl in *;
    try discriminate.
  - destruct (executor (controlBlock c1)); simpl; [|discriminate].
    destruct (mailbox (controlBlock c1) ++ afterDrain a) as [|event rest]; simpl;
      [discriminate|].
    intros H. apply dispatch_exception in H. destruct H as (h & d & Hin).
    exists h, d. apply in_or_app; right. simpl. auto.
  - intros _. exact (Hp e' eq_refl).
Qed.

(** An [EventFired] that leaves a dispatch carries the payload some executed
    handler was given. *)
Lemma run_body_fired (super_rec : M unit) d v :
  (forall ctx, outcome (super_rec ctx) = Exc (EventFired v) ->
     exists h, In (AExecute h v) (trace (super_rec ctx))) ->
  forall cs ctx, outcome (run_body super_rec d cs ctx) = Exc (EventFired v) ->
    v = d \/ exists h, In (AExecute h v) (trace (run_body super_rec d cs ctx)).
Proof.
  intros Hrec cs. induction cs as [|c cs IH]; intros ctx; [discriminate|].
  destruct c as [| |tag|tgt|q f]; cbn [run_body].
  - rewrite bind_eq. specialize (Hrec ctx).
    destruct (super_rec ctx) as [[[[]|e| |] c1] t1]; unfold outcome, trace in *;
      cbn [fst snd] in *; try discriminate.
    + intros H. destruct (IH c1 H) as [->|(h & Hin)]; [left; reflexivity|].
      right. exists h. apply in_or_app. right. exact Hin.
    + intros [= ->]. right. apply Hrec. reflexivity.
  - intros [= ->]. left. reflexivity.
  - discriminate.
  - erewrite bind_pure by reflexivity. apply IH.
  - erewrite bind_pure by reflexivity. apply IH.
Qed.

Lemma super_fired fuel v : forall ctx,
  outcome (super fuel ctx) = Exc (EventFired v) ->
  exists h, In (AExecute h v) (trace (super fuel ctx)).
Proof.
  induction fuel as [|fuel IH]; intros ctx; cbn [super]; unfold super_with;
    repeat match goal with
           | |- context [match ?x with _ => _ end] => destruct x eqn:?
           end; try discriminate.
  rewrite bind_eq. unfold tell. cbn [outcome final trace fst snd].
  match goal with |- context [run_body ?s ?d ?cs ?c] =>
    pose proof (run_body_fired s d v IH cs c) as Hb;
    destruct (run_body s d cs c) as [[[[]|e| |] c1] t1]
  end; unfold outcome, trace in *; cbn [fst snd] in *; try discriminate.
  intros [= ->]. destruct (Hb eq_refl) as [->|(h' & Hin)].
  - eexists. left. reflexivity.
  - exists h'. right. exact Hin.
Qed.

Lemma dispatch_fired event ctx v :
  outcome (dispatch event ctx) = Exc (EventFired v) ->
  exists h, In (AExecute h v) (trace (dispatch event ctx)).
Proof.
  rewrite dispatch_eq. unfold handleEvent.
  destruct (handlerBlocks ctx !! path event) as [block|]; [|discriminate].
  destruct (prune_back _ _) as [|h0 l]; [discriminate|].
  rewrite bind_eq.
  match goal with |- context [super ?n ?c] =>
    pose proof (super_fired n v c) as H; destruct (super n c) as [[[[]|e'| |] c1] t1]
  end; unfold outcome, trace in *; cbn [fst snd] in *; try discriminate.
  intros [= ->]. destruct (H eq_refl) as (h & Hin).
  exists h. apply in_or_app. left. exact Hin.
Qed.

Lemma process_loop_fired n v : forall ctx,
  outcome (process_loop n ctx) = Exc (EventFired v) ->
  exists h, In (AExecute h v) (trace (process_loop n ctx)).
Proof.
  induction n as [|n IH]; intros ctx; simpl; rewrite bind_eq; unfold dequeue;
    destruct (mailbox (controlBlock ctx)) as [|event rest]; simpl; try discriminate.
  rewrite bind_eq.
  pose proof (dispatch_fired event (set_mailbox rest ctx) v) as Hd.
  destruct (dispatch event (set_mailbox rest ctx)) as [[[[]|e'| |] c] t];
    unfold outcome, trace in *; simpl in *; try discriminate.
  - intros H. destruct (IH c H) as (h & Hin).
    exists h. right. apply in_or_app; right; exact Hin.
  - intros [= ->]. destruct (Hd eq_refl) as (h & Hin). exists h. right; exact Hin.
Qed.

Lemma yield_iteration_fired a ctx v :
  outcome (yield_iteration a ctx) = Exc (EventFired v) ->
  exists h, In (AExecute h v) (trace (yield_iteration a ctx)).
Proof.
  rewrite yield_iteration_eq.
  pose proof (process_loop_fired (length (mailbox (controlBlock ctx))) v ctx) as Hp.
  fold (process ctx) in Hp.
  destruct (process ctx) as [[[[]|e'| |] c1] t1]; unfold outcome, trace in *; simpl in *;
    try discriminate.
  - destruct (executor (controlBlock c1)); simpl; [|discriminate].
    destruct (mailbox (controlBlock c1) ++ afterDrain a) as [|event rest]; simpl;
      [discriminate|].
    intros H. apply dispatch_fired in H. destruct H as (h & Hin).
    exists h. apply in_or_app; right. simpl. auto.
  - intros [= ->]. exact (Hp eq_refl).
Qed.

(** C10.  [yield] never returns normally: however long the loop is followed
    it is either still looping or was left by an exception, and an exception
    leaves it only after a handler has been executed in a dispatch; an
    [EventFired] that leaves it carries the payload an executed handler was
    given. *)
Theorem yield_never_returns (env : list Arrivals) (ctx : Context) :
  outcome (yield env ctx) <> Ok tt /\
  (forall e, outcome (yield env ctx) = Exc e ->
     exists h d, In (AExecute h d) (trace (yield env ctx))) /\
  (forall v, outcome (yield env ctx) = Exc (EventFired v) ->
     exists h, In (AExecute h v) (trace (yield env ctx))).
Proof.
  revert ctx. induction env as [|a env IH]; intros ctx; simpl.
  - split; [discriminate|]. split; intros e; discriminate.
  - rewrite bind_eq.
    pose proof (yield_iteration_exception a ctx) as Hit.
    pose proof (yield_iteration_fired a ctx) as Hfi.
    destruct (yield_iteration a ctx) as [[[[]|e'| |] c1] t1]; unfold outcome, trace in *;
      simpl in *; try (split; [discriminate|]; split; intros e; discriminate).
    + destruct (IH c1) as (Hne & Hexc & Hfired). split; [exact Hne|]. split.
      * intros e He. destruct (Hexc e He) as (h & d & Hin).
        exists h, d. apply in_or_app; right; exact Hin.
      * intros v Hv. destruct (Hfired v Hv) as (h & Hin).
        exists h. apply in_or_app; right; exact Hin.
    + split; [discriminate|]. split.
      * intros e _. exact (Hit e' eq_refl).
      * intros v [= ->]. exact (Hfi v eq_refl).
Qed.

Lemma yield_never_returns_witness :
  exists h d, In (AExecute h d) (trace (yield [mkArrivals [] []] throwing_context)).
Proof.
  apply (proj1 (proj2 (yield_never_returns [mkArrivals [] []] throwing_context))
           (Failure 3)).
  reflexivity.
Defined.

(** ** Freeing payloads in [yield] *)

Lemma yield_iteration_frees a ctx :
  exits (outcome (yield_iteration a ctx)) ->
  freed (trace (yield_iteration a ctx)) = map owed (dequeued (trace (yield_iteration a ctx))).
Proof.
  rewrite yield_iteration_eq.
  pose proof (process_loop_frees (length (mailbox (controlBlock ctx))) ctx) as Hp.
  fold (process ctx) in Hp.
  destruct (process ctx) as [[[[]|e'| |] c1] t1]; unfold outcome, trace in *; simpl in *;
    try contradiction; auto.
  destruct (executor (controlBlock c1)); simpl.
  - destruct (mailbox (controlBlock c1) ++ afterDrain a) as [|event rest]; simpl.
    + intros _. rewrite freed_app, dequeued_app, map_app, Hp by exact I.
      simpl. rewrite !app_nil_r. reflexivity.
    + intros Hex. rewrite freed_app, dequeued_app, map_app, Hp by exact I. simpl.
      match goal with |- context [dispatch ?e ?c] =>
        destruct (dispatch_frees_once e c) as (Hf & Hd & _) end.
      { apply dispatch_exits. exact Hex. }
      unfold trace in Hf, Hd. rewrite Hf, Hd. reflexivity.
  - intros _. rewrite freed_app, dequeued_app, map_app, Hp by exact I.
    simpl. rewrite !app_nil_r. reflexivity.
Qed.

Lemma yield_frees env : forall ctx e,
  outcome (yield env ctx) = Exc e ->
  freed (trace (yield env ctx)) = map owed (dequeued (trace (yield env ctx))).
Proof.
  induction env as [|a env IH]; intros ctx e; simpl; [discriminate|].
  rewrite bind_eq.
  pose proof (yield_iteration_frees a ctx) as Hit.
  destruct (yield_iteration a ctx) as [[[[]|e'| |] c1] t1]; unfold outcome, trace in *;
    simpl in *; try discriminate.
  - intros H. rewrite freed_app, dequeued_app, map_app, Hit by exact I.
    f_equal. eapply IH; exact H.
  - intros _. apply Hit; exact I.
Qed.

(** C1.  Whenever [handleEvent] exits, normally or by an exception, the
    dispatch frees the event's payload exactly once.  Hence in [process()],
    in one iteration of [yield()] (drain and re-check under the mutex) and in
    a whole run of [yield()] ended by an exception, the [freeData(data)]
    calls are, one for one and in order, those of the events taken out of
    the mailbox. *)
Theorem freeData_once_per_dequeued_event :
  (forall event ctx, exits (outcome (handleEvent event ctx)) ->
     freed (trace (dispatch event ctx)) = [owed event]) /\
  (forall ctx, exits (outcome (process ctx)) ->
     freed (trace (process ctx)) = map owed (dequeued (trace (process ctx)))) /\
  (forall a ctx, exits (outcome (yield_iteration a ctx)) ->
     freed (trace (yield_iteration a ctx)) =
       map owed (dequeued (trace (yield_iteration a ctx)))) /\
  (forall env ctx e, outcome (yield env ctx) = Exc e ->
     freed (trace (yield env ctx)) = map owed (dequeued (trace (yield env ctx)))).
Proof.
  split; [|split; [|split]].
  - intros event ctx H. apply dispatch_frees_once; exact H.
  - intros ctx. apply process_loop_frees.
  - apply yield_iteration_frees.
  - apply yield_frees.
Qed.

Lemma freeData_once_per_dequeued_event_witness :
  freed (trace (process throwing_context)) = [(2, 1); (9, 42)] /\
  freed (trace (dispatch other_event (idle_context None))) = [(2, 1)].
Proof.
  destruct freeData_once_per_dequeued_event as (H1 & H2 & _).
  split.
  - rewrite (H2 throwing_context); [reflexivity | vm_compute; exact I].
  - rewrite (H1 other_event (idle_context None)); [reflexivity | vm_compute; exact I].
Defined.

(** ** [await] *)

Lemma back_snoc l h : back (l ++ [h]) = Some h.
Proof.
  induction l as [|a l IH]; [reflexivity|].
  simpl app. destruct (l ++ [h]) eqn:E; [destruct l; discriminate|].
  exact IH.
Qed.

Lemma prune_back_live n l h :
  isDestroyed h = false -> prune_back n (l ++ [h]) = l ++ [h].
Proof.
  intros Hl. destruct n; simpl; rewrite back_snoc, Hl; reflexivity.
Qed.

Lemma deref_snoc_fresh l h :
  Forall (fun x => hid x <> hid h) l -> deref (l ++ [h]) (hid h) = Some h.
Proof.
  induction 1 as [|a l Ha _ IH]; simpl.
  - rewrite Nat.eqb_refl. reflexivity.
  - apply Nat.eqb_neq in Ha. rewrite Ha. exact IH.
Qed.

Lemma begin_snoc l h : iter_eqb End (begin (l ++ [h])) = false.
Proof. destruct l; reflexivity. Qed.

Lemma store_block_twice p l it d it' d' c :
  store_block p l it d (store_block p l it' d' c) = store_block p l it d c.
Proof.
  unfold store_block, set_handlerContext, set_handlerBlocks. simpl.
  rewrite insert_insert_eq. reflexivity.
Qed.

(** The first [super()] of a dispatch runs the newest handler when it is
    alive. *)
Lemma super_from_end fuel p l h d c :
  isDestroyed h = false ->
  Forall (fun x => hid x <> hid h) l ->
  super (S fuel) (store_block p (l ++ [h]) End d c) =
  (tell (AExecute (hid h) d) ;; run_body (super fuel) d (fn h))
    (store_block p (l ++ [h]) (At (hid h)) d c).
Proof.
  intros Hlive Hfresh. rewrite <- (store_block_twice p (l ++ [h]) (At (hid h)) d End d c).
  change (super (S fuel)) with
    (super_with (fun h d => tell (AExecute (hid h) d) ;; run_body (super fuel) d (fn h))).
  unfold super_with.
  cbn [handlerContext store_block set_handlerContext set_handlerBlocks handlerBlocks
       handlerBlock handler hdata].
  rewrite lookup_insert_eq. cbn [stackedHandlers].
  rewrite begin_snoc. unfold decr. rewrite back_snoc. cbn [option_map].
  assert (Hfa : find_alive (length (l ++ [h])) (l ++ [h]) (hid h) = Alive (l ++ [h]) h).
  { destruct (length (l ++ [h])); simpl; rewrite (deref_snoc_fresh l h Hfresh), Hlive;
      reflexivity. }
  rewrite Hfa. reflexivity.
Qed.

Lemma awaiting_blocks p ctx :
  handlerBlocks (awaiting p ctx) =
  <[p := mkHandlerBlock (bound_to p ctx ++ [await_binding ctx])]> (handlerBlocks ctx).
Proof.
  unfold awaiting, Event_bind, Context_bind, bound_to, await_binding, final. simpl.
  destruct (handlerBlocks ctx !! p); reflexivity.
Qed.

Lemma awaiting_mailbox p ctx :
  mailbox (controlBlock (awaiting p ctx)) = mailbox (controlBlock ctx).
Proof. reflexivity. Qed.

(** Events nobody has bound a handler for are taken out and freed, one after
    the other. *)
Lemma process_loop_drop pre : forall n more c,
  mailbox (controlBlock c) = pre ++ more ->
  Forall (fun e => handlerBlocks c !! path e = None) pre ->
  process_loop (length pre + n) c =
  (outcome (process_loop n (set_mailbox more c)),
   final (process_loop n (set_mailbox more c)),
   dropped_trace pre ++ trace (process_loop n (set_mailbox more c))).
Proof.
  induction pre as [|e pre IH]; intros n more c Hmb Hall.
  - simpl in *.
    replace (set_mailbox more c) with c.
    + apply triple_eta.
    + destruct c as [[ex mu mb] hb hc hn]. simpl in *. subst. reflexivity.
  - inversion Hall as [|? ? He Hall']; subst.
    simpl. rewrite bind_eq. unfold dequeue. rewrite Hmb. simpl.
    rewrite bind_eq, dispatch_eq.
    assert (Hhe : handleEvent e (set_mailbox (pre ++ more) c) =
                  (Ok tt, set_mailbox (pre ++ more) c, [])).
    { unfold handleEvent. simpl. rewrite He. reflexivity. }
    rewrite Hhe. unfold outcome at 1 2, final at 1 2, trace at 1. simpl.
    rewrite (IH n more (set_mailbox (pre ++ more) c)); [|reflexivity|exact Hall'].
    reflexivity.
Qed.

(** The dispatch of the awaited event: the handler of [await] runs first,
    calls [super()], and throws [EventFired] with the payload. *)
Lemma handleEvent_await p v f rest ctx c2 t2 :
  Forall (fun x => hid x <> heapNext ctx) (bound_to p ctx) ->
  super (length (bound_to p ctx)) (in_await_handler p v rest ctx) = (Ok tt, c2, t2) ->
  handleEvent (mkPendingEvent p v f) (set_mailbox rest (awaiting p ctx)) =
  (Exc (EventFired v), c2, AExecute (heapNext ctx) v :: t2).
Proof.
  intros Hfresh Hsuper. unfold handleEvent.
  cbn [path data handlerBlocks set_mailbox].
  change (handlerBlocks (awaiting p ctx) !! p) with (handlerBlocks (awaiting p ctx) !! p).
  rewrite awaiting_blocks, lookup_insert_eq. cbn [stackedHandlers].
  rewrite prune_back_live by reflexivity.
  destruct (bound_to p ctx ++ [await_binding ctx]) as [|x xs] eqn:E;
    [destruct (bound_to p ctx); discriminate|].
  rewrite <- E. rewrite bind_eq.
  rewrite length_app, Nat.add_1_r, super_from_end; [|reflexivity|exact Hfresh].
  fold (awaiting p ctx).
  change (store_block p (bound_to p ctx ++ [await_binding ctx]) (At (hid (await_binding ctx))) v
            (set_mailbox rest (awaiting p ctx))) with (in_await_handler p v rest ctx).
  rewrite bind_eq. unfold tell at 1. cbn [fn await_binding await_handler run_body].
  rewrite bind_eq, Hsuper. unfold throw, outcome, final, trace. simpl.
  rewrite app_nil_r. reflexivity.
Qed.

Lemma process_await p v f pre rest ctx c2 t2 :
  mailbox (controlBlock ctx) = pre ++ mkPendingEvent p v f :: rest ->
  Forall (fun e => handlerBlocks ctx !! path e = None /\ path e <> p) pre ->
  Forall (fun x => hid x <> heapNext ctx) (bound_to p ctx) ->
  super (length (bound_to p ctx)) (in_await_handler p v rest ctx) = (Ok tt, c2, t2) ->
  process (awaiting p ctx) =
  (Exc (EventFired v), c2,
   dropped_trace pre ++
   [ADequeue (mkPendingEvent p v f); AExecute (heapNext ctx) v] ++ t2 ++ [AFreeData f v]).
Proof.
  intros Hmb Hpre Hfresh Hsuper. unfold process.
  rewrite awaiting_mailbox, Hmb, length_app. cbn [length].
  rewrite (process_loop_drop pre (S (length rest)) (mkPendingEvent p v f :: rest)).
  - cbn [process_loop]. rewrite bind_eq. unfold dequeue.
    cbn [mailbox controlBlock set_mailbox]. rewrite bind_eq, dispatch_eq.
    change (set_mailbox rest (set_mailbox (mkPendingEvent p v f :: rest) (awaiting p ctx)))
      with (set_mailbox rest (awaiting p ctx)).
    rewrite (handleEvent_await p v f rest ctx c2 t2 Hfresh Hsuper).
    reflexivity.
  - rewrite awaiting_mailbox. exact Hmb.
  - rewrite awaiting_blocks. eapply Forall_impl; [exact Hpre|].
    intros e [Hnone Hne]. simpl. rewrite lookup_insert_ne by congruence. exact Hnone.
Qed.

Lemma await_eq p env ctx :
  await p env ctx =
  scoped (catch_EventFired (yield env)) (HandlerRef_destroy (heapNext ctx)) (awaiting p ctx).
Proof.
  unfold await.
  exact (bind_pure (Event_bind p await_handler)
           (fun h => scoped (catch_EventFired (yield env)) (HandlerRef_destroy h))
           ctx (heapNext ctx) (awaiting p ctx) eq_refl).
Qed.







(** ** Order of execution within a dispatch *)

Section HandlerStack.

Implicit Types (l A S K D : list Handler) (x y h : Handler).

Lemma in_ids x l : In x l -> In (hid x) (map hid l).
Proof. intros H. apply in_map. exact H. Qed.

Lemma deref_mid A x S :
  List.NoDup (map hid (A ++ x :: S)) -> deref (A ++ x :: S) (hid x) = Some x.
Proof.
  induction A as [|a A IH]; simpl; intros Hnd.
  - rewrite Nat.eqb_refl. reflexivity.
  - apply List.NoDup_cons_iff in Hnd. destruct Hnd as [Hnotin Hnd].
    destruct (Nat.eqb_spec (hid a) (hid x)) as [E|E].
    + exfalso. apply Hnotin. rewrite E. apply in_ids, in_elt.
    + apply IH. exact Hnd.
Qed.

Lemma erase_mid A x S :
  List.NoDup (map hid (A ++ x :: S)) -> erase (A ++ x :: S) (hid x) = A ++ S.
Proof.
  induction A as [|a A IH]; simpl; intros Hnd.
  - rewrite Nat.eqb_refl. reflexivity.
  - apply List.NoDup_cons_iff in Hnd. destruct Hnd as [Hnotin Hnd].
    destruct (Nat.eqb_spec (hid a) (hid x)) as [E|E].
    + exfalso. apply Hnotin. rewrite E. apply in_ids, in_elt.
    + f_equal. apply IH. exact Hnd.
Qed.

Lemma pred_mid A y x S :
  List.NoDup (map hid (A ++ y :: x :: S)) ->
  pred_of (A ++ y :: x :: S) (hid x) = Some (hid y).
Proof.
  induction A as [|a A IH]; intros Hnd.
  - simpl. rewrite Nat.eqb_refl. reflexivity.
  - change ((a :: A) ++ y :: x :: S) with (a :: (A ++ y :: x :: S)) in *.
    simpl map in Hnd. apply List.NoDup_cons_iff in Hnd. destruct Hnd as [Hnotin Hnd].
    specialize (IH Hnd).
    destruct (A ++ y :: x :: S) as [|b t] eqn:E; [destruct A; discriminate|].
    cbn [pred_of]. fold (pred_of (b :: t)).
    destruct (Nat.eqb_spec (hid b) (hid x)) as [Eb|Eb]; [|exact IH].
    exfalso. destruct A as [|a' A].
    + simpl in E. injection E as -> <-. simpl in Hnd.
      apply List.NoDup_cons_iff in Hnd. destruct Hnd as [Hn _].
      apply Hn. rewrite Eb. left; reflexivity.
    + simpl in E. injection E as -> <-. simpl in Hnd.
      apply List.NoDup_cons_iff in Hnd. destruct Hnd as [Hn _].
      apply Hn. rewrite Eb. apply (in_ids x). apply in_or_app. right. right. left. reflexivity.
Qed.

Lemma pred_absent l c : ~ In c (map hid l) -> pred_of l c = None.
Proof.
  induction l as [|a l IH]; intros Hn; [reflexivity|].
  destruct l as [|b t]; [reflexivity|].
  cbn [pred_of]. fold (pred_of (b :: t)).
  destruct (Nat.eqb_spec (hid b) c) as [E|E].
  - exfalso. apply Hn. simpl. right. left. exact E.
  - apply IH. intros H. apply Hn. right. exact H.
Qed.

Lemma begin_mid A x S :
  List.NoDup (map hid (A ++ x :: S)) ->
  iter_eqb (At (hid x)) (begin (A ++ x :: S)) = match A with [] => true | _ => false end.
Proof.
  destruct A as [|a A]; simpl; intros Hnd.
  - apply Nat.eqb_refl.
  - apply List.NoDup_cons_iff in Hnd. destruct Hnd as [Hnotin _].
    apply Nat.eqb_neq. intros E. apply Hnotin. rewrite <- E. apply in_ids, in_elt.
Qed.

Lemma before_mid A x S :
  List.NoDup (map hid (A ++ x :: S)) -> before (A ++ x :: S) (hid x) = Some A.
Proof.
  induction A as [|a A IH]; simpl; intros Hnd.
  - rewrite Nat.eqb_refl. reflexivity.
  - apply List.NoDup_cons_iff in Hnd. destruct Hnd as [Hnotin Hnd].
    destruct (Nat.eqb_spec (hid a) (hid x)) as [E|E].
    + exfalso. apply Hnotin. rewrite E. apply in_ids, in_elt.
    + rewrite (IH Hnd). reflexivity.
Qed.

Lemma before_absent l c : ~ In c (map hid l) -> before l c = None.
Proof.
  induction l as [|a l IH]; intros Hn; [reflexivity|]. simpl.
  destruct (Nat.eqb_spec (hid a) c) as [E|E].
  - exfalso. apply Hn. left. exact E.
  - rewrite IH; [reflexivity|]. intros H. apply Hn. right. exact H.
Qed.

Lemma before_present l c :
  In c (map hid l) -> exists A x S, l = A ++ x :: S /\ hid x = c.
Proof.
  intros H. apply in_map_iff in H. destruct H as (x & Hx & Hin).
  apply in_split in Hin. destruct Hin as (A & S & ->). exists A, x, S. auto.
Qed.

Lemma live_ids_app l1 l2 : live_ids (l1 ++ l2) = live_ids l1 ++ live_ids l2.
Proof.
  induction l1 as [|a l1 IH]; [reflexivity|]. simpl.
  destruct (isDestroyed a); [exact IH | simpl; f_equal; exact IH].
Qed.

Lemma live_ids_destroyed D : Forall (fun h => isDestroyed h = true) D -> live_ids D = [].
Proof.
  induction 1 as [|a D Ha _ IH]; [reflexivity|]. simpl. rewrite Ha. exact IH.
Qed.

Lemma live_ids_length l : length (live_ids l) <= length l.
Proof.
  induction l as [|a l IH]; [reflexivity|]. simpl.
  destruct (isDestroyed a); simpl; lia.
Qed.

(** The pruning loop of [super], started on the node in front of the
    cursor: it stops at the nearest live handler, having erased the
    destroyed ones it passed, or erases everything up to the front. *)
Lemma find_alive_spec A : forall x S n,
  List.NoDup (map hid (A ++ x :: S)) ->
  length A <= n ->
  match find_alive n (A ++ x :: S) (hid x) with
  | Alive l' h =>
      isDestroyed h = false /\
      exists K D, A ++ [x] = K ++ h :: D /\
                  Forall (fun h => isDestroyed h = true) D /\
                  l' = K ++ h :: S
  | Exhausted l' => Forall (fun h => isDestroyed h = true) (A ++ [x]) /\ l' = S
  | ScanUB | ScanUnfinished => False
  end.
Proof.
  induction A as [|y A IH] using rev_ind; intros x S n Hnd Hlen.
  - destruct n; simpl; rewrite Nat.eqb_refl; destruct (isDestroyed x) eqn:Hd.
    + split; [repeat constructor; exact Hd | reflexivity].
    + split; [exact Hd|]. exists [], []. repeat split; constructor.
    + split; [repeat constructor; exact Hd | reflexivity].
    + split; [exact Hd|]. exists [], []. repeat split; constructor.
  - rewrite length_app in Hlen. simpl in Hlen.
    destruct n as [|n]; [lia|].
    cbn [find_alive]. rewrite (deref_mid _ _ _ Hnd).
    destruct (isDestroyed x) eqn:Hd.
    + rewrite (begin_mid _ _ _ Hnd).
      replace (match A ++ [y] with [] => true | _ :: _ => false end) with false
        by (destruct A; reflexivity).
      rewrite <- app_assoc in Hnd |- *. cbn [app] in Hnd |- *.
      rewrite (pred_mid _ _ _ _ Hnd).
      replace (erase (A ++ y :: x :: S) (hid x)) with (A ++ y :: S).
      2:{ change (A ++ y :: x :: S) with (A ++ [y] ++ x :: S).
          rewrite app_assoc, erase_mid; [rewrite <- app_assoc; reflexivity|].
          rewrite <- app_assoc. exact Hnd. }
      assert (Hnd' : List.NoDup (map hid (A ++ y :: S))).
      { change (A ++ y :: x :: S) with (A ++ [y] ++ x :: S) in Hnd.
        rewrite app_assoc, map_app in Hnd. simpl in Hnd.
        apply List.NoDup_remove_1 in Hnd. rewrite <- map_app, <- app_assoc in Hnd.
        exact Hnd. }
      specialize (IH y S n Hnd' ltac:(lia)).
      destruct (find_alive n (A ++ y :: S) (hid y)) as [l' h|l'| |]; try contradiction.
      * destruct IH as (Hlive & K & D & HA & HD & Hl').
        split; [exact Hlive|]. exists K, (D ++ [x]).
        split; [rewrite HA, <- app_assoc; reflexivity|].
        split; [|exact Hl'].
        apply Forall_app; split; [exact HD | repeat constructor; exact Hd].
      * destruct IH as (Hall & Hl'). split; [|exact Hl'].
        apply Forall_app; split; [exact Hall | repeat constructor; exact Hd].
    + split; [exact Hd|]. exists (A ++ [y]), []. repeat split; constructor.
Qed.

End HandlerStack.

Section Advances.

Implicit Types (l A S K D : list Handler) (x y h : Handler).

Lemma NoDup_drop_mid X D Y :
  List.NoDup (map hid (X ++ D ++ Y)) -> List.NoDup (map hid (X ++ Y)).
Proof.
  induction D as [|a D IH]; [auto|].
  intros H. apply IH. rewrite map_app in H |- *. simpl in H.
  apply List.NoDup_remove_1 in H. exact H.
Qed.

Lemma Forall_drop_mid (P : Handler -> Prop) X D Y :
  Forall P (X ++ D ++ Y) -> Forall P (X ++ Y).
Proof.
  rewrite !Forall_app. intros (HX & _ & HY). split; assumption.
Qed.

Lemma advances_skip fuel (m : M unit) ctx p d l it r :
  m ctx = (r, ctx, []) -> r <> Unfinished -> advances fuel m ctx p d l it.
Proof.
  intros Hm Hr Hview Hwf. exists l, it, [].
  rewrite Hm. unfold final, trace, outcome. simpl. rewrite app_nil_r.
  repeat split; auto; apply Hwf.
Qed.

(** Sequencing. *)
Lemma advances_seq fuel (m : M unit) (k : M unit) ctx p d l it :
  it <> End ->
  advances fuel m ctx p d l it ->
  (forall l1 it1, it1 <> End -> advances fuel k (final (m ctx)) p d l1 it1) ->
  advances fuel (m ;; k) ctx p d l it.
Proof.
  intros Hit Hm Hk Hview Hwf.
  destruct (Hm Hview Hwf) as (l1 & it1 & ex1 & Hv1 & Hwf1 & Hit1 & Ht1 & Hs1 & Hf1).
  rewrite bind_eq.
  destruct (m ctx) as [[[[]|e| |] c1] t1] eqn:Em; unfold final, trace, outcome in *;
    simpl in *;
    try (exists l1, it1, ex1; repeat split; auto; apply Hwf1).
  destruct (Hk l1 it1 (Hit1 Hit) Hv1 Hwf1)
    as (l2 & it2 & ex2 & Hv2 & Hwf2 & Hit2 & Ht2 & Hs2 & Hf2).
  unfold final, trace, outcome in *.
  exists l2, it2, (ex1 ++ ex2). repeat split; try apply Hwf2; auto.
  - rewrite Ht1, Ht2, map_app. reflexivity.
  - rewrite rev_app_distr, app_assoc. etransitivity; [|exact Hs1].
    apply sublist_app; [exact Hs2 | reflexivity].
  - intros Hlen. apply Hf2. apply sublist_length in Hs1.
    rewrite length_app in Hs1. lia.
Qed.

Lemma hid_mark tgt x : hid (mark_destroyed tgt x) = hid x.
Proof. unfold mark_destroyed. destruct (hid x =? tgt); reflexivity. Qed.

Lemma before_mark tgt l c :
  before (map (mark_destroyed tgt) l) c = option_map (map (mark_destroyed tgt)) (before l c).
Proof.
  induction l as [|a l IH]; [reflexivity|]. simpl. rewrite hid_mark.
  destruct (hid a =? c); [reflexivity|]. rewrite IH.
  destruct (before l c); reflexivity.
Qed.

Lemma isDestroyed_mark tgt x :
  isDestroyed (mark_destroyed tgt x) = (hid x =? tgt) || isDestroyed x.
Proof. unfold mark_destroyed. destruct (hid x =? tgt); reflexivity. Qed.

Lemma live_ids_mark tgt l :
  sublist (live_ids (map (mark_destroyed tgt) l)) (live_ids l).
Proof.
  induction l as [|a l IH]; [constructor|]. cbn [map live_ids].
  rewrite hid_mark, isDestroyed_mark.
  destruct (hid a =? tgt); cbn [orb].
  - destruct (isDestroyed a); [exact IH | apply sublist_cons; exact IH].
  - destruct (isDestroyed a); [exact IH | apply sublist_skip; exact IH].
Qed.

(** Destroying a handler takes it out of reach, nothing else. *)
Lemma advances_destroy fuel tgt ctx p d l it :
  advances fuel (HandlerRef_destroy tgt) ctx p d l it.
Proof.
  intros Hview Hwf. unfold HandlerRef_destroy, modify, final, trace, outcome. simpl.
  exists (map (mark_destroyed tgt) l), it, [].
  unfold cursor_view in *. simpl.
  destruct (handlerContext ctx) as [hc|]; [|discriminate].
  rewrite lookup_fmap.
  destruct (handlerBlocks ctx !! handlerBlock hc) as [b|]; [|discriminate].
  injection Hview as <- <- <- <-. simpl.
  destruct Hwf as (Hnd & Hall & Hit).
  repeat split; auto.
  - rewrite map_map. erewrite map_ext; [exact Hnd|]. intros a. apply hid_mark.
  - apply Forall_forall. intros x Hx. apply list_elem_of_In, in_map_iff in Hx.
    destruct Hx as (a & <- & Ha). rewrite hid_mark.
    rewrite Forall_forall in Hall. apply Hall, list_elem_of_In. exact Ha.
  - rewrite app_nil_r. destruct (handler hc) as [|c]; simpl.
    + apply live_ids_mark.
    + rewrite before_mark. destruct (before (stackedHandlers b) c); simpl.
      * apply live_ids_mark.
      * constructor.
Qed.

Lemma NoDup_snoc_fresh (ids : list nat) (i : nat) :
  List.NoDup ids -> ~ In i ids -> List.NoDup (ids ++ [i]).
Proof.
  induction ids as [|a ids IH]; simpl; intros Hnd Hn.
  - constructor; [intros [] | constructor].
  - apply List.NoDup_cons_iff in Hnd. destruct Hnd as [Ha Hnd].
    constructor.
    + rewrite in_app_iff. intros [H|[H|[]]]; [contradiction | subst; apply Hn; left; reflexivity].
    + apply IH; [exact Hnd | intros H; apply Hn; right; exact H].
Qed.

Lemma before_snoc_fresh l new c :
  c <> hid new -> before (l ++ [new]) c = before l c.
Proof.
  intros Hne. induction l as [|a l IH]; simpl.
  - destruct (Nat.eqb_spec (hid new) c); [congruence | reflexivity].
  - destruct (hid a =? c); [reflexivity|]. rewrite IH. reflexivity.
Qed.

(** Binding during a dispatch appends behind the cursor: what is in reach
    does not change. *)
Lemma advances_bind fuel q f ctx p d l it :
  it <> End ->
  advances fuel (Event_bind q f ;; ret tt) ctx p d l it.
Proof.
  intros Hend Hview Hwf.
  erewrite bind_pure by reflexivity.
  unfold ret, final, trace, outcome. simpl.
  unfold cursor_view in *. simpl.
  destruct (handlerContext ctx) as [hc|]; [|discriminate].
  destruct (handlerBlocks ctx !! handlerBlock hc) as [b|] eqn:Hb; [|discriminate].
  injection Hview as <- <- <- <-.
  destruct Hwf as (Hnd & Hall & Hit).
  assert (Hit' : match handler hc with End => True | At c => c < S (heapNext ctx) end).
  { destruct (handler hc); [exact I | lia]. }
  assert (Hall' : Forall (fun h => hid h < S (heapNext ctx)) (stackedHandlers b)).
  { eapply Forall_impl; [exact Hall|]. simpl. intros; lia. }
  destruct (Nat.eq_dec q (handlerBlock hc)) as [->|Hne].
  - rewrite Hb, lookup_insert_eq. simpl.
    exists (stackedHandlers b ++ [mkHandler (heapNext ctx) false f]), (handler hc), [].
    split; [reflexivity|]. split; [|split; [auto|split; [reflexivity|split]]].
    + split; [|split; [|exact Hit']].
      * rewrite map_app. simpl. apply NoDup_snoc_fresh; [exact Hnd|].
        intros Hx. apply in_map_iff in Hx. destruct Hx as (a & Ha & Hin).
        rewrite Forall_forall in Hall. apply list_elem_of_In, Hall in Hin. lia.
      * apply Forall_app. split; [exact Hall'|]. repeat constructor.
    + rewrite app_nil_r. destruct (handler hc) as [|c]; [congruence|]. simpl.
      rewrite before_snoc_fresh; [reflexivity|]. simpl. lia.
    + discriminate.
  - rewrite lookup_insert_ne by congruence. rewrite Hb.
    exists (stackedHandlers b), (handler hc), [].
    split; [reflexivity|]. split; [|split; [auto|split; [reflexivity|split]]].
    + split; [exact Hnd|]. split; [exact Hall' | exact Hit'].
    + rewrite app_nil_r. reflexivity.
    + discriminate.
Qed.

End Advances.

Section SuperAdvances.

Implicit Types (l A R K D : list Handler) (x y h : Handler).

Lemma advances_ext fuel (m m' : M unit) ctx p d l it :
  m ctx = m' ctx -> advances fuel m' ctx p d l it -> advances fuel m ctx p d l it.
Proof. unfold advances. intros ->. auto. Qed.

Lemma bind_forget {T} (m : M T) (k : M unit) ctx :
  (m ;; k) ctx = ((m ;; ret tt) ;; k) ctx.
Proof.
  unfold bind, ret. destruct (m ctx) as [[[a|e| |] c1] t1]; try reflexivity.
  rewrite app_nil_r. reflexivity.
Qed.

(** A handler body advances the dispatch if the [super()] calls in it do. *)
Lemma run_body_advances fuel (super_rec : M unit) payload :
  (forall ctx p d l it, it <> End -> advances fuel super_rec ctx p d l it) ->
  forall cs ctx p d l it,
    it <> End -> advances fuel (run_body super_rec payload cs) ctx p d l it.
Proof.
  intros Hrec cs. induction cs as [|c cs IH]; intros ctx p d l it Hit.
  - apply (advances_skip _ _ _ _ _ _ _ (Ok tt)); [reflexivity | discriminate].
  - destruct c as [| |tag|tgt|q f]; cbn [run_body].
    + apply advances_seq; auto.
    + apply (advances_skip _ _ _ _ _ _ _ (Exc (EventFired payload)));
        [reflexivity | discriminate].
    + apply (advances_skip _ _ _ _ _ _ _ (Exc (Failure tag)));
        [reflexivity | discriminate].
    + apply advances_seq; auto. apply advances_destroy.
    + eapply advances_ext; [apply bind_forget|].
      apply advances_seq; auto. apply advances_bind. exact Hit.
Qed.

Lemma cursor_view_store p l it d ctx :
  cursor_view (store_block p l it d ctx) = Some (p, d, l, it).
Proof.
  unfold cursor_view, store_block. simpl. rewrite lookup_insert_eq. reflexivity.
Qed.

(** The part of [super] after the cursor has been decremented onto [x]. *)
Lemma scan_advances fuel execute ctx p d A x R it :
  executes_in_order fuel execute ->
  List.NoDup (map hid (A ++ x :: R)) ->
  Forall (fun h => hid h < heapNext ctx) (A ++ x :: R) ->
  ahead (A ++ x :: R) it = A ++ [x] ->
  let r :=
    match find_alive (length (A ++ x :: R)) (A ++ x :: R) (hid x) with
    | ScanUB => (UB, ctx, [])
    | ScanUnfinished => (Unfinished, ctx, [])
    | Exhausted l' => (Ok tt, store_block p l' (At (hid x)) d ctx, [])
    | Alive l' h => execute h d (store_block p l' (At (hid h)) d ctx)
    end in
  exists l' it' ex,
    cursor_view (final r) = Some (p, d, l', it') /\
    well_formed (heapNext (final r)) l' it' /\
    it' <> End /\
    trace r = map (fun i => AExecute i d) ex /\
    sublist (live_ids (ahead l' it') ++ rev ex) (live_ids (ahead (A ++ x :: R) it)) /\
    (length (live_ids (ahead (A ++ x :: R) it)) <= fuel -> outcome r <> Unfinished).
Proof.
  intros Hexec Hnd Hall Hahead r. subst r.
  pose proof (find_alive_spec A x R (length (A ++ x :: R)) Hnd) as Hspec.
  assert (Hx : hid x < heapNext ctx).
  { rewrite Forall_forall in Hall. apply Hall, list_elem_of_In, in_elt. }
  destruct (find_alive _ _ _) as [l' h|l'| |].
  - destruct Hspec as (Hlive & K & D & HA & HD & ->); [rewrite length_app; simpl; lia|].
    assert (Hl : A ++ x :: R = (K ++ [h]) ++ D ++ R).
    { change (x :: R) with ([x] ++ R). rewrite app_assoc, HA, <- !app_assoc. reflexivity. }
    assert (Hwf : well_formed (heapNext ctx) (K ++ h :: R) (At (hid h))).
    { change (h :: R) with ([h] ++ R). rewrite app_assoc. split; [|split].
      - apply (NoDup_drop_mid _ D). rewrite <- Hl. exact Hnd.
      - apply (Forall_drop_mid _ _ D). rewrite <- Hl. exact Hall.
      - rewrite Forall_forall in Hall. apply Hall, list_elem_of_In.
        rewrite Hl. apply in_or_app. left. apply in_or_app. right. left. reflexivity. }
    destruct (Hexec h d (store_block p (K ++ h :: R) (At (hid h)) d ctx) p K R Hlive
                (cursor_view_store _ _ _ _ _) Hwf)
      as (l' & it' & ex & Hv & Hwf' & Hit' & Ht & Hs & Hf).
    exists l', it', ex. repeat split; try apply Hwf'; auto.
    + rewrite Hahead, HA, live_ids_app. cbn [live_ids]. rewrite Hlive.
      rewrite (live_ids_destroyed D HD). exact Hs.
    + rewrite Hahead, HA, live_ids_app. cbn [live_ids]. rewrite Hlive.
      rewrite (live_ids_destroyed D HD), length_app. simpl. intros Hlen. apply Hf. lia.
  - destruct Hspec as (HD & ->); [rewrite length_app; simpl; lia|].
    exists R, (At (hid x)), []. unfold final, trace, outcome. cbn [fst snd].
    rewrite cursor_view_store.
    assert (Hl : A ++ x :: R = [] ++ (A ++ [x]) ++ R).
    { simpl. rewrite <- app_assoc. reflexivity. }
    repeat split; try discriminate.
    + apply (NoDup_drop_mid [] (A ++ [x])). rewrite <- Hl. exact Hnd.
    + apply (Forall_drop_mid _ [] (A ++ [x])). rewrite <- Hl. exact Hall.
    + exact Hx.
    + unfold ahead at 1. rewrite before_absent; [apply sublist_nil_l|].
      rewrite map_app in Hnd. simpl in Hnd. apply List.NoDup_remove_2 in Hnd.
      intros H. apply Hnd. apply in_or_app. right. exact H.
  - destruct Hspec; rewrite length_app; simpl; lia.
  - destruct Hspec; rewrite length_app; simpl; lia.
Qed.

End SuperAdvances.

Section SuperOrder.

Implicit Types (l A R K D : list Handler) (x y h : Handler).

Lemma snoc_cases l : l = [] \/ exists A x, l = A ++ [x].
Proof.
  induction l as [|y A _] using rev_ind; [left; reflexivity|].
  right. exists A, y. reflexivity.
Qed.

Lemma not_begin_absent l c :
  ~ In c (map hid l) -> iter_eqb (At c) (begin l) = false.
Proof.
  destruct l as [|a l]; simpl; [reflexivity|]. intros Hn.
  apply Nat.eqb_neq. intros E. apply Hn. left. symmetry. exact E.
Qed.

(** [super()] advances the dispatch if executing a handler does. *)
Lemma super_with_advances fuel execute :
  executes_in_order fuel execute ->
  forall ctx p d l it, advances fuel (super_with execute) ctx p d l it.
Proof.
  intros Hexec ctx p d l it Hview Hwf.
  pose proof Hview as Hview'. unfold cursor_view in Hview'.
  destruct (handlerContext ctx) as [hc|] eqn:Hhc; [|discriminate].
  destruct (handlerBlocks ctx !! handlerBlock hc) as [b|] eqn:Hb; [|discriminate].
  injection Hview' as Hp Hd Hl Hit.
  destruct Hwf as (Hnd & Hall & Hcur).
  assert (Hskip : forall r, r <> Unfinished -> super_with execute ctx = (r, ctx, []) ->
    exists l' it' ex,
      cursor_view (final (super_with execute ctx)) = Some (p, d, l', it') /\
      well_formed (heapNext (final (super_with execute ctx))) l' it' /\
      (it <> End -> it' <> End) /\
      trace (super_with execute ctx) = map (fun i => AExecute i d) ex /\
      sublist (live_ids (ahead l' it') ++ rev ex) (live_ids (ahead l it)) /\
      (length (live_ids (ahead l it)) <= fuel -> outcome (super_with execute ctx) <> Unfinished)).
  { intros r Hr Hm. apply (advances_skip fuel _ ctx p d l it r Hm Hr Hview).
    repeat split; assumption. }
  assert (Hscan : forall A x R, l = A ++ x :: R ->
    iter_eqb it (begin l) = false -> decr l it = Some (hid x) -> ahead l it = A ++ [x] ->
    exists l' it' ex,
      cursor_view (final (super_with execute ctx)) = Some (p, d, l', it') /\
      well_formed (heapNext (final (super_with execute ctx))) l' it' /\
      (it <> End -> it' <> End) /\
      trace (super_with execute ctx) = map (fun i => AExecute i d) ex /\
      sublist (live_ids (ahead l' it') ++ rev ex) (live_ids (ahead l it)) /\
      (length (live_ids (ahead l it)) <= fuel -> outcome (super_with execute ctx) <> Unfinished)).
  { intros A x R El Hbeg Hdecr Hahead.
    unfold super_with. rewrite Hhc, Hb. cbn zeta. rewrite Hl, Hit, Hbeg, Hdecr, Hp, Hd.
    clear Hskip Hview Hb Hl. subst l.
    destruct (scan_advances fuel execute ctx p d A x R it Hexec Hnd Hall Hahead)
      as (l' & it' & ex & H1 & H2 & H3 & H4 & H5 & H6).
    exists l', it', ex. repeat split; try apply H2; auto. }
  destruct it as [|c].
  - destruct (snoc_cases l) as [->|(A & x & El)].
    + apply (Hskip (Ok tt)); [discriminate|].
      unfold super_with. rewrite Hhc, Hb, Hl, Hit. reflexivity.
    + apply (Hscan A x []).
      * exact El.
      * rewrite El. apply begin_snoc.
      * rewrite El. unfold decr. rewrite back_snoc. reflexivity.
      * exact El.
  - destruct (in_dec Nat.eq_dec c (map hid l)) as [Hin|Hnin].
    + destruct (before_present l c Hin) as (A & xc & R & El & Hc). subst c.
      destruct (snoc_cases A) as [->|(A' & x & EA)].
      * apply (Hskip (Ok tt)); [discriminate|].
        unfold super_with. rewrite Hhc, Hb, Hl, Hit, El. simpl.
        rewrite Nat.eqb_refl. reflexivity.
      * subst A. rewrite <- app_assoc in El. cbn [app] in El.
        apply (Hscan A' x (xc :: R)).
        -- exact El.
        -- rewrite El. change (A' ++ x :: xc :: R) with (A' ++ [x] ++ xc :: R).
           rewrite app_assoc. rewrite begin_mid.
           ++ destruct A'; reflexivity.
           ++ rewrite <- app_assoc. cbn [app]. rewrite <- El. exact Hnd.
        -- rewrite El. cbn [decr]. apply pred_mid. rewrite <- El. exact Hnd.
        -- rewrite El. cbn [ahead].
           change (A' ++ x :: xc :: R) with (A' ++ [x] ++ xc :: R).
           rewrite app_assoc, before_mid; [reflexivity|].
           rewrite <- app_assoc. cbn [app]. rewrite <- El. exact Hnd.
    + apply (Hskip UB); [discriminate|].
      unfold super_with. rewrite Hhc, Hb, Hl, Hit.
      rewrite (not_begin_absent l c Hnin). cbn [decr].
      rewrite (pred_absent l c Hnin). reflexivity.
Qed.

Lemma ahead_mid K h R :
  List.NoDup (map hid (K ++ h :: R)) -> ahead (K ++ h :: R) (At (hid h)) = K.
Proof. intros Hnd. cbn [ahead]. rewrite before_mid; [reflexivity | exact Hnd]. Qed.

(** [super()] advances the dispatch in progress: the handlers it executes,
    directly and through nested [super()] calls, are live handlers from in
    front of the cursor, newest first. *)
Lemma super_advances fuel : forall ctx p d l it, advances fuel (super fuel) ctx p d l it.
Proof.
  induction fuel as [|fuel IH]; intros ctx p d l it; cbn [super];
    apply super_with_advances; intros h d' c1 p' K R Hlive Hview Hwf.
  - exists (K ++ h :: R), (At (hid h)), []. unfold unfinished, final, trace, outcome.
    cbn [fst snd]. repeat split; try apply Hwf; auto; try discriminate.
    + rewrite app_nil_r, ahead_mid by apply Hwf. apply sublist_inserts_r. reflexivity.
    + lia.
  - assert (Hne : At (hid h) <> End) by discriminate.
    destruct (run_body_advances fuel (super fuel) d'
                (fun c p0 d0 l0 it0 _ => IH c p0 d0 l0 it0)
                (fn h) c1 p' d' (K ++ h :: R) (At (hid h)) Hne Hview Hwf)
      as (l' & it' & ex & Hv & Hwf' & Hit' & Ht & Hs & Hf).
    rewrite bind_eq. unfold tell, final, trace, outcome in *. cbn [fst snd] in *.
    exists l', it', (hid h :: ex). repeat split; try apply Hwf'; auto.
    + cbn [map app]. rewrite Ht. reflexivity.
    + cbn [rev]. rewrite app_assoc. apply sublist_app; [|reflexivity].
      rewrite ahead_mid in Hs by apply Hwf. exact Hs.
    + intros Hlen. apply Hf. rewrite ahead_mid by apply Hwf. lia.
Qed.

End SuperOrder.

Lemma sublist_rev_rev (l1 l2 : list nat) : sublist l1 l2 -> sublist (rev l1) (rev l2).
Proof.
  induction 1 as [|x l1 l2 _ IH|x l1 l2 _ IH]; simpl.
  - constructor.
  - apply sublist_app; [exact IH | reflexivity].
  - apply sublist_inserts_r. exact IH.
Qed.

(** Within one dispatch the handlers are executed newest first, each at most
    once, destroyed ones are skipped, every one is given the event's
    payload, and the dispatch does not run out of fuel.  (A dispatch that
    uses an invalid cursor stops there with [UB]; the statement then covers
    what was executed before.) *)
Lemma handleEvent_executes_newest_first (event : PendingEvent) (ctx : Context)
    (block : HandlerBlock) :
  handlerBlocks ctx !! path event = Some block ->
  List.NoDup (map hid (stackedHandlers block)) ->
  Forall (fun h => hid h < heapNext ctx) (stackedHandlers block) ->
  exists ex,
    trace (handleEvent event ctx) = map (fun i => AExecute i (data event)) ex /\
    sublist ex (rev (live_ids (stackedHandlers block))) /\
    outcome (handleEvent event ctx) <> Unfinished.
Proof.
  intros Hb Hnd Hall. unfold handleEvent. rewrite Hb.
  destruct (prune_back_spec (length (stackedHandlers block)) (stackedHandlers block))
    as (dropped & Heq & Hdrop & _); [lia|].
  set (kept := prune_back (length (stackedHandlers block)) (stackedHandlers block)) in *.
  assert (Hlive : live_ids (stackedHandlers block) = live_ids kept).
  { rewrite Heq, live_ids_app, (live_ids_destroyed dropped Hdrop), app_nil_r. reflexivity. }
  assert (Hwf : well_formed (heapNext ctx) kept End).
  { split; [|split; [|exact I]].
    - rewrite <- (app_nil_r kept). apply (NoDup_drop_mid kept dropped []).
      rewrite app_nil_r, <- Heq. exact Hnd.
    - rewrite <- (app_nil_r kept). apply (Forall_drop_mid _ kept dropped []).
      rewrite app_nil_r, <- Heq. exact Hall. }
  destruct kept as [|k0 kept'] eqn:Ek.
  - exists []. repeat split; [apply sublist_nil_l | discriminate].
  - rewrite <- Ek in *.
    destruct (super_advances (length kept)
                (store_block (path event) kept End (data event) ctx)
                (path event) (data event) kept End (cursor_view_store _ _ _ _ _) Hwf)
      as (l' & it' & ex & _ & _ & _ & Ht & Hs & Hf).
    cbn [ahead] in Hs, Hf. specialize (Hf (live_ids_length kept)).
    exists ex. rewrite bind_eq.
    destruct (super (length kept) (store_block (path event) kept End (data event) ctx))
      as [[[[]|e| |] c1] t1]; unfold trace, outcome in *; cbn [fst snd] in *;
      try (rewrite app_nil_r); (split; [exact Ht|]);
      (split; [|try discriminate; try exact Hf]).
    all: rewrite Hlive, <- (rev_involutive ex); apply sublist_rev_rev;
      etransitivity; [|exact Hs]; apply sublist_inserts_l; reflexivity.
Qed.

(** ** Dispatch and [process] finish *)

Section Sound.

Implicit Types (l : list Handler) (x y h : Handler).

Lemma sound_stack_tail next a l : sound_stack next (a :: l) -> sound_stack next l.
Proof.
  intros [Hnd Hall]. split.
  - simpl in Hnd. apply List.NoDup_cons_iff in Hnd. apply Hnd.
  - inversion Hall; assumption.
Qed.

Lemma erase_ids l c a : In a (map hid (erase l c)) -> In a (map hid l).
Proof.
  induction l as [|b l IH]; simpl; [auto|].
  destruct (hid b =? c); simpl; intros H.
  - right. exact H.
  - destruct H as [H|H]; [left; exact H | right; apply IH; exact H].
Qed.

Lemma sound_stack_erase next l c : sound_stack next l -> sound_stack next (erase l c).
Proof.
  induction l as [|a l IH]; intros Hs; [exact Hs|]. simpl.
  destruct (hid a =? c); [apply (sound_stack_tail _ _ _ Hs)|].
  pose proof (IH (sound_stack_tail _ _ _ Hs)) as [Hnd Hall].
  destruct Hs as [Hnd0 Hall0]. simpl in Hnd0. apply List.NoDup_cons_iff in Hnd0.
  split.
  - simpl. constructor; [|exact Hnd]. intros H. apply (proj1 Hnd0).
    apply (erase_ids _ _ _ H).
  - constructor; [inversion Hall0; assumption | exact Hall].
Qed.

Lemma sound_stack_find_alive next n : forall l it,
  sound_stack next l ->
  match find_alive n l it with
  | Alive l' _ | Exhausted l' => sound_stack next l'
  | ScanUB | ScanUnfinished => True
  end.
Proof.
  assert (Hpop : forall l, sound_stack next l -> sound_stack next (pop_front l)).
  { intros [|a l] Hs; [exact Hs | apply (sound_stack_tail _ _ _ Hs)]. }
  induction n as [|n IH]; intros l it Hs; cbn [find_alive];
    (destruct (deref l it) as [h|]; [|exact I]);
    (destruct (isDestroyed h); [|exact Hs]);
    (destruct (iter_eqb (At it) (begin l)); [apply Hpop; exact Hs|]).
  - exact I.
  - destruct (pred_of l it) as [it'|]; [|exact I].
    apply IH. apply sound_stack_erase. exact Hs.
Qed.

Lemma sound_stack_prefix next l1 l2 : sound_stack next (l1 ++ l2) -> sound_stack next l1.
Proof.
  intros [Hnd Hall]. split.
  - rewrite map_app in Hnd. apply List.NoDup_app_remove_r in Hnd. exact Hnd.
  - apply Forall_app in Hall. apply Hall.
Qed.

Lemma sound_stack_mono next next' l :
  next <= next' -> sound_stack next l -> sound_stack next' l.
Proof.
  intros Hle [Hnd Hall]. split; [exact Hnd|].
  eapply Forall_impl; [exact Hall|]. simpl. intros; lia.
Qed.

Lemma sound_blocks_store p l it d ctx :
  sound_blocks ctx -> sound_stack (heapNext ctx) l ->
  sound_blocks (store_block p l it d ctx).
Proof.
  intros Hs Hl q b. unfold store_block. simpl.
  rewrite lookup_insert_Some. intros [[_ <-]|[_ Hq]]; [exact Hl | exact (Hs q b Hq)].
Qed.

Lemma sound_blocks_destroy tgt ctx :
  sound_blocks ctx -> sound_blocks (final (HandlerRef_destroy tgt ctx)).
Proof.
  intros Hs q b. unfold HandlerRef_destroy, modify, final. simpl.
  rewrite lookup_fmap_Some. intros (b0 & <- & Hq). simpl.
  destruct (Hs q b0 Hq) as [Hnd Hall]. split.
  - rewrite map_map. erewrite map_ext; [exact Hnd|]. intros a. apply hid_mark.
  - apply Forall_forall. intros x Hx. apply list_elem_of_In, in_map_iff in Hx.
    destruct Hx as (a & <- & Ha). rewrite hid_mark.
    rewrite Forall_forall in Hall. apply Hall, list_elem_of_In. exact Ha.
Qed.

Lemma sound_blocks_bind q f ctx :
  sound_blocks ctx -> sound_blocks (final (Event_bind q f ctx)).
Proof.
  intros Hs p b. unfold Event_bind, Context_bind, final. simpl.
  rewrite lookup_insert_Some. intros [[_ <-]|[_ Hp]].
  - simpl.
    assert (Hold : sound_stack (heapNext ctx)
              (stackedHandlers match handlerBlocks ctx !! q with
                               | Some b => b
                               | None => mkHandlerBlock []
                               end)).
    { destruct (handlerBlocks ctx !! q) as [b0|] eqn:Hq; [exact (Hs q b0 Hq)|].
      split; constructor. }
    destruct Hold as [Hnd Hall]. split.
    + rewrite map_app. simpl. apply NoDup_snoc_fresh; [exact Hnd|].
      intros Hx. apply in_map_iff in Hx. destruct Hx as (a & Ha & Hin).
      rewrite Forall_forall in Hall. apply list_elem_of_In, Hall in Hin. lia.
    + apply Forall_app. split.
      * eapply Forall_impl; [exact Hall|]. simpl. intros; lia.
      * repeat constructor.
  - apply (sound_stack_mono (heapNext ctx)); [lia | exact (Hs p b Hp)].
Qed.

Lemma run_body_sound (super_rec : M unit) payload :
  (forall ctx, sound_blocks ctx -> sound_blocks (final (super_rec ctx))) ->
  forall cs ctx, sound_blocks ctx -> sound_blocks (final (run_body super_rec payload cs ctx)).
Proof.
  intros Hrec cs. induction cs as [|c cs IH]; intros ctx Hs; [exact Hs|].
  destruct c as [| |tag|tgt|q f]; cbn [run_body]; try exact Hs.
  - rewrite bind_eq. specialize (Hrec ctx Hs).
    destruct (super_rec ctx) as [[[[]|e| |] c1] t1]; unfold final in *; cbn [fst snd] in *;
      auto.
  - erewrite bind_pure by reflexivity. apply IH. apply (sound_blocks_destroy tgt ctx Hs).
  - erewrite bind_pure by reflexivity. apply IH. apply (sound_blocks_bind q f ctx Hs).
Qed.

Lemma super_sound fuel : forall ctx,
  sound_blocks ctx -> sound_blocks (final (super fuel ctx)).
Proof.
  induction fuel as [|fuel IH]; intros ctx Hs; cbn [super]; unfold super_with;
    destruct (handlerContext ctx) as [hc|]; try exact Hs;
    destruct (handlerBlocks ctx !! handlerBlock hc) as [b|] eqn:Hb; try exact Hs;
    cbn zeta;
    destruct (iter_eqb (handler hc) (begin (stackedHandlers b))); try exact Hs;
    destruct (decr (stackedHandlers b) (handler hc)) as [it0|]; try exact Hs;
    pose proof (sound_stack_find_alive (heapNext ctx) (length (stackedHandlers b))
                  (stackedHandlers b) it0 (Hs _ _ Hb)) as Hfa;
    destruct (find_alive _ _ _) as [l' h|l'| |]; try exact Hs;
    try (apply sound_blocks_store; assumption).
  rewrite bind_eq. unfold tell, final. cbn [fst snd].
  apply (run_body_sound (super fuel) (hdata hc) IH).
  apply sound_blocks_store; assumption.
Qed.

Lemma handleEvent_sound event ctx :
  sound_blocks ctx -> sound_blocks (final (handleEvent event ctx)).
Proof.
  intros Hs. unfold handleEvent.
  destruct (handlerBlocks ctx !! path event) as [block|] eqn:Hb; [|exact Hs].
  destruct (prune_back_spec (length (stackedHandlers block)) (stackedHandlers block))
    as (dropped & Heq & _); [lia|].
  assert (Hkept : sound_stack (heapNext ctx)
            (prune_back (length (stackedHandlers block)) (stackedHandlers block))).
  { apply (sound_stack_prefix _ _ dropped). rewrite <- Heq. exact (Hs _ _ Hb). }
  destruct (prune_back _ _) as [|k0 kept].
  - intros q b. unfold final. simpl. rewrite lookup_delete_Some.
    intros [_ Hq]. exact (Hs q b Hq).
  - rewrite bind_eq.
    pose proof (super_sound (length (k0 :: kept))
                  (store_block (path event) (k0 :: kept) End (data event) ctx)
                  (sound_blocks_store _ _ _ _ _ Hs Hkept)) as Hsup.
    destruct (super _ _) as [[[[]|e| |] c1] t1]; unfold final in *; cbn [fst snd] in *;
      auto.
Qed.

Lemma dispatch_sound event ctx :
  sound_blocks ctx -> sound_blocks (final (dispatch event ctx)).
Proof.
  intros Hs. rewrite dispatch_eq. pose proof (handleEvent_sound event ctx Hs) as H.
  destruct (handleEvent event ctx) as [[[[]|e| |] c] t]; exact H.
Qed.

Lemma dispatch_finishes event ctx :
  sound_blocks ctx -> outcome (dispatch event ctx) <> Unfinished.
Proof.
  intros Hs. rewrite dispatch_eq.
  destruct (handlerBlocks ctx !! path event) as [block|] eqn:Hb.
  - destruct (handleEvent_executes_newest_first event ctx block Hb)
      as (ex & _ & _ & Hf); try apply (Hs _ _ Hb).
    destruct (handleEvent event ctx) as [[[[]|e| |] c] t]; try discriminate.
    exact Hf.
  - unfold handleEvent. rewrite Hb. discriminate.
Qed.

(** On sound handler blocks [process] never runs out of fuel: it returns,
    throws, or meets undefined behaviour. *)
Lemma process_loop_finishes n : forall ctx,
  sound_blocks ctx ->
  length (mailbox (controlBlock ctx)) <= n ->
  outcome (process_loop n ctx) <> Unfinished.
Proof.
  induction n as [|n IH]; intros ctx Hs Hlen; simpl; rewrite bind_eq; unfold dequeue;
    destruct (mailbox (controlBlock ctx)) as [|event rest] eqn:Hmb; simpl in *;
    try discriminate; try lia.
  rewrite bind_eq.
  assert (Hs' : sound_blocks (set_mailbox rest ctx)) by exact Hs.
  pose proof (dispatch_sound event _ Hs') as Hsd.
  pose proof (dispatch_finishes event _ Hs') as Hfd.
  pose proof (dispatch_controlBlock event (set_mailbox rest ctx)) as Hcb.
  destruct (dispatch event (set_mailbox rest ctx)) as [[[[]|e| |] c] t];
    unfold final, outcome in *; cbn [fst snd] in *; try discriminate; try contradiction.
  apply IH; [exact Hsd|]. rewrite Hcb. simpl. lia.
Qed.

Lemma process_finishes ctx :
  sound_blocks ctx -> outcome (process ctx) <> Unfinished.
Proof. intros Hs. apply process_loop_finishes; [exact Hs | reflexivity]. Qed.

(** So on sound handler blocks the payloads are freed one for one unless the
    drain meets undefined behaviour. *)
Lemma process_frees_unless_undefined ctx :
  sound_blocks ctx ->
  outcome (process ctx) <> UB ->
  freed (trace (process ctx)) = map owed (dequeued (trace (process ctx))).
Proof.
  intros Hs Hub. apply process_loop_frees.
  pose proof (process_finishes ctx Hs) as Hf. unfold process in *.
  destruct (outcome (process_loop (length (mailbox (controlBlock ctx))) ctx));
    simpl; auto.
Qed.

End Sound.

(** ** The cursor of [super] *)

(** With the cursor at the front of the stack, [super()] does nothing. *)
Lemma super_at_front_is_noop fuel ctx hc blk :
  handlerContext ctx = Some hc ->
  handlerBlocks ctx !! handlerBlock hc = Some blk ->
  handler hc = begin (stackedHandlers blk) ->
  super fuel ctx = (Ok tt, ctx, []).
Proof.
  intros Hhc Hblk Hfront.
  destruct fuel; simpl; unfold super_with; rewrite Hhc, Hblk, Hfront;
    (destruct (stackedHandlers blk) as [|h l]; simpl; [|rewrite Nat.eqb_refl]; reflexivity).
Qed.

(** When all handlers in front of the cursor are alive the stack is walked
    newest first, each handler once, and a further [super()] is a no-op. *)
Lemma super_walks_live_stack :
  handleEvent sample_event live_front_context =
    (Ok tt, live_front_context, [AExecute 2 42; AExecute 1 42]).
Proof. vm_compute. reflexivity. Qed.

(** C3 (code defect).  [super()] is meant to walk the handlers of a dispatch
    newest first, skipping and pruning destroyed ones, and to do nothing once
    the cursor has reached the front.  When the handlers in front of the
    cursor are all destroyed, the pruning loop pops the front node and
    returns, leaving the cursor on the erased node: here the newest handler
    (2) runs, its first [super()] prunes the destroyed handler (1), and its
    second [super()], instead of being a no-op, decrements the invalid
    cursor. *)
Theorem super_after_pruned_front_is_undefined :
  outcome (handleEvent sample_event stale_front_context) = UB /\
  trace (handleEvent sample_event stale_front_context) = [AExecute 2 42] /\
  handlerContext (final (handleEvent sample_event stale_front_context)) =
    Some (mkHandlerContext 7 (At 1) 42) /\
  bound_to 7 (final (handleEvent sample_event stale_front_context)) =
    [mkHandler 2 false [CSuper; CSuper]].
Proof. vm_compute. repeat split; reflexivity. Qed.

(** ** System lifecycle *)

Lemma uint64_le z : (0 <= z)%Z -> (0 <= uint64 z <= z)%Z.
Proof.
  intros Hz. unfold uint64. split.
  - apply Z.mod_pos_bound. lia.
  - apply Z.mod_le; lia.
Qed.

Lemma uint32_le z : (0 <= z)%Z -> (0 <= uint32 z <= z)%Z.
Proof.
  intros Hz. unfold uint32. split.
  - apply Z.mod_pos_bound. lia.
  - apply Z.mod_le; lia.
Qed.

(** The index [run] draws is a valid executor index. *)
Lemma chooseExecutor_in_range (n : nat) (draw : Z) :
  n <> 0 ->
  (0 <= uniform_int_distribution 0 (uint32 (uint64 (Z.of_nat n - 1))) draw < Z.of_nat n)%Z.
Proof.
  intros Hn. unfold uniform_int_distribution. rewrite Z.sub_0_r, Z.add_0_l.
  assert (H1 : (0 <= Z.of_nat n - 1)%Z) by lia.
  pose proof (uint64_le _ H1) as H2.
  pose proof (uint32_le _ (proj1 H2)) as H3.
  pose proof (uint32_le _ (proj1 H3)) as H4.
  pose proof (Z.mod_pos_bound draw (uint32 (uint32 (uint64 (Z.of_nat n - 1))) + 1)) as H5.
  lia.
Qed.

Lemma chooseExecutor_small (n : nat) (draw : Z) :
  n <> 0 -> (Z.of_nat n <= 2 ^ 32)%Z ->
  uniform_int_distribution 0 (uint32 (uint64 (Z.of_nat n - 1))) draw =
  (draw mod Z.of_nat n)%Z.
Proof.
  intros Hn Hle. unfold uniform_int_distribution, uint32, uint64.
  rewrite Z.sub_0_r, Z.add_0_l.
  rewrite (Z.mod_small (Z.of_nat n - 1) (2 ^ 64)) by lia.
  rewrite !(Z.mod_small (Z.of_nat n - 1) (2 ^ 32)) by lia.
  f_equal. lia.
Qed.

Lemma hand_to_in_range (i : Z) (block : nat) (ex : list (list nat)) :
  (0 <= i < Z.of_nat (length ex))%Z ->
  exists q, ex !! Z.to_nat i = Some q /\
            hand_to i block ex = Some (<[Z.to_nat i := q ++ [block]]> ex).
Proof.
  intros Hi. unfold hand_to.
  destruct (ex !! Z.to_nat i) as [q|] eqn:E.
  - exists q. split; reflexivity.
  - apply lookup_ge_None in E. lia.
Qed.

Lemma run_shutting_down fiber draw s :
  shuttingDown s = true -> System_run fiber draw s = Some (DeadLetterFiberRef, s).
Proof. intros H. unfold System_run. rewrite H. reflexivity. Qed.

(** Nothing un-sets the flag, and while it is set no control block is
    allocated and every reference handed out is a dead letter. *)
Lemma calls_after_shutdown cs : forall s refs s',
  shuttingDown s = true ->
  system_calls cs s = Some (refs, s') ->
  Forall (fun r => r = DeadLetterFiberRef) refs /\
  heap s' = heap s /\ shuttingDown s' = true.
Proof.
  induction cs as [|c cs IH]; intros s refs s' Hs; simpl.
  - intros [= <- <-]. repeat split; [constructor | exact Hs].
  - destruct c; simpl.
    + rewrite (run_shutting_down _ _ _ Hs).
      destruct (system_calls cs s) as [[rs s2]|] eqn:E; [|discriminate].
      intros [= <- <-]. destruct (IH _ _ _ Hs E) as (Hall & Hheap & Hflag).
      repeat split; auto.
    + destruct (system_calls cs (System_shutdown s)) as [[rs s2]|] eqn:E; [|discriminate].
      intros [= <- <-]. exact (IH (System_shutdown s) _ _ eq_refl E).
    + destruct (System_schedule block s) as [s1|] eqn:Es; [|discriminate].
      destruct (system_calls cs s1) as [[rs s2]|] eqn:E; [|discriminate].
      intros [= <- <-].
      assert (Hs1 : shuttingDown s1 = true /\ heap s1 = heap s).
      { unfold System_schedule in Es. destruct (executors s); [discriminate|].
        destruct (hand_to _ _ _); [|discriminate]. injection Es as <-. auto. }
      destruct Hs1 as (Hf1 & Hh1).
      destruct (IH _ _ _ Hf1 E) as (Hall & Hheap & Hflag).
      repeat split; auto. congruence.
    + destruct (system_calls cs (System_fiberStarted s)) as [[rs s2]|] eqn:E; [|discriminate].
      intros [= <- <-]. exact (IH (System_fiberStarted s) _ _ Hs E).
    + destruct (system_calls cs (System_fiberFinished s)) as [[rs s2]|] eqn:E; [|discriminate].
      intros [= <- <-].
      assert (Hf : shuttingDown (System_fiberFinished s) = true /\
                   heap (System_fiberFinished s) = heap s).
      { unfold System_fiberFinished. destruct (running s =? 1)%Z; auto. }
      destruct Hf as (Hf1 & Hh1).
      destruct (IH _ _ _ Hf1 E) as (Hall & Hheap & Hflag).
      repeat split; auto. congruence.
Qed.

(** C6.  [shutdown()] sets the flag; from then on, whatever is called on the
    system, [run] returns a dead-letter reference and no control block is
    allocated.  On a system that is not shutting down (and has an executor),
    [run] constructs the fiber, allocates a control block holding it, hands
    the block to an executor and returns a local reference to the block's
    mailbox. *)
Theorem run_after_shutdown_is_dead_letter :
  (forall s, shuttingDown (System_shutdown s) = true) /\
  (forall s fiber draw, shuttingDown s = true ->
     System_run fiber draw s = Some (DeadLetterFiberRef, s)) /\
  (forall s cs refs s', system_calls cs (System_shutdown s) = Some (refs, s') ->
     Forall (fun r => r = DeadLetterFiberRef) refs /\ heap s' = heap s) /\
  (forall s fiber draw, shuttingDown s = false -> executors s <> [] ->
     exists s', System_run fiber draw s = Some (LocalFiberRef (length (heap s)), s') /\
                heap s' = heap s ++ [mkBlock (length (heap s)) fiber false] /\
                shuttingDown s' = false).
Proof.
  split; [|split; [|split]].
  - reflexivity.
  - intros s fiber draw. apply run_shutting_down.
  - intros s cs refs s' H.
    destruct (calls_after_shutdown cs (System_shutdown s) refs s' eq_refl H) as (Ha & Hh & _).
    split; [exact Ha | exact Hh].
  - intros s fiber draw Hs Hex. unfold System_run. rewrite Hs. cbn [negb].
    destruct (hand_to_in_range
                (uniform_int_distribution 0
                   (uint32 (uint64 (Z.of_nat (length (executors s)) - 1))) draw)
                (length (heap s)) (executors s)) as (q & _ & Hq).
    { apply chooseExecutor_in_range. destruct (executors s); [congruence | discriminate]. }
    rewrite Hq. eexists. split; [reflexivity|]. split; reflexivity.
Qed.

Lemma run_after_shutdown_is_dead_letter_witness :
  System_run 3 0 (System_shutdown two_executors) =
    Some (DeadLetterFiberRef, System_shutdown two_executors) /\
  exists s', System_run 3 0 two_executors = Some (LocalFiberRef 0, s') /\
             heap s' = [mkBlock 0 3 false] /\ shuttingDown s' = false.
Proof.
  destruct run_after_shutdown_is_dead_letter as (_ & H2 & _ & H4).
  split.
  - apply H2. reflexivity.
  - apply (H4 two_executors 3 0%Z); [reflexivity | discriminate].
Defined.

(** The outcomes of a draw from [a..b] are the values of the range, all of
    them and no other. *)
Lemma uniform_int_distribution_outcomes (a b r : Z) :
  (0 <= b - a < 2 ^ 32)%Z ->
  (exists draw, uniform_int_distribution a b draw = r) <-> (a <= r <= b)%Z.
Proof.
  intros Hr. unfold uniform_int_distribution, uint32.
  rewrite (Z.mod_small (b - a)) by exact Hr. split.
  - intros [draw <-]. pose proof (Z.mod_pos_bound draw (b - a + 1)). lia.
  - intros Hab. exists (r - a)%Z. rewrite Z.mod_small by lia. lia.
Qed.

(** [run] puts the block into the executor that is drawn, and does not look
    at the round-robin counter. *)
Lemma run_hands_to_drawn_executor (s : System) (fiber : nat) (draw : Z) :
  shuttingDown s = false ->
  executors s <> [] ->
  exists s',
    System_run fiber draw s = Some (LocalFiberRef (length (heap s)), s') /\
    hand_to (uniform_int_distribution 0
               (uint32 (uint64 (Z.of_nat (length (executors s)) - 1))) draw)
            (length (heap s)) (executors s) = Some (executors s') /\
    roundRobinCounter s' = roundRobinCounter s /\
    forall c,
      System_run fiber draw (set_roundRobinCounter c s) =
        Some (LocalFiberRef (length (heap s)), set_roundRobinCounter c s').
Proof.
  intros Hs Hex.
  assert (Hn : length (executors s) <> 0) by (destruct (executors s); [congruence | discriminate]).
  destruct (hand_to_in_range _ (length (heap s)) (executors s)
              (chooseExecutor_in_range _ draw Hn)) as (q & _ & Hq).
  unfold System_run. cbn [shuttingDown executors heap set_roundRobinCounter].
  rewrite Hs. cbn [negb]. rewrite Hq.
  eexists. split; [reflexivity|]. split; [reflexivity|]. split; [reflexivity|].
  intros c. reflexivity.
Qed.

(** C8 (as amended).  On a system that is not shutting down, [run] hands the
    new control block to the executor whose index is the value that
    [chooseExecutor(System::random)] returns, a value of
    [0 .. executors.size() - 1] (any of them, with up to [2^32] executors);
    the round-robin counter is neither read nor changed: whatever the
    counter holds, the same draw puts the block into the same executor.  It
    is [System::schedule] that takes the executor at the round-robin counter
    modulo the number of executors, and advances the counter. *)
Theorem run_picks_executor_at_random (s : System) (fiber : nat) (draw : Z) :
  shuttingDown s = false ->
  executors s <> [] ->
  let n := Z.of_nat (length (executors s)) in
  let i := uniform_int_distribution 0 (uint32 (uint64 (n - 1))) draw in
  (0 <= i < n)%Z /\
  (exists s',
     System_run fiber draw s = Some (LocalFiberRef (length (heap s)), s') /\
     hand_to i (length (heap s)) (executors s) = Some (executors s') /\
     roundRobinCounter s' = roundRobinCounter s /\
     forall c,
       System_run fiber draw (set_roundRobinCounter c s) =
         Some (LocalFiberRef (length (heap s)), set_roundRobinCounter c s')) /\
  ((n <= 2 ^ 32)%Z ->
   forall j, (0 <= j < n)%Z ->
     exists d s',
       System_run fiber d s = Some (LocalFiberRef (length (heap s)), s') /\
       hand_to j (length (heap s)) (executors s) = Some (executors s')) /\
  (forall block, exists s',
     System_schedule block s = Some s' /\
     hand_to (roundRobinCounter s mod n) block (executors s) = Some (executors s') /\
     roundRobinCounter s' = uint64 (roundRobinCounter s + 1)).
Proof.
  intros Hs Hex n i.
  assert (Hn : length (executors s) <> 0) by (destruct (executors s); [congruence | discriminate]).
  pose proof (chooseExecutor_in_range _ draw Hn) as Hi. fold n i in Hi.
  split; [exact Hi|]. split; [|split].
  - exact (run_hands_to_drawn_executor s fiber draw Hs Hex).
  - intros Hle j Hj.
    destruct (run_hands_to_drawn_executor s fiber j Hs Hex) as (s' & Hrun & Hto & _).
    unfold n in *. rewrite (chooseExecutor_small _ j Hn Hle), Z.mod_small in Hto by exact Hj.
    exists j, s'. split; [exact Hrun | exact Hto].
  - intros block. clear Hi. subst i n. unfold System_schedule.
    destruct (executors s) as [|e0 ex] eqn:E; [congruence|]. rewrite <- E in *.
    destruct (hand_to_in_range (roundRobinCounter s mod Z.of_nat (length (executors s)))
                block (executors s)) as (q & _ & Hq).
    { apply Z.mod_pos_bound. lia. }
    rewrite Hq. eexists. split; [reflexivity|]. split; reflexivity.
Qed.

Lemma run_picks_executor_at_random_witness :
  exists s',
    System_run 3 0 two_executors = Some (LocalFiberRef 0, s') /\
    executors s' = [[0]; []] /\
    roundRobinCounter s' = 1%Z /\
    System_run 3 0 (set_roundRobinCounter 0 two_executors) =
      Some (LocalFiberRef 0, set_roundRobinCounter 0 s').
Proof.
  destruct (run_picks_executor_at_random two_executors 3 0%Z)
    as (_ & (s' & Hrun & Hto & Hrr & Hany) & _).
  - reflexivity.
  - discriminate.
  - exists s'. split; [exact Hrun|]. split; [|split; [exact Hrr | exact (Hany 0%Z)]].
    remember (executors s') as e eqn:He. vm_compute in Hto. congruence.
Defined.

(** C8 as stated fails: no draw makes [run] follow the round-robin counter.
    Two systems with two executors that differ only in the counter (0 and 1)
    get the block into the same executor, the one that was drawn, while the
    counter modulo 2 names executor 0 in one and executor 1 in the other. *)
Lemma run_does_not_use_round_robin_counter :
  ~ exists draw,
      forall s fiber r s',
        shuttingDown s = false ->
        System_run fiber draw s = Some (r, s') ->
        hand_to (roundRobinCounter s mod Z.of_nat (length (executors s)))
                (length (heap s)) (executors s) = Some (executors s').
Proof.
  intros [draw H].
  destruct (run_hands_to_drawn_executor two_executors 3 draw eq_refl)
    as (s' & Hrun & _ & _ & Hany); [discriminate|].
  pose proof (H two_executors 3 _ _ eq_refl Hrun) as H1.
  pose proof (H (set_roundRobinCounter 0 two_executors) 3 _ _ eq_refl (Hany 0%Z)) as H0.
  cbn [executors set_roundRobinCounter] in H0.
  remember (executors s') as e eqn:He.
  vm_compute in H1, H0. congruence.
Qed.

(** The running counter is a 64-bit unsigned value throughout. *)
Lemma running_in_range cs : forall s refs s',
  (0 <= running s < 2 ^ 64)%Z ->
  system_calls cs s = Some (refs, s') ->
  (0 <= running s' < 2 ^ 64)%Z.
Proof.
  assert (Hu : forall z, (0 <= uint64 z < 2 ^ 64)%Z).
  { intros z. unfold uint64. apply Z.mod_pos_bound. lia. }
  induction cs as [|c cs IH]; intros s refs s' Hr; simpl.
  - intros [= <- <-]. exact Hr.
  - destruct (system_call c s) as [[r s1]|] eqn:Ec; [|discriminate].
    destruct (system_calls cs s1) as [[rs s2]|] eqn:E; [|discriminate].
    intros [= <- <-]. apply (IH s1 rs s2); [|exact E].
    destruct c; simpl in Ec.
    + unfold System_run in Ec. destruct (negb (shuttingDown s)).
      * destruct (hand_to _ _ _); [|discriminate]. injection Ec as <- <-. exact Hr.
      * injection Ec as <- <-. exact Hr.
    + injection Ec as <- <-. exact Hr.
    + unfold System_schedule in Ec. destruct (executors s); [discriminate|].
      destruct (hand_to _ _ _); [|discriminate]. injection Ec as <- <-. exact Hr.
    + injection Ec as <- <-. apply Hu.
    + injection Ec as <- <-. unfold System_fiberFinished.
      destruct (running s =? 1)%Z; apply Hu.
Qed.

Lemma fired_emit s :
  fired (mainFiber_emit (allFibersFinished_ s) s) = S (fired s).
Proof.
  unfold fired, mainFiber_emit. cbn [mainMailbox allFibersFinished_].
  rewrite List.filter_app, length_app. simpl. rewrite Nat.eqb_refl. simpl. lia.
Qed.

(** C5 (as amended).  [fiberFinished] decrements the running counter and
    emits [allFibersFinished] on the main fiber exactly when the counter was
    1, that is, on each drop from 1 to 0: then the counter is 0 afterwards
    and the main fiber has one more such event.  A decrement from any other
    value emits nothing and leaves the counter non-zero. *)
Theorem allFibersFinished_fires_on_each_drop_to_zero (s : System) :
  (0 <= running s < 2 ^ 64)%Z ->
  (running s = 1%Z ->
     System_fiberFinished s = mainFiber_emit (allFibersFinished_ s) (set_running 0 s) /\
     running (System_fiberFinished s) = 0%Z /\
     fired (System_fiberFinished s) = S (fired s)) /\
  (running s <> 1%Z ->
     System_fiberFinished s = set_running (uint64 (running s - 1)) s /\
     running (System_fiberFinished s) <> 0%Z /\
     fired (System_fiberFinished s) = fired s).
Proof.
  intros Hrange. split.
  - intros H1. unfold System_fiberFinished. rewrite H1. cbn [Z.eqb Pos.eqb].
    change (uint64 (1 - 1)) with 0%Z. split; [reflexivity|]. split; [reflexivity|].
    apply (fired_emit (set_running 0 s)).
  - intros Hne. unfold System_fiberFinished.
    destruct (running s =? 1)%Z eqn:E; [apply Z.eqb_eq in E; contradiction|].
    split; [reflexivity|]. split; [|reflexivity].
    cbn [running set_running]. unfold uint64.
    destruct (Z.eq_dec (running s) 0%Z) as [H0|H0].
    + rewrite H0. vm_compute. discriminate.
    + rewrite Z.mod_small by lia. lia.
Qed.

Lemma allFibersFinished_fires_on_each_drop_to_zero_witness :
  fired (System_fiberFinished (System_fiberStarted (System_new 2 5))) = 1 /\
  fired (System_fiberFinished (System_new 2 5)) = 0.
Proof.
  split.
  - destruct (allFibersFinished_fires_on_each_drop_to_zero
                (System_fiberStarted (System_new 2 5))) as ((_ & _ & H) & _).
    + change (0 <= 1 < 2 ^ 64)%Z. lia.
    + reflexivity.
    + rewrite H. reflexivity.
  - destruct (allFibersFinished_fires_on_each_drop_to_zero (System_new 2 5)) as (_ & H).
    + change (0 <= 0 < 2 ^ 64)%Z. lia.
    + destruct H as (_ & _ & H); [discriminate|]. rewrite H. reflexivity.
Defined.

(** C5 as stated fails: in a lifetime where a fiber finishes before the next
    one is started, the counter drops to zero twice and the event is emitted
    twice. *)
Lemma allFibersFinished_fires_twice :
  exists refs s',
    system_calls [CallFiberStarted; CallFiberFinished; CallFiberStarted; CallFiberFinished]
                 (System_new 2 5) = Some (refs, s') /\
    fired s' = 2.
Proof. eexists _, _. split; reflexivity. Qed.

(** * Further properties of the dispatch engine *)

Lemma live_ids_sublist (l : list Handler) : sublist (live_ids l) (map hid l).
Proof.
  induction l as [|h l IH]; simpl; [constructor|].
  destruct (isDestroyed h); [apply sublist_cons | apply sublist_skip]; exact IH.
Qed.

Lemma live_ids_NoDup (l : list Handler) :
  List.NoDup (map hid l) -> List.NoDup (live_ids l).
Proof.
  intros H. apply NoDup_ListNoDup. apply NoDup_ListNoDup in H.
  eapply sublist_NoDup; [exact H | apply live_ids_sublist].
Qed.

Lemma live_ids_In (l : list Handler) (i : nat) :
  In i (live_ids l) -> exists x, In x l /\ hid x = i /\ isDestroyed x = false.
Proof.
  induction l as [|h l IH]; simpl; [tauto|].
  destruct (isDestroyed h) eqn:Hd.
  - intros Hi. destruct (IH Hi) as (x & Hx & He & Hl). exists x. auto.
  - intros [Hi|Hi].
    + exists h. auto.
    + destruct (IH Hi) as (x & Hx & He & Hl). exists x. auto.
Qed.

(** X1.  One dispatch by [handleEvent] on a block of distinct handler
    objects executes handlers of that block only: each had not been
    destroyed when the dispatch began, each is executed at most once and with
    the payload of the event, and they are executed newest binding first.
    The nesting of handler executions never exceeds the bound the model
    gives it. *)
Theorem dispatch_runs_live_handlers_newest_first
    (event : PendingEvent) (ctx : Context) (block : HandlerBlock) :
  handlerBlocks ctx !! path event = Some block ->
  List.NoDup (map hid (stackedHandlers block)) ->
  Forall (fun h => hid h < heapNext ctx) (stackedHandlers block) ->
  exists ex,
    trace (handleEvent event ctx) = map (fun i => AExecute i (data event)) ex /\
    sublist ex (rev (live_ids (stackedHandlers block))) /\
    List.NoDup ex /\
    (forall i, In i ex ->
       exists x, In x (stackedHandlers block) /\ hid x = i /\ isDestroyed x = false) /\
    outcome (handleEvent event ctx) <> Unfinished.
Proof.
  intros Hb Hn Hf.
  destruct (handleEvent_executes_newest_first event ctx block Hb Hn Hf) as (ex & Ht & Hs & Hu).
  exists ex. split; [exact Ht|]. split; [exact Hs|].
  assert (Hnd : List.NoDup (rev (live_ids (stackedHandlers block)))).
  { apply List.NoDup_rev. apply live_ids_NoDup. exact Hn. }
  split.
  - apply NoDup_ListNoDup. eapply sublist_NoDup; [|exact Hs]. apply NoDup_ListNoDup. exact Hnd.
  - split; [|exact Hu].
    intros i Hi. apply live_ids_In. apply List.in_rev.
    apply list_elem_of_In. eapply sublist_subseteq; [exact Hs|].
    apply list_elem_of_In. exact Hi.
Qed.

Lemma dispatch_runs_live_handlers_newest_first_witness :
  exists ex,
    trace (handleEvent sample_event stale_front_context) =
      map (fun i => AExecute i (data sample_event)) ex /\
    sublist ex (rev (live_ids [mkHandler 1 true []; mkHandler 2 false [CSuper; CSuper]])) /\
    List.NoDup ex /\
    (forall i, In i ex ->
       exists x, In x [mkHandler 1 true []; mkHandler 2 false [CSuper; CSuper]] /\
                 hid x = i /\ isDestroyed x = false) /\
    outcome (handleEvent sample_event stale_front_context) <> Unfinished.
Proof.
  apply (dispatch_runs_live_handlers_newest_first sample_event stale_front_context
           (mkHandlerBlock [mkHandler 1 true []; mkHandler 2 false [CSuper; CSuper]])).
  - reflexivity.
  - simpl. repeat constructor; simpl; intuition lia.
  - simpl. repeat constructor; simpl; lia.
Defined.

(** X2.  The pruning loop of [super], started at a node of a list of
    distinct handlers, never steps off the list: it stops at the nearest
    handler towards the front that is not destroyed, having erased exactly
    the destroyed handlers it passed, or, when no such handler exists,
    empties the list up to and including the start node.  Handlers behind
    the start node stay, and the handlers that are not destroyed are the
    same before and after. *)
Theorem super_scan_erases_only_destroyed
    (A : list Handler) (x : Handler) (R : list Handler) (n : nat) :
  List.NoDup (map hid (A ++ x :: R)) ->
  length A <= n ->
  match find_alive n (A ++ x :: R) (hid x) with
  | Alive l' h =>
      isDestroyed h = false /\
      (exists K D, A ++ [x] = K ++ h :: D /\
                   Forall (fun h => isDestroyed h = true) D /\
                   l' = K ++ h :: R) /\
      live_ids l' = live_ids (A ++ x :: R)
  | Exhausted l' =>
      Forall (fun h => isDestroyed h = true) (A ++ [x]) /\
      l' = R /\
      live_ids l' = live_ids (A ++ x :: R)
  | ScanUB | ScanUnfinished => False
  end.
Proof.
  intros Hn Hl.
  pose proof (find_alive_spec A x R n Hn Hl) as H.
  assert (Hsplit : live_ids (A ++ x :: R) = live_ids (A ++ [x]) ++ live_ids R).
  { rewrite <- live_ids_app, <- app_assoc. reflexivity. }
  destruct (find_alive n (A ++ x :: R) (hid x)) as [l' h|l'| |]; try exact H.
  - destruct H as (Hh & K & D & He & HD & Hl').
    split; [exact Hh|]. split; [exists K, D; auto|].
    rewrite Hsplit, He, Hl'.
    change (K ++ h :: D) with (K ++ [h] ++ D).
    change (K ++ h :: R) with (K ++ [h] ++ R).
    rewrite !live_ids_app, (live_ids_destroyed D HD), app_nil_r, <- !app_assoc.
    reflexivity.
  - destruct H as (HD & Hl').
    split; [exact HD|]. split; [exact Hl'|].
    rewrite Hsplit, (live_ids_destroyed _ HD), Hl'. reflexivity.
Qed.

Lemma super_scan_erases_only_destroyed_witness :
  match find_alive 2 ([mkHandler 1 false []; mkHandler 2 true []] ++
                      mkHandler 3 true [] :: [mkHandler 4 false []]) 3 with
  | Alive l' h =>
      isDestroyed h = false /\
      (exists K D, [mkHandler 1 false []; mkHandler 2 true []] ++ [mkHandler 3 true []] =
                     K ++ h :: D /\
                   Forall (fun h => isDestroyed h = true) D /\
                   l' = K ++ h :: [mkHandler 4 false []]) /\
      live_ids l' = live_ids ([mkHandler 1 false []; mkHandler 2 true []] ++
                              mkHandler 3 true [] :: [mkHandler 4 false []])
  | Exhausted l' =>
      Forall (fun h => isDestroyed h = true)
             ([mkHandler 1 false []; mkHandler 2 true []] ++ [mkHandler 3 true []]) /\
      l' = [mkHandler 4 false []] /\
      live_ids l' = live_ids ([mkHandler 1 false []; mkHandler 2 true []] ++
                              mkHandler 3 true [] :: [mkHandler 4 false []])
  | ScanUB | ScanUnfinished => False
  end.
Proof.
  apply (super_scan_erases_only_destroyed
           [mkHandler 1 false []; mkHandler 2 true []] (mkHandler 3 true [])
           [mkHandler 4 false []] 2).
  - simpl. repeat constructor; simpl; intuition lia.
  - simpl. lia.
Defined.

(** * Further properties of [process] *)

Lemma dispatch_dequeues_nothing event ctx :
  dequeued (trace (dispatch event ctx)) = [].
Proof.
  rewrite dispatch_eq. pose proof (handleEvent_trace event ctx) as H.
  destruct (handleEvent event ctx) as [[[[]|e| |] c] t]; unfold trace in *; simpl in *;
    rewrite ?dequeued_app, (only_execute_dequeued _ H); reflexivity.
Qed.

Lemma process_loop_mailbox n : forall ctx,
  mailbox (controlBlock ctx) =
  dequeued (trace (process_loop n ctx)) ++
  mailbox (controlBlock (final (process_loop n ctx))).
Proof.
  induction n as [|n IH]; intros ctx; simpl; rewrite bind_eq; unfold dequeue;
    destruct (mailbox (controlBlock ctx)) as [|event rest] eqn:Hmb; simpl; auto.
  rewrite bind_eq.
  pose proof (dispatch_controlBlock event (set_mailbox rest ctx)) as Hcb.
  pose proof (dispatch_dequeues_nothing event (set_mailbox rest ctx)) as Hdq.
  specialize (IH (final (dispatch event (set_mailbox rest ctx)))).
  destruct (dispatch event (set_mailbox rest ctx)) as [[[[]|e| |] c] t];
    unfold final, outcome, trace in *; cbn [fst snd] in *;
    try (rewrite Hdq, Hcb; reflexivity).
  f_equal. rewrite dequeued_app, Hdq. simpl. rewrite <- IH, Hcb. reflexivity.
Qed.

(** X3.  [process] takes the events out of the mailbox in the order they
    are queued and neither loses nor repeats one: whatever the outcome, the
    mailbox it started with is the events it dequeued followed by the events
    still queued.  When it returns normally every queued event has been
    dequeued; when a handler throws, the events behind the failing one stay
    in the mailbox. *)
Theorem process_takes_events_in_order (ctx : Context) :
  mailbox (controlBlock ctx) =
    dequeued (trace (process ctx)) ++ mailbox (controlBlock (final (process ctx))) /\
  (outcome (process ctx) = Ok tt ->
     dequeued (trace (process ctx)) = mailbox (controlBlock ctx) /\
     mailbox (controlBlock (final (process ctx))) = []).
Proof.
  pose proof (process_loop_mailbox (length (mailbox (controlBlock ctx))) ctx) as H.
  split; [exact H|].
  intros Hok. destruct (process_spec ctx) as (_ & _ & _ & Hmb). specialize (Hmb Hok).
  unfold process in *. rewrite Hmb, app_nil_r in H. split; [symmetry; exact H | exact Hmb].
Qed.

Lemma process_takes_events_in_order_witness :
  dequeued (trace (process awaited_context)) = mailbox (controlBlock awaited_context) /\
  mailbox (controlBlock (final (process awaited_context))) = [].
Proof.
  apply (proj2 (process_takes_events_in_order awaited_context)). reflexivity.
Defined.

(** X4.  The runtime code of [process] (with [handleEvent] and [super]
    under it) never locks or unlocks the control block mutex and never
    suspends; it leaves the executor binding and the mutex as they were. *)
Theorem process_leaves_mutex_alone (ctx : Context) :
  quiet (trace (process ctx)) = true /\
  mutex (controlBlock (final (process ctx))) = mutex (controlBlock ctx) /\
  executor (controlBlock (final (process ctx))) = executor (controlBlock ctx).
Proof.
  destruct (process_spec ctx) as (He & Hm & Hq & _). auto.
Qed.

(** X5.  Events for which no handler block exists are dropped: when no
    queued event has a block for its path, [process] dequeues each event and
    frees its payload, executes nothing, and changes nothing but the
    mailbox, which it leaves empty. *)
Theorem process_drops_unbound_events (ctx : Context) :
  Forall (fun e => handlerBlocks ctx !! path e = None) (mailbox (controlBlock ctx)) ->
  process ctx = (Ok tt, set_mailbox [] ctx, dropped_trace (mailbox (controlBlock ctx))).
Proof.
  intros Hf. unfold process.
  pose proof (process_loop_drop (mailbox (controlBlock ctx)) 0 [] ctx) as H.
  rewrite app_nil_r, Nat.add_0_r in H. rewrite (H eq_refl Hf).
  simpl. rewrite app_nil_r. reflexivity.
Qed.

Lemma process_drops_unbound_events_witness :
  process unbound_events_context =
    (Ok tt, set_mailbox [] unbound_events_context,
     dropped_trace (mailbox (controlBlock unbound_events_context))).
Proof.
  apply (process_drops_unbound_events unbound_events_context).
  repeat constructor.
Defined.

(** * Binding, destroying and dispatching *)

Lemma back_nonempty (l : list Handler) : l <> [] -> exists h, back l = Some h.
Proof.
  intros Hne. destruct (back l) as [h|] eqn:E; [exists h; reflexivity|].
  apply back_None in E. contradiction.
Qed.

Lemma back_In (l : list Handler) (h : Handler) : back l = Some h -> In h l.
Proof.
  intros H. rewrite (back_pop_back l h H). apply in_or_app. right. left. reflexivity.
Qed.

Lemma prune_back_all_destroyed n (l : list Handler) :
  length l <= n ->
  Forall (fun h => isDestroyed h = true) l ->
  prune_back n l = [].
Proof.
  intros Hlen Hall.
  destruct (prune_back_spec n l Hlen) as (dropped & He & _ & Hb).
  destruct (prune_back n l) as [|a k] eqn:E; [reflexivity|exfalso].
  destruct (back_nonempty (a :: k)) as [h Hh]; [discriminate|].
  specialize (Hb h Hh). apply back_In in Hh.
  assert (Hin : In h l) by (rewrite He; apply in_or_app; left; exact Hh).
  rewrite List.Forall_forall in Hall. rewrite (Hall h Hin) in Hb. discriminate.
Qed.

(** X7.  A block whose handlers have all been destroyed is reclaimed by the
    next event for its path: [handleEvent] executes nothing, erases the
    block from the handler table and returns, and events for that path
    which follow find no block and change nothing. *)
Theorem handleEvent_reclaims_destroyed_block
    (event : PendingEvent) (ctx : Context) (block : HandlerBlock) :
  handlerBlocks ctx !! path event = Some block ->
  Forall (fun h => isDestroyed h = true) (stackedHandlers block) ->
  let ctx' := set_handlerBlocks (delete (path event) (handlerBlocks ctx)) ctx in
  handleEvent event ctx = (Ok tt, ctx', []) /\
  handlerBlocks ctx' !! path event = None /\
  (forall next, path next = path event -> handleEvent next ctx' = (Ok tt, ctx', [])).
Proof.
  intros Hb Hall ctx'. split; [|split].
  - unfold handleEvent. rewrite Hb.
    rewrite (prune_back_all_destroyed _ _ (le_n _) Hall). reflexivity.
  - apply lookup_delete_eq.
  - intros next Hp. unfold handleEvent. rewrite Hp.
    unfold ctx'. cbn [handlerBlocks set_handlerBlocks]. rewrite lookup_delete_eq. reflexivity.
Qed.

Lemma handleEvent_reclaims_destroyed_block_witness :
  let ctx := with_block 7 [mkHandler 1 true [CThrow 3]; mkHandler 2 true []] (idle_context None) in
  let ctx' := set_handlerBlocks (delete (path sample_event) (handlerBlocks ctx)) ctx in
  handleEvent sample_event ctx = (Ok tt, ctx', []) /\
  handlerBlocks ctx' !! path sample_event = None /\
  (forall next, path next = path sample_event -> handleEvent next ctx' = (Ok tt, ctx', [])).
Proof.
  apply (handleEvent_reclaims_destroyed_block sample_event
           (with_block 7 [mkHandler 1 true [CThrow 3]; mkHandler 2 true []] (idle_context None))
           (mkHandlerBlock [mkHandler 1 true [CThrow 3]; mkHandler 2 true []])).
  - reflexivity.
  - repeat constructor.
Defined.

Lemma Event_bind_blocks p f ctx :
  handlerBlocks (final (Event_bind p f ctx)) =
  <[p := mkHandlerBlock (bound_to p ctx ++ [mkHandler (heapNext ctx) false f])]>
    (handlerBlocks ctx).
Proof.
  unfold Event_bind, Context_bind, bound_to, final. simpl.
  destruct (handlerBlocks ctx !! p); reflexivity.
Qed.

Lemma run_body_without_super (super_rec : M unit) d : forall cs ctx,
  calls_super cs = false -> trace (run_body super_rec d cs ctx) = [].
Proof.
  induction cs as [|c cs IH]; intros ctx Hc; [reflexivity|].
  destruct c as [| |tag|tgt|q body]; simpl in Hc; try discriminate; simpl;
    try reflexivity.
  - rewrite bind_eq. unfold HandlerRef_destroy, modify. simpl. apply IH. exact Hc.
  - rewrite bind_eq. unfold Event_bind, Context_bind. simpl. apply IH. exact Hc.
Qed.

(** X8.  The handler bound last is the one an event reaches first: after
    [Event<A>::bind], which returns the reference of the new handler, a
    dispatch for the event's path starts by executing that handler with the
    payload of the event.  Older handlers of the path run only through
    [super()]: when the new handler's body does not call it, nothing else is
    executed. *)
Theorem newest_binding_runs_first
    (p : Path) (f : list Cmd) (d fr : nat) (ctx : Context) :
  Forall (fun x => hid x <> heapNext ctx) (bound_to p ctx) ->
  outcome (Event_bind p f ctx) = Ok (heapNext ctx) /\
  (exists rest,
     trace (handleEvent (mkPendingEvent p d fr) (final (Event_bind p f ctx))) =
       AExecute (heapNext ctx) d :: rest) /\
  (calls_super f = false ->
     trace (handleEvent (mkPendingEvent p d fr) (final (Event_bind p f ctx))) =
       [AExecute (heapNext ctx) d]).
Proof.
  intros Hfresh. split; [reflexivity|].
  set (h := mkHandler (heapNext ctx) false f).
  set (c := final (Event_bind p f ctx)).
  assert (Heq : handleEvent (mkPendingEvent p d fr) c =
                ((tell (AExecute (hid h) d) ;; run_body (super (length (bound_to p ctx))) d f) ;;
                 modify (set_handlerContext None))
                  (store_block p (bound_to p ctx ++ [h]) (At (hid h)) d c)).
  { unfold handleEvent. cbn [path data]. unfold c at 1.
    rewrite Event_bind_blocks, lookup_insert_eq. cbn [stackedHandlers]. fold h.
    rewrite prune_back_live by reflexivity.
    destruct (bound_to p ctx ++ [h]) as [|x xs] eqn:E;
      [destruct (bound_to p ctx); discriminate|].
    rewrite <- E. rewrite bind_eq, (bind_eq (_ ;; _)).
    rewrite length_app, Nat.add_1_r, super_from_end; [|reflexivity|exact Hfresh].
    reflexivity. }
  rewrite Heq, !bind_eq. unfold tell. cbn iota beta.
  split.
  - destruct (run_body _ d f _) as [[[[]|e| |] c1] t1];
      unfold outcome, final, trace; simpl; eexists; reflexivity.
  - intros Hns.
    pose proof (run_body_without_super (super (length (bound_to p ctx))) d f
                  (store_block p (bound_to p ctx ++ [h]) (At (hid h)) d c) Hns) as Ht.
    destruct (run_body _ d f _) as [[[[]|e| |] c1] t1];
      unfold outcome, final, trace in *; simpl in *; subst t1; reflexivity.
Qed.

Lemma newest_binding_runs_first_witness :
  outcome (Event_bind 7 [CThrow 1] live_front_context) = Ok (heapNext live_front_context) /\
  (exists rest,
     trace (handleEvent (mkPendingEvent 7 42 9) (final (Event_bind 7 [CThrow 1] live_front_context))) =
       AExecute (heapNext live_front_context) 42 :: rest) /\
  (calls_super [CThrow 1] = false ->
     trace (handleEvent (mkPendingEvent 7 42 9) (final (Event_bind 7 [CThrow 1] live_front_context))) =
       [AExecute (heapNext live_front_context) 42]).
Proof.
  apply (newest_binding_runs_first 7 [CThrow 1] 42 9 live_front_context).
  vm_compute. repeat constructor; lia.
Defined.

(** * The mutex during [yield] *)

Lemma mutex_after_app held t1 t2 :
  mutex_after held (t1 ++ t2) =
  match mutex_after held t1 with
  | Some held' => mutex_after held' t2
  | None => None
  end.
Proof.
  revert held. induction t1 as [|a t1 IH]; intros held; simpl; [reflexivity|].
  destruct (mutex_step held a); [apply IH | reflexivity].
Qed.

Lemma quiet_mutex_free t : quiet t = true -> mutex_after false t = Some false.
Proof.
  unfold quiet. induction t as [|a t IH]; simpl; [reflexivity|].
  intros H. apply andb_true_iff in H. destruct H as [Ha Ht].
  destruct a; simpl in *; try discriminate; apply IH; exact Ht.
Qed.

Lemma yield_iteration_mutex a ctx :
  mutex_after false (trace (yield_iteration a ctx)) = Some false.
Proof.
  rewrite yield_iteration_eq.
  destruct (process_spec ctx) as (_ & _ & Hq & _).
  destruct (process ctx) as [[[[]|e| |] c1] t1]; unfold trace in *; cbn [fst snd] in *;
    try (apply quiet_mutex_free; exact Hq).
  apply quiet_mutex_free in Hq.
  destruct (executor (controlBlock c1)).
  - destruct (mailbox (controlBlock (arrive (afterDrain a) c1))) as [|event rest];
      cbn [fst snd]; rewrite mutex_after_app, Hq; [reflexivity|].
    simpl. apply quiet_mutex_free. apply dispatch_no_handshake.
  - cbn [fst snd]. rewrite mutex_after_app, Hq. reflexivity.
Qed.

Lemma yield_mutex env : forall ctx,
  mutex_after false (trace (yield env ctx)) = Some false.
Proof.
  induction env as [|a env IH]; intros ctx; [reflexivity|].
  simpl. rewrite bind_eq.
  pose proof (yield_iteration_mutex a ctx) as Hi.
  destruct (yield_iteration a ctx) as [[[[]|e| |] c1] t1]; unfold trace in *;
    cbn [fst snd] in *; try exact Hi.
  rewrite mutex_after_app, Hi. apply IH.
Qed.

(** X9.  [yield] holds the control block mutex only for the re-check of
    the mailbox: along every run of its loop each [lock()] is made with the
    mutex free and is followed by exactly one release, either the
    [unlock()] before the late event is dispatched or the [suspend()] that
    takes the lock over; no handler is entered while the mutex is held; and
    the run ends with the mutex free.  On a fiber bound to an executor an
    iteration that completes leaves the mutex released. *)
Theorem yield_holds_mutex_only_for_recheck (env : list Arrivals) (ctx : Context) :
  mutex_after false (trace (yield env ctx)) = Some false /\
  (forall a ex, executor (controlBlock ctx) = Some ex ->
     outcome (yield_iteration a ctx) = Ok tt ->
     mutex (controlBlock (final (yield_iteration a ctx))) = false).
Proof.
  split; [apply yield_mutex|].
  intros a ex Hex. rewrite yield_iteration_eq.
  destruct (process_spec ctx) as (He & _ & _ & _).
  destruct (process ctx) as [[[[]|e| |] c1] t1]; unfold final, outcome in *;
    cbn [fst snd] in *; try discriminate.
  rewrite He, Hex.
  destruct (mailbox (controlBlock (arrive (afterDrain a) c1))) as [|event rest];
    cbn [fst snd]; [reflexivity|].
  intros _.
  pose proof (dispatch_controlBlock event
                (set_mutex false (set_mailbox rest (set_mutex true (arrive (afterDrain a) c1)))))
    as Hcb.
  unfold final in Hcb. rewrite Hcb. reflexivity.
Qed.

Lemma yield_holds_mutex_only_for_recheck_witness :
  mutex_after false
    (trace (yield [mkArrivals [sample_event] []; mkArrivals [] []] throwing_context)) =
    Some false /\
  mutex (controlBlock
           (final (yield_iteration (mkArrivals [sample_event] []) (idle_context (Some 0))))) =
    false.
Proof.
  split.
  - apply (yield_holds_mutex_only_for_recheck
             [mkArrivals [sample_event] []; mkArrivals [] []] throwing_context).
  - apply (proj2 (yield_holds_mutex_only_for_recheck [] (idle_context (Some 0)))
             (mkArrivals [sample_event] []) 0); reflexivity.
Defined.

(** * What leaves [yield] and [await] *)

Lemma yield_outcome env : forall ctx,
  match outcome (yield env ctx) with
  | Ok _ => False
  | Exc (EventFired v) => exists h, In (AExecute h v) (trace (yield env ctx))
  | Exc (Failure _) => exists h d, In (AExecute h d) (trace (yield env ctx))
  | UB | Unfinished => True
  end.
Proof.
  induction env as [|a env IH]; intros ctx; simpl; [exact I|].
  rewrite bind_eq.
  pose proof (yield_iteration_exception a ctx) as Hit.
  pose proof (yield_iteration_fired a ctx) as Hfi.
  destruct (yield_iteration a ctx) as [[[[]|e'| |] c1] t1]; unfold outcome, trace in *;
    cbn [fst snd] in *; try exact I.
  - specialize (IH c1).
    destruct (fst (fst (yield env c1))) as [[]|[v|tag]| |]; try exact IH.
    + destruct IH as (h & Hin). exists h. apply in_or_app; right; exact Hin.
    + destruct IH as (h & d & Hin). exists h, d. apply in_or_app; right; exact Hin.
  - destruct e' as [v|tag]; [exact (Hfi v eq_refl) | exact (Hit _ eq_refl)].
Qed.

Lemma await_outcome_trace p env ctx :
  outcome (await p env ctx) =
    match outcome (yield env (awaiting p ctx)) with
    | Ok _ => UB
    | Exc (EventFired v) => Ok v
    | Exc (Failure tag) => Exc (Failure tag)
    | UB => UB
    | Unfinished => Unfinished
    end /\
  trace (await p env ctx) = trace (yield env (awaiting p ctx)).
Proof.
  rewrite await_eq. unfold scoped, catch_EventFired.
  destruct (yield env (awaiting p ctx)) as [[[[]|[v|tag]| |] c1] t1];
    unfold outcome, trace, HandlerRef_destroy, modify; simpl; rewrite ?app_nil_r; auto.
Qed.

(** X10.  [await] hands back only what a handler was given: when it
    returns [v], a handler of this fiber was executed with payload [v]
    while it waited.  The [EventFired] transfer never leaves [await]; any
    other exception that leaves it was thrown by an executed handler and
    left [yield] unchanged; and since [yield] does not return, [await] never
    reaches the end of its body without a value: undefined behaviour in
    [await] is undefined behaviour of the dispatch under it. *)
Theorem await_returns_only_delivered_values
    (p : Path) (env : list Arrivals) (ctx : Context) :
  (forall v, outcome (await p env ctx) = Ok v ->
     exists h, In (AExecute h v) (trace (await p env ctx))) /\
  (forall v, outcome (await p env ctx) <> Exc (EventFired v)) /\
  (forall tag, outcome (await p env ctx) = Exc (Failure tag) ->
     outcome (yield env (awaiting p ctx)) = Exc (Failure tag) /\
     exists h d, In (AExecute h d) (trace (await p env ctx))) /\
  (outcome (await p env ctx) = UB -> outcome (yield env (awaiting p ctx)) = UB).
Proof.
  destruct (await_outcome_trace p env ctx) as (Ho & Ht). rewrite Ho, Ht.
  pose proof (yield_outcome env (awaiting p ctx)) as Hy.
  destruct (outcome (yield env (awaiting p ctx))) as [[]|[w|tag']| |];
    try contradiction; repeat split; try discriminate; auto.
  - intros v [= <-]. exact Hy.
  - match goal with H : Exc (Failure _) = Exc (Failure _) |- _ => injection H as <- end.
    reflexivity.
Qed.

Lemma await_returns_only_delivered_values_witness :
  exists h, In (AExecute h 42) (trace (await 7 [mkArrivals [] []] awaited_context)).
Proof.
  apply (proj1 (await_returns_only_delivered_values 7 [mkArrivals [] []] awaited_context) 42).
  vm_compute. reflexivity.
Defined.

(** * Further properties of [System] *)

Lemma hand_to_extends i b ex ex' :
  hand_to i b ex = Some ex' ->
  length ex' = length ex /\
  forall k q, ex !! k = Some q -> exists q', ex' !! k = Some (q ++ q').
Proof.
  unfold hand_to. destruct (ex !! Z.to_nat i) as [q0|] eqn:E; [|discriminate].
  intros [= <-]. split; [apply length_insert|].
  intros k q Hk. destruct (Nat.eq_dec (Z.to_nat i) k) as [<-|Hne].
  - rewrite list_lookup_insert_eq by (eapply lookup_lt_Some; exact E).
    rewrite E in Hk. injection Hk as <-. exists [b]. reflexivity.
  - rewrite list_lookup_insert_ne by exact Hne. exists []. rewrite app_nil_r. exact Hk.
Qed.

Lemma schedule_step block s :
  executors s <> [] ->
  (0 <= roundRobinCounter s)%Z ->
  exists q s',
    System_schedule block s = Some s' /\
    executors s !! Z.to_nat (roundRobinCounter s mod Z.of_nat (length (executors s))) = Some q /\
    executors s' =
      <[Z.to_nat (roundRobinCounter s mod Z.of_nat (length (executors s))) := q ++ [block]]>
        (executors s) /\
    roundRobinCounter s' = uint64 (roundRobinCounter s + 1) /\
    running s' = running s /\ heap s' = heap s /\ shuttingDown s' = shuttingDown s /\
    mainMailbox s' = mainMailbox s.
Proof.
  intros Hne Hrr. unfold System_schedule.
  destruct (executors s) as [|e0 es] eqn:E; [contradiction|].
  assert (Hi : (0 <= roundRobinCounter s mod Z.of_nat (length (e0 :: es))
                < Z.of_nat (length (e0 :: es)))%Z).
  { apply Z.mod_pos_bound. simpl length. lia. }
  destruct (hand_to_in_range _ block (e0 :: es) Hi) as (q & Hq & Hh).
  rewrite Hh. exists q. eexists. split; [reflexivity|]. cbn.
  repeat split; auto.
Qed.

Lemma schedules_extend bs : forall s refs s',
  system_calls (map CallSchedule bs) s = Some (refs, s') ->
  refs = [] /\
  length (executors s') = length (executors s) /\
  (forall k q, executors s !! k = Some q -> exists q', executors s' !! k = Some (q ++ q')) /\
  running s' = running s /\ heap s' = heap s /\ shuttingDown s' = shuttingDown s /\
  mainMailbox s' = mainMailbox s.
Proof.
  induction bs as [|b bs IH]; intros s refs s'; simpl.
  - intros [= <- <-]. repeat split; auto. intros k q Hk. exists []. rewrite app_nil_r. exact Hk.
  - unfold System_schedule. destruct (executors s) as [|e0 es] eqn:E; [discriminate|].
    destruct (hand_to _ b (e0 :: es)) as [ex'|] eqn:Eh; [|discriminate].
    destruct (system_calls (map CallSchedule bs) _) as [[rs s2]|] eqn:Es; [|discriminate].
    intros [= <- <-].
    destruct (IH _ _ _ Es) as (Hr & Hlen & Hext & Hrun & Hheap & Hsd & Hmm).
    destruct (hand_to_extends _ _ _ _ Eh) as (Hlen1 & Hext1).
    cbn [executors running heap shuttingDown mainMailbox] in *.
    repeat split; auto; try congruence.
    intros k q Hk. destruct (Hext1 k q Hk) as (q1 & Hq1).
    destruct (Hext k _ Hq1) as (q2 & Hq2). exists (q1 ++ q2).
    rewrite app_assoc. exact Hq2.
Qed.

(** X12.  [schedule] deals control blocks out round-robin: as long as the
    64-bit counter does not wrap, a series of [schedule] calls on a system
    with [n] executors succeeds, advances the counter by one per call,
    leaves the number of executors and everything else in the system as it
    was, and hands the [j]-th block of the series to the executor with index
    [(counter + j) mod n]. *)
Theorem schedule_deals_round_robin (bs : list nat) : forall (s : System),
  executors s <> [] ->
  (0 <= roundRobinCounter s)%Z ->
  (roundRobinCounter s + Z.of_nat (length bs) < 2 ^ 64)%Z ->
  exists s',
    system_calls (map CallSchedule bs) s = Some ([], s') /\
    roundRobinCounter s' = (roundRobinCounter s + Z.of_nat (length bs))%Z /\
    length (executors s') = length (executors s) /\
    (running s' = running s /\ heap s' = heap s /\ shuttingDown s' = shuttingDown s) /\
    (forall j b, bs !! j = Some b ->
       exists q,
         executors s' !!
           Z.to_nat ((roundRobinCounter s + Z.of_nat j) mod Z.of_nat (length (executors s))) =
           Some q /\
         In b q).
Proof.
  induction bs as [|b bs IH]; intros s Hne Hrr Hlt.
  - exists s. simpl. rewrite Z.add_0_r. repeat split; auto. intros j b Hj. discriminate.
  - destruct (schedule_step b s Hne Hrr)
      as (q & s1 & Hs1 & Hq & Hex & Hrr1 & Hrun1 & Hheap1 & Hsd1 & _).
    assert (Hrr1' : roundRobinCounter s1 = (roundRobinCounter s + 1)%Z).
    { rewrite Hrr1. unfold uint64. apply Z.mod_small. simpl length in Hlt. lia. }
    assert (Hlen1 : length (executors s1) = length (executors s)).
    { rewrite Hex. apply length_insert. }
    assert (Hne1 : executors s1 <> []).
    { intros H0. rewrite H0 in Hlen1. destruct (executors s); [contradiction|discriminate]. }
    destruct (IH s1 Hne1) as (s' & Hcalls & Hrr' & Hlen' & (Hrun' & Hheap' & Hsd') & Hpos).
    { lia. }
    { rewrite Hrr1'. simpl length in Hlt. lia. }
    exists s'. split; [|split; [|split; [|split]]].
    + simpl. rewrite Hs1, Hcalls. reflexivity.
    + rewrite Hrr', Hrr1'. simpl length. lia.
    + congruence.
    + repeat split; congruence.
    + intros j b' Hj. destruct j as [|j].
      * simpl in Hj. injection Hj as <-.
        destruct (schedules_extend bs s1 [] s' Hcalls) as (_ & _ & Hext & _).
        rewrite Z.add_0_r.
        assert (Hat : executors s1 !!
                        Z.to_nat (roundRobinCounter s mod Z.of_nat (length (executors s))) =
                      Some (q ++ [b])).
        { rewrite Hex. apply list_lookup_insert_eq. eapply lookup_lt_Some. exact Hq. }
        destruct (Hext _ _ Hat) as (q' & Hq'). exists ((q ++ [b]) ++ q'). split; [exact Hq'|].
        apply in_or_app. left. apply in_or_app. right. left. reflexivity.
      * simpl in Hj. destruct (Hpos j b' Hj) as (q' & Hq' & Hin).
        exists q'. split; [|exact Hin].
        rewrite Hrr1', Hlen1 in Hq'.
        replace (roundRobinCounter s + Z.of_nat (S j))%Z
          with (roundRobinCounter s + 1 + Z.of_nat j)%Z by lia.
        exact Hq'.
Qed.

Lemma schedule_deals_round_robin_witness :
  exists s',
    system_calls (map CallSchedule [10; 11; 12]) two_executors = Some ([], s') /\
    roundRobinCounter s' = (roundRobinCounter two_executors + Z.of_nat (length [10; 11; 12]))%Z /\
    length (executors s') = length (executors two_executors) /\
    (running s' = running two_executors /\ heap s' = heap two_executors /\
     shuttingDown s' = shuttingDown two_executors) /\
    (forall j b, [10; 11; 12] !! j = Some b ->
       exists q,
         executors s' !!
           Z.to_nat ((roundRobinCounter two_executors + Z.of_nat j)
                     mod Z.of_nat (length (executors two_executors))) = Some q /\
         In b q).
Proof.
  apply (schedule_deals_round_robin [10; 11; 12] two_executors).
  - discriminate.
  - vm_compute. discriminate.
  - vm_compute. reflexivity.
Defined.

Lemma fired_set_running r s : fired (set_running r s) = fired s.
Proof. reflexivity. Qed.

Lemma fiberFinished_many k : forall s,
  (Z.of_nat k <= running s < 2 ^ 64)%Z ->
  running (Nat.iter k System_fiberFinished s) = (running s - Z.of_nat k)%Z /\
  allFibersFinished_ (Nat.iter k System_fiberFinished s) = allFibersFinished_ s /\
  fired (Nat.iter k System_fiberFinished s) =
    if negb (k =? 0) && (Z.of_nat k =? running s)%Z then S (fired s) else fired s.
Proof.
  induction k as [|k IH]; intros s Hr.
  - simpl. rewrite Z.sub_0_r. auto.
  - destruct (IH s) as (Hrun & Hall & Hfired); [lia|].
    assert (Hk : (Z.of_nat k =? running s)%Z = false) by (apply Z.eqb_neq; lia).
    rewrite Hk, andb_false_r in Hfired.
    change (Nat.iter (S k) System_fiberFinished s)
      with (System_fiberFinished (Nat.iter k System_fiberFinished s)).
    set (sk := Nat.iter k System_fiberFinished s) in *.
    unfold System_fiberFinished. rewrite Hrun.
    cbn [negb Nat.eqb andb].
    destruct (running s - Z.of_nat k =? 1)%Z eqn:E1.
    + apply Z.eqb_eq in E1.
      assert (E2 : (Z.of_nat (S k) =? running s)%Z = true) by (apply Z.eqb_eq; lia).
      rewrite E2. split; [|split].
      * cbn [running mainFiber_emit set_running]. rewrite E1. vm_compute uint64. lia.
      * cbn [allFibersFinished_ mainFiber_emit set_running]. exact Hall.
      * rewrite (fired_emit (set_running (uint64 (running s - Z.of_nat k - 1)) sk)).
        rewrite fired_set_running, Hfired. reflexivity.
    + apply Z.eqb_neq in E1.
      assert (E2 : (Z.of_nat (S k) =? running s)%Z = false) by (apply Z.eqb_neq; lia).
      rewrite E2. split; [|split].
      * cbn [running set_running]. unfold uint64. rewrite Z.mod_small by lia. lia.
      * exact Hall.
      * rewrite fired_set_running. exact Hfired.
Qed.

(** X13.  Of the fibers counted as running only the last one to finish
    announces it: when [fiberFinished] is called [k] times (once at least)
    on a system whose counter holds [r >= k], the counter ends at [r - k],
    and the main fiber is sent one [allFibersFinished] event if [k = r] and
    none otherwise. *)
Theorem only_last_finisher_fires (k : nat) (s : System) :
  0 < k ->
  (Z.of_nat k <= running s < 2 ^ 64)%Z ->
  running (Nat.iter k System_fiberFinished s) = (running s - Z.of_nat k)%Z /\
  fired (Nat.iter k System_fiberFinished s) =
    if (Z.of_nat k =? running s)%Z then S (fired s) else fired s.
Proof.
  intros Hk Hr. destruct (fiberFinished_many k s Hr) as (Hrun & _ & Hf).
  split; [exact Hrun|].
  destruct k; [lia|]. exact Hf.
Qed.

Lemma only_last_finisher_fires_witness :
  (running (Nat.iter 3 System_fiberFinished three_running) = (running three_running - 3)%Z /\
   fired (Nat.iter 3 System_fiberFinished three_running) =
     if (3 =? running three_running)%Z then S (fired three_running) else fired three_running) /\
  (running (Nat.iter 2 System_fiberFinished three_running) = (running three_running - 2)%Z /\
   fired (Nat.iter 2 System_fiberFinished three_running) =
     if (2 =? running three_running)%Z then S (fired three_running) else fired three_running).
Proof.
  split.
  - apply (only_last_finisher_fires 3 three_running); [lia | vm_compute; split; [discriminate | reflexivity]].
  - apply (only_last_finisher_fires 2 three_running); [lia | vm_compute; split; [discriminate | reflexivity]].
Defined.

(** X14.  A [fiberFinished] call made while the counter is zero wraps the
    unsigned counter to [2^64 - 1] and sends nothing, and it silences the
    event: no [allFibersFinished] is sent by any of the [fiberFinished]
    calls that follow, up to [2^64 - 1] calls in all. *)
Theorem fiberFinished_underflow_silences_event (s : System) (k : nat) :
  running s = 0%Z ->
  0 < k ->
  (Z.of_nat k < 2 ^ 64)%Z ->
  running (System_fiberFinished s) = (2 ^ 64 - 1)%Z /\
  fired (Nat.iter k System_fiberFinished s) = fired s.
Proof.
  intros H0 Hk Hlt.
  assert (Hone : System_fiberFinished s = set_running (2 ^ 64 - 1) s).
  { unfold System_fiberFinished. rewrite H0. reflexivity. }
  split; [rewrite Hone; reflexivity|].
  destruct k as [|k]; [lia|].
  rewrite Nat.iter_succ_r, Hone.
  destruct (fiberFinished_many k (set_running (2 ^ 64 - 1) s)) as (_ & _ & Hf).
  { cbn [running set_running]. lia. }
  rewrite Hf, fired_set_running. cbn [running set_running].
  assert (E : (Z.of_nat k =? 2 ^ 64 - 1)%Z = false) by (apply Z.eqb_neq; lia).
  rewrite E, andb_false_r. reflexivity.
Qed.

Lemma fiberFinished_underflow_silences_event_witness :
  running (System_fiberFinished (System_new 2 5)) = (2 ^ 64 - 1)%Z /\
  fired (Nat.iter 4 System_fiberFinished (System_new 2 5)) = fired (System_new 2 5).
Proof.
  apply (fiberFinished_underflow_silences_event (System_new 2 5) 4).
  - reflexivity.
  - lia.
  - vm_compute. reflexivity.
Defined.

(** * Dispatch without destroyed handlers *)

Section Steady.

Implicit Types (l : list Handler) (z : Handler).

Lemma find_alive_live n l z :
  List.NoDup (map hid l) -> In z l -> isDestroyed z = false ->
  find_alive n l (hid z) = Alive l z.
Proof.
  intros Hnd Hin Hlive. apply in_split in Hin. destruct Hin as (A & R & ->).
  destruct n; simpl; rewrite (deref_mid A z R Hnd), Hlive; reflexivity.
Qed.

Lemma decr_valid l it :
  List.NoDup (map hid l) ->
  match it with End => True | At c => In c (map hid l) end ->
  iter_eqb it (begin l) = false ->
  exists z, In z l /\ decr l it = Some (hid z).
Proof.
  intros Hnd Hit Hb. destruct it as [|c].
  - destruct l as [|a l']; [discriminate|].
    destruct (back_nonempty (a :: l')) as [z Hz]; [discriminate|].
    exists z. split; [apply back_In; exact Hz|]. unfold decr. rewrite Hz. reflexivity.
  - destruct (before_present l c Hit) as (A & x & R & -> & <-).
    rewrite (begin_mid A x R Hnd) in Hb.
    destruct (snoc_cases A) as [->|(A' & y & ->)]; [discriminate|].
    rewrite <- app_assoc in Hnd |- *. simpl in Hnd |- *.
    exists y. split; [apply in_or_app; right; left; reflexivity|].
    unfold decr. apply pred_mid. exact Hnd.
Qed.

Lemma never_destroyed_store p l it d ctx :
  never_destroyed ctx -> Forall keeps_handlers l ->
  never_destroyed (store_block p l it d ctx).
Proof.
  intros Hn Hl q b. unfold store_block. simpl.
  rewrite lookup_insert_Some. intros [[_ <-]|[_ Hq]]; [exact Hl | exact (Hn q b Hq)].
Qed.

Lemma steady_store p l c d ctx :
  sound_blocks ctx -> never_destroyed ctx ->
  sound_stack (heapNext ctx) l -> Forall keeps_handlers l ->
  match c with End => True | At i => In i (map hid l) end ->
  steady (store_block p l c d ctx).
Proof.
  intros Hs Hn Hsl Hkl Hc. split; [|split].
  - apply sound_blocks_store; assumption.
  - apply never_destroyed_store; assumption.
  - exists p, d, l, c. split; [apply cursor_view_store | exact Hc].
Qed.

Lemma steady_bind q body ctx :
  existsb destroys body = false ->
  steady ctx -> steady (final (Event_bind q body ctx)).
Proof.
  intros Hbody (Hs & Hn & (p & d & l & it & Hv & Hit)). split; [|split].
  - apply sound_blocks_bind. exact Hs.
  - intros r b. rewrite Event_bind_blocks, lookup_insert_Some.
    intros [[_ <-]|[_ Hr]]; [|exact (Hn r b Hr)].
    cbn [stackedHandlers]. apply Forall_app. split.
    + unfold bound_to. destruct (handlerBlocks ctx !! q) as [b0|] eqn:Hq;
        [exact (Hn q b0 Hq) | constructor].
    + repeat constructor. exact Hbody.
  - unfold cursor_view in Hv.
    destruct (handlerContext ctx) as [hc|] eqn:Hhc; [|discriminate].
    destruct (handlerBlocks ctx !! handlerBlock hc) as [b0|] eqn:Hb0; [|discriminate].
    injection Hv as <- <- <- <-.
    unfold cursor_valid, cursor_view.
    change (handlerContext (final (Event_bind q body ctx))) with (handlerContext ctx).
    rewrite Hhc, Event_bind_blocks.
    destruct (Nat.eq_dec q (handlerBlock hc)) as [->|Hne].
    + rewrite lookup_insert_eq. eexists _, _, _, _. split; [reflexivity|].
      cbn [stackedHandlers]. unfold bound_to. rewrite Hb0.
      destruct (handler hc); [exact I|]. rewrite map_app. apply in_or_app. left. exact Hit.
    + rewrite lookup_insert_ne by exact Hne. rewrite Hb0.
      eexists _, _, _, _. split; [reflexivity | exact Hit].
Qed.

Lemma run_body_steady (super_rec : M unit) payload :
  (forall ctx, steady ctx -> outcome (super_rec ctx) <> UB /\ steady (final (super_rec ctx))) ->
  forall cs ctx, existsb destroys cs = false -> steady ctx ->
    outcome (run_body super_rec payload cs ctx) <> UB /\
    steady (final (run_body super_rec payload cs ctx)).
Proof.
  intros Hrec cs. induction cs as [|c cs IH]; intros ctx Hcs Hst.
  - split; [discriminate | exact Hst].
  - simpl in Hcs. apply orb_false_iff in Hcs. destruct Hcs as [Hc Hcs].
    destruct c as [| |tag|tgt|q body]; cbn [run_body]; try discriminate;
      try (split; [discriminate | exact Hst]).
    + rewrite bind_eq. destruct (Hrec ctx Hst) as [Hub Hst1].
      destruct (super_rec ctx) as [[[[]|e| |] c1] t1]; unfold final, outcome in *;
        cbn [fst snd] in *; try (split; [discriminate | exact Hst1]); try contradiction.
      apply IH; assumption.
    + erewrite bind_pure by reflexivity. apply IH; [exact Hcs|].
      apply steady_bind; [exact Hc | exact Hst].
Qed.

Lemma super_with_steady (execute : Handler -> nat -> M unit) :
  (forall z d ctx, keeps_handlers z -> steady ctx ->
     outcome (execute z d ctx) <> UB /\ steady (final (execute z d ctx))) ->
  forall ctx, steady ctx ->
    outcome (super_with execute ctx) <> UB /\ steady (final (super_with execute ctx)).
Proof.
  intros Hex ctx Hst. pose proof Hst as (Hs & Hn & (p & d & l & it & Hv & Hit)).
  unfold cursor_view in Hv. unfold super_with.
  destruct (handlerContext ctx) as [hc|] eqn:Hhc; [|discriminate].
  destruct (handlerBlocks ctx !! handlerBlock hc) as [b0|] eqn:Hb0; [|discriminate].
  injection Hv as <- <- <- <-. cbn zeta.
  destruct (iter_eqb (handler hc) (begin (stackedHandlers b0))) eqn:Eb.
  - split; [discriminate | exact Hst].
  - destruct (Hs _ _ Hb0) as [Hnd Hlt].
    destruct (decr_valid _ _ Hnd Hit Eb) as (z & Hz & Hd). rewrite Hd.
    pose proof (Hn _ _ Hb0) as Hkeep.
    assert (Hkz : keeps_handlers z).
    { rewrite Forall_forall in Hkeep. apply Hkeep, list_elem_of_In. exact Hz. }
    rewrite (find_alive_live _ _ z Hnd Hz (proj1 Hkz)).
    apply Hex; [exact Hkz|].
    apply steady_store; auto.
    + exact (Hs _ _ Hb0).
    + apply in_map. exact Hz.
Qed.

Lemma super_steady fuel : forall ctx,
  steady ctx -> outcome (super fuel ctx) <> UB /\ steady (final (super fuel ctx)).
Proof.
  induction fuel as [|fuel IH]; intros ctx Hst; cbn [super];
    apply super_with_steady; try exact Hst; intros z d c Hk Hc.
  - split; [discriminate | exact Hc].
  - rewrite bind_eq. unfold tell. cbn iota beta.
    destruct (run_body_steady (super fuel) d IH (fn z) c (proj2 Hk) Hc) as [Hub Hst1].
    destruct (run_body (super fuel) d (fn z) c) as [[[[]|e| |] c1] t1];
      unfold final, outcome in *; cbn [fst snd] in *; split; auto; discriminate.
Qed.

Lemma prune_back_none_destroyed n l :
  Forall keeps_handlers l -> prune_back n l = l.
Proof.
  intros Hk. destruct n; simpl; destruct (back l) as [h|] eqn:Hb; try reflexivity;
    apply back_In in Hb; rewrite Forall_forall in Hk;
    apply list_elem_of_In, Hk in Hb; rewrite (proj1 Hb); reflexivity.
Qed.

Lemma never_destroyed_set_handlerContext hc ctx :
  never_destroyed ctx -> never_destroyed (set_handlerContext hc ctx).
Proof. intros H. exact H. Qed.

Lemma handleEvent_steady event ctx :
  sound_blocks ctx -> never_destroyed ctx ->
  exits (outcome (handleEvent event ctx)) /\
  never_destroyed (final (handleEvent event ctx)).
Proof.
  intros Hs Hn.
  assert (Hfin : outcome (handleEvent event ctx) <> Unfinished).
  { destruct (handlerBlocks ctx !! path event) as [block|] eqn:Hb.
    - destruct (handleEvent_executes_newest_first event ctx block Hb)
        as (ex & _ & _ & Hf); try apply (Hs _ _ Hb). exact Hf.
    - unfold handleEvent. rewrite Hb. discriminate. }
  revert Hfin. unfold handleEvent.
  destruct (handlerBlocks ctx !! path event) as [block|] eqn:Hb;
    [|intros _; split; [exact I | exact Hn]].
  rewrite (prune_back_none_destroyed _ _ (Hn _ _ Hb)).
  destruct (stackedHandlers block) as [|k0 kept] eqn:El.
  - intros _. split; [exact I|]. intros q b. unfold final. simpl.
    rewrite lookup_delete_Some. intros [_ Hq]. exact (Hn q b Hq).
  - rewrite bind_eq.
    assert (Hst : steady (store_block (path event) (k0 :: kept) End (data event) ctx)).
    { apply steady_store; auto.
      - rewrite <- El. exact (Hs _ _ Hb).
      - rewrite <- El. exact (Hn _ _ Hb). }
    destruct (super_steady (length (k0 :: kept)) _ Hst) as [Hub (_ & Hn1 & _)].
    destruct (super _ _) as [[[[]|e| |] c1] t1]; unfold final, outcome in *;
      cbn [fst snd] in *; intros Hfin; try contradiction; split; auto; exact I.
Qed.

Lemma dispatch_steady event ctx :
  sound_blocks ctx -> never_destroyed ctx ->
  exits (outcome (dispatch event ctx)) /\ never_destroyed (final (dispatch event ctx)).
Proof.
  intros Hs Hn. rewrite dispatch_eq. destruct (handleEvent_steady event ctx Hs Hn) as [He Hn1].
  destruct (handleEvent event ctx) as [[[[]|e| |] c] t]; unfold final, outcome in *;
    cbn [fst snd] in *; try contradiction; split; auto.
Qed.

Lemma process_loop_steady n : forall ctx,
  sound_blocks ctx -> never_destroyed ctx ->
  length (mailbox (controlBlock ctx)) <= n ->
  exits (outcome (process_loop n ctx)) /\ never_destroyed (final (process_loop n ctx)).
Proof.
  induction n as [|n IH]; intros ctx Hs Hn Hlen; simpl; rewrite bind_eq; unfold dequeue;
    destruct (mailbox (controlBlock ctx)) as [|event rest] eqn:Hmb; simpl in *;
    try (split; [exact I | exact Hn]); try lia.
  rewrite bind_eq.
  assert (Hs' : sound_blocks (set_mailbox rest ctx)) by exact Hs.
  assert (Hn' : never_destroyed (set_mailbox rest ctx)) by exact Hn.
  pose proof (dispatch_sound event _ Hs') as Hsd.
  destruct (dispatch_steady event _ Hs' Hn') as [Hed Hnd].
  pose proof (dispatch_controlBlock event (set_mailbox rest ctx)) as Hcb.
  destruct (dispatch event (set_mailbox rest ctx)) as [[[[]|e| |] c] t];
    unfold final, outcome in *; cbn [fst snd] in *; try contradiction;
    try (split; [exact I | exact Hnd]).
  apply IH; auto. rewrite Hcb. simpl. lia.
Qed.

End Steady.

(** X15.  For handlers whose bodies are made of the calls [super()],
    [Event::bind] and [throw] (the calls of [Cmd] other than the destruction
    of a handler; a body that re-enters the dispatcher through [process()],
    [yield()] or [await()] is outside this statement), destroyed handlers
    are the only source of undefined behaviour in a dispatch: when the
    handler blocks hold distinct handler objects, none of which is destroyed
    or has a body that destroys a handler (in itself or in a handler it
    binds), [handleEvent] and [process] return or throw, and the cursor of
    [super] never leaves the list.  The handlers stay undestroyed, and
    [process] frees the payload of each event it dequeued exactly once. *)
Theorem dispatch_without_destruction_is_defined (ctx : Context) :
  sound_blocks ctx ->
  never_destroyed ctx ->
  (forall event,
     exits (outcome (handleEvent event ctx)) /\
     never_destroyed (final (handleEvent event ctx))) /\
  exits (outcome (process ctx)) /\
  never_destroyed (final (process ctx)) /\
  freed (trace (process ctx)) = map owed (dequeued (trace (process ctx))).
Proof.
  intros Hs Hn. split; [intros event; apply handleEvent_steady; assumption|].
  destruct (process_loop_steady (length (mailbox (controlBlock ctx))) ctx Hs Hn (le_n _))
    as [He Hn1].
  split; [exact He|]. split; [exact Hn1|].
  apply process_loop_frees. exact He.
Qed.

Lemma dispatch_without_destruction_is_defined_witness :
  (forall event,
     exits (outcome (handleEvent event live_front_context)) /\
     never_destroyed (final (handleEvent event live_front_context))) /\
  exits (outcome (process live_front_context)) /\
  never_destroyed (final (process live_front_context)) /\
  freed (trace (process live_front_context)) =
    map owed (dequeued (trace (process live_front_context))).
Proof.
  apply (dispatch_without_destruction_is_defined live_front_context).
  - intros p b Hb. unfold live_front_context, with_block, idle_context in Hb.
    simpl in Hb. apply lookup_insert_Some in Hb.
    destruct Hb as [[_ <-]|[_ Hb]]; [|rewrite lookup_empty in Hb; discriminate].
    split; simpl; repeat constructor; simpl; intuition lia.
  - intros p b Hb. unfold live_front_context, with_block, idle_context in Hb.
    simpl in Hb. apply lookup_insert_Some in Hb.
    destruct Hb as [[_ <-]|[_ Hb]]; [|rewrite lookup_empty in Hb; discriminate].
    repeat constructor.
Defined.

(** X16.  [handleEvent] resets the handler context on normal return only:
    when a dispatch has taken place (the block of the event's path holds a
    handler that is not destroyed) and returns, [handlerContext] is null
    afterwards; when a handler throws, the exception passes
    [handlerContext.reset()] by, and the context of the failed dispatch,
    with its block and payload, is left in place. *)
Theorem handleEvent_resets_context_on_return_only
    (event : PendingEvent) (ctx : Context) (block : HandlerBlock) (x : Handler) :
  handlerBlocks ctx !! path event = Some block ->
  List.NoDup (map hid (stackedHandlers block)) ->
  Forall (fun h => hid h < heapNext ctx) (stackedHandlers block) ->
  In x (stackedHandlers block) ->
  isDestroyed x = false ->
  (outcome (handleEvent event ctx) = Ok tt ->
     handlerContext (final (handleEvent event ctx)) = None) /\
  (forall e, outcome (handleEvent event ctx) = Exc e ->
     exists hc, handlerContext (final (handleEvent event ctx)) = Some hc /\
                handlerBlock hc = path event /\ hdata hc = data event).
Proof.
  intros Hb Hnd Hlt Hx Hlive. unfold handleEvent. rewrite Hb.
  destruct (prune_back_spec (length (stackedHandlers block)) (stackedHandlers block))
    as (dropped & Heq & Hdrop & _); [lia|].
  assert (Hwf : sound_stack (heapNext ctx)
            (prune_back (length (stackedHandlers block)) (stackedHandlers block))).
  { apply (sound_stack_prefix _ _ dropped). rewrite <- Heq. split; assumption. }
  assert (Hin : In x (prune_back (length (stackedHandlers block)) (stackedHandlers block))).
  { rewrite Heq in Hx. apply in_app_or in Hx. destruct Hx as [Hx|Hx]; [exact Hx|].
    rewrite List.Forall_forall in Hdrop. rewrite (Hdrop x Hx) in Hlive. discriminate. }
  destruct (prune_back _ _) as [|k0 kept]; [contradiction|].
  rewrite bind_eq.
  destruct (super_advances (length (k0 :: kept))
              (store_block (path event) (k0 :: kept) End (data event) ctx)
              (path event) (data event) (k0 :: kept) End)
    as (l' & it' & ex & Hv & _).
  { apply cursor_view_store. }
  { destruct Hwf as [H1 H2]. split; [exact H1|]. split; [exact H2 | exact I]. }
  destruct (super _ _) as [[[[]|e'| |] c1] t1]; unfold final, outcome in *;
    cbn [fst snd] in *; (split; [try discriminate | intros e; try discriminate]).
  - intros _. reflexivity.
  - intros _. unfold cursor_view in Hv.
    destruct (handlerContext c1) as [hc|]; [|discriminate].
    destruct (handlerBlocks c1 !! handlerBlock hc); [|discriminate].
    injection Hv as Hp Hd _ _. exists hc. auto.
Qed.

Lemma handleEvent_resets_context_on_return_only_witness :
  handlerContext (final (handleEvent sample_event live_front_context)) = None /\
  exists hc, handlerContext (final (handleEvent sample_event throwing_context)) = Some hc /\
             handlerBlock hc = path sample_event /\ hdata hc = data sample_event.
Proof.
  split.
  - apply (proj1 (handleEvent_resets_context_on_return_only sample_event live_front_context
                    (mkHandlerBlock [mkHandler 1 false []; mkHandler 2 false [CSuper; CSuper]])
                    (mkHandler 1 false []) eq_refl
                    ltac:(simpl; repeat constructor; simpl; intuition lia)
                    ltac:(simpl; repeat constructor; simpl; lia)
                    ltac:(simpl; auto) eq_refl)).
    reflexivity.
  - apply (proj2 (handleEvent_resets_context_on_return_only sample_event throwing_context
                    (mkHandlerBlock [mkHandler 1 false [CThrow 3]])
                    (mkHandler 1 false [CThrow 3]) eq_refl
                    ltac:(simpl; repeat constructor; simpl; intuition lia)
                    ltac:(simpl; repeat constructor; simpl; lia)
                    ltac:(simpl; auto) eq_refl) (Failure 3)).
    reflexivity.
Defined.

(** * One [await] after another *)

Lemma HandlerRef_destroy_bound_to tgt p c :
  bound_to p (final (HandlerRef_destroy tgt c)) = map (mark_destroyed tgt) (bound_to p c).
Proof.
  unfold bound_to, HandlerRef_destroy, modify, final. simpl.
  rewrite lookup_fmap. destruct (handlerBlocks c !! p); reflexivity.
Qed.

Lemma bound_to_store p l it d c : bound_to p (store_block p l it d c) = l.
Proof.
  unfold bound_to, store_block. simpl. rewrite lookup_insert_eq. reflexivity.
Qed.

(** The first [await] on a path nobody has bound: its handler is the only
    one, so its [super()] is a no-op. *)
Lemma await_alone p v f rest a env ctx :
  handlerBlocks ctx !! p = None ->
  mailbox (controlBlock ctx) = mkPendingEvent p v f :: rest ->
  await p (a :: env) ctx =
  (Ok v,
   final (HandlerRef_destroy (heapNext ctx) (in_await_handler p v rest ctx)),
   [ADequeue (mkPendingEvent p v f); AExecute (heapNext ctx) v; AFreeData f v]).
Proof.
  intros Hnone Hmb.
  assert (Hbt : bound_to p ctx = []) by (unfold bound_to; rewrite Hnone; reflexivity).
  assert (Hsuper : super (length (bound_to p ctx)) (in_await_handler p v rest ctx) =
                   (Ok tt, in_await_handler p v rest ctx, [])).
  { eapply super_at_front_is_noop.
    - reflexivity.
    - unfold in_await_handler, store_block. simpl. apply lookup_insert_eq.
    - simpl. rewrite Hbt. reflexivity. }
  assert (Hfresh : Forall (fun x => hid x <> heapNext ctx) (bound_to p ctx))
    by (rewrite Hbt; constructor).
  pose proof (process_await p v f [] rest ctx (in_await_handler p v rest ctx) [] Hmb
                (List.Forall_nil _) Hfresh Hsuper) as Hproc.
  rewrite await_eq. unfold scoped, catch_EventFired. cbn [yield].
  rewrite bind_eq, yield_iteration_eq, Hproc.
  unfold HandlerRef_destroy, modify, final. simpl. reflexivity.
Qed.

(** An [await] on a path whose only handler has been destroyed: the
    [super()] of the new handler prunes the destroyed one and returns. *)
Lemma await_over_destroyed p v f rest a env c h0 :
  bound_to p c = [h0] ->
  isDestroyed h0 = true ->
  hid h0 <> heapNext c ->
  mailbox (controlBlock c) = mkPendingEvent p v f :: rest ->
  await p (a :: env) c =
  (Ok v,
   final (HandlerRef_destroy (heapNext c)
            (store_block p [await_binding c] (At (hid h0)) v (in_await_handler p v rest c))),
   [ADequeue (mkPendingEvent p v f); AExecute (heapNext c) v; AFreeData f v]).
Proof.
  intros Hb Hd Hne Hmb.
  assert (Hsuper : super (length (bound_to p c)) (in_await_handler p v rest c) =
                   (Ok tt,
                    store_block p [await_binding c] (At (hid h0)) v (in_await_handler p v rest c),
                    [])).
  { unfold in_await_handler. rewrite Hb. cbn [length app].
    change (super 1) with
      (super_with (fun h d => tell (AExecute (hid h) d) ;; run_body (super 0) d (fn h))).
    unfold super_with.
    cbn [handlerContext store_block set_handlerContext set_handlerBlocks handlerBlocks
         handlerBlock handler hdata].
    rewrite lookup_insert_eq. cbn [stackedHandlers begin iter_eqb decr pred_of length].
    assert (E1 : (heapNext c =? hid h0) = false) by (apply Nat.eqb_neq; lia).
    rewrite E1. cbn [hid await_binding]. rewrite Nat.eqb_refl.
    cbn [find_alive deref]. rewrite Nat.eqb_refl, Hd. cbn [begin iter_eqb].
    rewrite Nat.eqb_refl. reflexivity. }
  assert (Hfresh : Forall (fun x => hid x <> heapNext c) (bound_to p c))
    by (rewrite Hb; repeat constructor; exact Hne).
  pose proof (process_await p v f [] rest c _ [] Hmb (List.Forall_nil _) Hfresh Hsuper)
    as Hproc.
  rewrite await_eq. unfold scoped, catch_EventFired. cbn [yield].
  rewrite bind_eq, yield_iteration_eq, Hproc.
  unfold HandlerRef_destroy, modify, final. simpl. reflexivity.
Qed.

(** X17.  Two [await]s in a row, as in a loop around [event.await()]: on
    a path nobody else has bound, with two events for it queued, the first
    [await] returns the payload of the first event and the second [await]
    that of the second, each event being dequeued, handled by the handler of
    its own [await] and freed once.  The handler the first [await] left
    behind destroyed is pruned by the second dispatch and is not executed
    again. *)
Theorem await_twice_returns_both_payloads
    (p : Path) (v1 f1 v2 f2 : nat) (rest : list PendingEvent)
    (a1 a2 : Arrivals) (env1 env2 : list Arrivals) (ctx : Context) :
  handlerBlocks ctx !! p = None ->
  mailbox (controlBlock ctx) = mkPendingEvent p v1 f1 :: mkPendingEvent p v2 f2 :: rest ->
  let first := await p (a1 :: env1) ctx in
  let second := await p (a2 :: env2) (final first) in
  outcome first = Ok v1 /\
  trace first =
    [ADequeue (mkPendingEvent p v1 f1); AExecute (heapNext ctx) v1; AFreeData f1 v1] /\
  outcome second = Ok v2 /\
  trace second =
    [ADequeue (mkPendingEvent p v2 f2); AExecute (S (heapNext ctx)) v2; AFreeData f2 v2] /\
  bound_to p (final second) = [mkHandler (S (heapNext ctx)) true await_handler] /\
  mailbox (controlBlock (final second)) = rest.
Proof.
  intros Hnone Hmb. cbv zeta.
  assert (Hbt : bound_to p ctx = []) by (unfold bound_to; rewrite Hnone; reflexivity).
  pose proof (await_alone p v1 f1 (mkPendingEvent p v2 f2 :: rest) a1 env1 ctx Hnone Hmb)
    as H1.
  set (c1 := final (await p (a1 :: env1) ctx)).
  assert (Hc1 : c1 = final (HandlerRef_destroy (heapNext ctx)
                               (in_await_handler p v1 (mkPendingEvent p v2 f2 :: rest) ctx)))
    by (unfold c1; rewrite H1; reflexivity).
  assert (Hb1 : bound_to p c1 = [mkHandler (heapNext ctx) true await_handler]).
  { rewrite Hc1, HandlerRef_destroy_bound_to. unfold in_await_handler.
    rewrite bound_to_store, Hbt. simpl. unfold mark_destroyed. simpl.
    rewrite Nat.eqb_refl. reflexivity. }
  assert (Hn1 : heapNext c1 = S (heapNext ctx)) by (rewrite Hc1; reflexivity).
  assert (Hm1 : mailbox (controlBlock c1) = mkPendingEvent p v2 f2 :: rest)
    by (rewrite Hc1; reflexivity).
  pose proof (await_over_destroyed p v2 f2 rest a2 env2 c1 _ Hb1 eq_refl) as H2.
  rewrite Hn1 in H2. specialize (H2 ltac:(simpl; lia) Hm1).
  split; [rewrite H1; reflexivity|]. split; [rewrite H1; reflexivity|].
  split; [rewrite H2; reflexivity|]. split; [rewrite H2; reflexivity|].
  split.
  - rewrite H2. unfold final at 1. cbn [fst snd].
    rewrite HandlerRef_destroy_bound_to, bound_to_store.
    unfold await_binding. rewrite Hn1. simpl. unfold mark_destroyed. simpl.
    rewrite Nat.eqb_refl. reflexivity.
  - rewrite H2. reflexivity.
Qed.

Lemma await_twice_returns_both_payloads_witness :
  let ctx := with_mailbox [mkPendingEvent 7 42 9; mkPendingEvent 7 43 9; other_event]
               (idle_context (Some 0)) in
  let first := await 7 [mkArrivals [] []] ctx in
  let second := await 7 [mkArrivals [] []] (final first) in
  outcome first = Ok 42 /\
  trace first = [ADequeue (mkPendingEvent 7 42 9); AExecute (heapNext ctx) 42; AFreeData 9 42] /\
  outcome second = Ok 43 /\
  trace second =
    [ADequeue (mkPendingEvent 7 43 9); AExecute (S (heapNext ctx)) 43; AFreeData 9 43] /\
  bound_to 7 (final second) = [mkHandler (S (heapNext ctx)) true await_handler] /\
  mailbox (controlBlock (final second)) = [other_event].
Proof.
  apply (await_twice_returns_both_payloads 7 42 9 43 9 [other_event]
           (mkArrivals [] []) (mkArrivals [] []) [] []
           (with_mailbox [mkPendingEvent 7 42 9; mkPendingEvent 7 43 9; other_event]
              (idle_context (Some 0)))); reflexivity.
Defined.



(** * Handlers that pass the event on *)

Section Chain.

Implicit Types (l A R K D : list Handler) (x y h : Handler).

(** The three ways a [super()] call made with the cursor on a node of the
    list can go: the cursor is at the front; every handler in front of it
    is destroyed; or a live handler in front of it is executed. *)
Lemma super_with_cases execute A x R ctx p d :
  cursor_view ctx = Some (p, d, A ++ x :: R, At (hid x)) ->
  List.NoDup (map hid (A ++ x :: R)) ->
  Forall (fun h => hid h < heapNext ctx) (A ++ x :: R) ->
  (A = [] /\ super_with execute ctx = (Ok tt, ctx, [])) \/
  (Forall (fun h => isDestroyed h = true) A /\
   exists c, super_with execute ctx = (Ok tt, store_block p (x :: R) (At c) d ctx, []) /\
             ~ In c (map hid (x :: R)) /\ c < heapNext ctx) \/
  (exists K h D,
     A = K ++ h :: D /\ isDestroyed h = false /\
     Forall (fun h => isDestroyed h = true) D /\
     super_with execute ctx =
       execute h d (store_block p (K ++ h :: x :: R) (At (hid h)) d ctx)).
Proof.
  intros Hview Hnd Hall. unfold cursor_view in Hview.
  destruct (handlerContext ctx) as [hc|] eqn:Hhc; [|discriminate].
  destruct (handlerBlocks ctx !! handlerBlock hc) as [b|] eqn:Hb; [|discriminate].
  injection Hview as Hp Hd Hl Hit.
  destruct (snoc_cases A) as [->|(A' & y & ->)].
  - left. split; [reflexivity|].
    unfold super_with. rewrite Hhc, Hb, Hl, Hit. simpl. rewrite Nat.eqb_refl. reflexivity.
  - right.
    assert (El : (A' ++ [y]) ++ x :: R = A' ++ y :: x :: R)
      by (rewrite <- app_assoc; reflexivity).
    rewrite El in *.
    assert (Hbeg : iter_eqb (At (hid x)) (begin (A' ++ y :: x :: R)) = false).
    { rewrite <- El. rewrite begin_mid by (rewrite El; exact Hnd). destruct A'; reflexivity. }
    assert (Hdecr : decr (A' ++ y :: x :: R) (At (hid x)) = Some (hid y)).
    { cbn [decr]. apply pred_mid. exact Hnd. }
    pose proof (find_alive_spec A' y (x :: R) (length (A' ++ y :: x :: R)) Hnd) as Hfa.
    unfold super_with. rewrite Hhc, Hb. cbn zeta. rewrite Hl, Hit, Hbeg, Hdecr, Hp, Hd.
    destruct (find_alive _ _ _) as [l' h|l'| |].
    + destruct Hfa as (Hh & K & D & He & HD & Hl'); [rewrite length_app; lia|].
      right. exists K, h, D. rewrite Hl'. auto.
    + destruct Hfa as (HD & Hl'); [rewrite length_app; lia|].
      left. split; [exact HD|]. exists (hid y). rewrite Hl'. split; [reflexivity|].
      split.
      * rewrite map_app in Hnd. apply List.NoDup_remove_2 in Hnd.
        intros Hin. apply Hnd. apply in_or_app. right. exact Hin.
      * rewrite List.Forall_forall in Hall. apply Hall.
        apply in_or_app. right. left. reflexivity.
    + exfalso. apply Hfa. rewrite length_app. lia.
    + exfalso. apply Hfa. rewrite length_app. lia.
Qed.

(** Once the dispatch has run through its block, further [super()] calls
    execute nothing. *)
Lemma settled_super fuel ctx :
  settled ctx -> super fuel ctx = (Ok tt, ctx, []) \/ super fuel ctx = (UB, ctx, []).
Proof.
  intros (p & d & l & c & Hview & _ & Hc). unfold cursor_view in Hview.
  destruct (handlerContext ctx) as [hc|] eqn:Hhc; [|discriminate].
  destruct (handlerBlocks ctx !! handlerBlock hc) as [b|] eqn:Hb; [|discriminate].
  injection Hview as Hp Hd Hl Hit.
  destruct Hc as [Hbeg|Hnin].
  - left. destruct fuel; cbn [super]; unfold super_with; rewrite Hhc, Hb, Hl, Hit, Hbeg;
      simpl; rewrite Nat.eqb_refl; reflexivity.
  - right. destruct fuel; cbn [super]; unfold super_with; rewrite Hhc, Hb, Hl, Hit;
      cbn zeta; rewrite (not_begin_absent l c Hnin); cbn [decr];
      rewrite (pred_absent l c Hnin); reflexivity.
Qed.

Lemma begin_mark tgt l : begin (map (mark_destroyed tgt) l) = begin l.
Proof. destruct l as [|a l]; simpl; [reflexivity|]. rewrite hid_mark. reflexivity. Qed.

Lemma settled_destroy tgt ctx :
  settled ctx -> settled (final (HandlerRef_destroy tgt ctx)).
Proof.
  intros (p & d & l & c & Hview & Hlt & Hc). unfold cursor_view in Hview.
  destruct (handlerContext ctx) as [hc|] eqn:Hhc; [|discriminate].
  destruct (handlerBlocks ctx !! handlerBlock hc) as [b|] eqn:Hb; [|discriminate].
  injection Hview as Hp Hd Hl Hit.
  exists p, d, (map (mark_destroyed tgt) l), c. split; [|split; [exact Hlt|]].
  - unfold cursor_view, HandlerRef_destroy, modify, final. simpl.
    rewrite Hhc, lookup_fmap, Hb. simpl. rewrite Hp, Hd, Hl, Hit. reflexivity.
  - rewrite begin_mark, map_map.
    erewrite map_ext by (intros; apply hid_mark). exact Hc.
Qed.

Lemma settled_bind q body ctx :
  settled ctx -> settled (final (Event_bind q body ctx)).
Proof.
  intros (p & d & l & c & Hview & Hlt & Hc). unfold cursor_view in Hview.
  destruct (handlerContext ctx) as [hc|] eqn:Hhc; [|discriminate].
  destruct (handlerBlocks ctx !! handlerBlock hc) as [b|] eqn:Hb; [|discriminate].
  injection Hview as Hp Hd Hl Hit.
  unfold settled, cursor_view.
  change (handlerContext (final (Event_bind q body ctx))) with (handlerContext ctx).
  change (heapNext (final (Event_bind q body ctx))) with (S (heapNext ctx)).
  rewrite Hhc, Event_bind_blocks.
  destruct (Nat.eq_dec q (handlerBlock hc)) as [->|Hne].
  - rewrite lookup_insert_eq. cbn [stackedHandlers]. unfold bound_to. rewrite Hb, Hl, Hit.
    eexists _, _, _, _. split; [reflexivity|]. split; [lia|].
    destruct Hc as [Hbeg|Hnin].
    + left. destruct l; [discriminate | exact Hbeg].
    + right. rewrite map_app. intros Hin. apply in_app_or in Hin.
      destruct Hin as [Hin|[Hin|[]]]; [exact (Hnin Hin) | simpl in Hin; lia].
  - rewrite lookup_insert_ne by exact Hne. rewrite Hb, Hl, Hit.
    eexists _, _, _, _. split; [reflexivity|]. split; [lia | exact Hc].
Qed.

Lemma run_body_settled (super_rec : M unit) payload :
  (forall ctx, settled ctx ->
     super_rec ctx = (Ok tt, ctx, []) \/ super_rec ctx = (UB, ctx, [])) ->
  forall cs ctx, settled ctx ->
    trace (run_body super_rec payload cs ctx) = [] /\
    (outcome (run_body super_rec payload cs ctx) = Ok tt ->
     settled (final (run_body super_rec payload cs ctx))).
Proof.
  intros Hrec cs. induction cs as [|c cs IH]; intros ctx Hst.
  - split; [reflexivity | intros _; exact Hst].
  - destruct c as [| |tag|tgt|q body]; cbn [run_body];
      try (split; [reflexivity | discriminate]).
    + rewrite bind_eq. destruct (Hrec ctx Hst) as [-> | ->].
      * destruct (IH ctx Hst) as [Ht Hs]. unfold trace, outcome, final in *.
        cbn [fst snd]. rewrite Ht. auto.
      * split; [reflexivity | discriminate].
    + erewrite bind_pure by reflexivity. apply IH. apply settled_destroy. exact Hst.
    + erewrite bind_pure by reflexivity. apply IH. apply settled_bind. exact Hst.
Qed.

Lemma live_ids_last K h D :
  isDestroyed h = false -> Forall (fun h => isDestroyed h = true) D ->
  live_ids (K ++ h :: D) = live_ids K ++ [hid h].
Proof.
  intros Hh HD. change (K ++ h :: D) with (K ++ [h] ++ D).
  rewrite !live_ids_app, (live_ids_destroyed D HD), app_nil_r. simpl. rewrite Hh. reflexivity.
Qed.

(** With the cursor on a node, [super()] executes all the live handlers in
    front of it, nearest first, when each of them begins by calling
    [super()] itself. *)
Lemma super_chain fuel : forall A x R ctx p d,
  cursor_view ctx = Some (p, d, A ++ x :: R, At (hid x)) ->
  List.NoDup (map hid (A ++ x :: R)) ->
  Forall (fun h => hid h < heapNext ctx) (A ++ x :: R) ->
  Forall (fun h => isDestroyed h = false -> starts_with_super h = true) A ->
  length (live_ids A) <= fuel ->
  trace (super fuel ctx) = map (fun i => AExecute i d) (rev (live_ids A)) /\
  (outcome (super fuel ctx) = Ok tt -> settled (final (super fuel ctx))).
Proof.
  induction fuel as [|fuel IH]; intros A x R ctx p d Hview Hnd Hall Hco Hlen; cbn [super];
    match goal with |- context [super_with ?e ctx] =>
      destruct (super_with_cases e A x R ctx p d Hview Hnd Hall)
        as [[-> Heq]|[(HD & c & Heq & Hnin & Hc)|(K & h & D & -> & Hlive & HD & Heq)]]
    end;
    rewrite Heq; clear Heq;
    try (split; [reflexivity|]; intros _; exists p, d, (x :: R), (hid x);
         split; [exact Hview|]; split; [|left; reflexivity];
         rewrite List.Forall_forall in Hall; apply Hall; left; reflexivity);
    try (rewrite (live_ids_destroyed A HD); split; [reflexivity|]; intros _;
         exists p, d, (x :: R), c; split; [apply cursor_view_store|];
         split; [exact Hc | right; exact Hnin]).
  - rewrite (live_ids_last K h D Hlive HD), length_app in Hlen. simpl in Hlen. lia.
  - rewrite (live_ids_last K h D Hlive HD) in Hlen |- *. rewrite length_app in Hlen.
    simpl in Hlen. rewrite rev_app_distr. cbn [rev app map].
    assert (Hss : starts_with_super h = true).
    { rewrite List.Forall_forall in Hco. apply Hco; [|exact Hlive].
      apply in_or_app. right. left. reflexivity. }
    unfold starts_with_super in Hss.
    destruct (fn h) as [|[| |tag|tgt|q body] tail] eqn:Hfn; try discriminate.
    rewrite bind_eq. unfold tell. cbn iota beta. cbn [run_body]. rewrite bind_eq.
    set (ctx' := store_block p (K ++ h :: x :: R) (At (hid h)) d ctx).
    assert (Hnd' : List.NoDup (map hid (K ++ h :: x :: R))).
    { change (K ++ h :: x :: R) with (K ++ [h] ++ x :: R). rewrite app_assoc.
      apply (NoDup_drop_mid (K ++ [h]) D (x :: R)).
      rewrite <- !app_assoc. cbn [app]. rewrite <- app_assoc in Hnd. exact Hnd. }
    assert (Hall' : Forall (fun h => hid h < heapNext ctx') (K ++ h :: x :: R)).
    { change (K ++ h :: x :: R) with (K ++ [h] ++ x :: R). rewrite app_assoc.
      apply (Forall_drop_mid _ (K ++ [h]) D (x :: R)).
      rewrite <- !app_assoc. cbn [app]. rewrite <- app_assoc in Hall. exact Hall. }
    assert (Hco' : Forall (fun h => isDestroyed h = false -> starts_with_super h = true) K).
    { apply Forall_app in Hco. apply Hco. }
    destruct (IH K h (x :: R) ctx' p d (cursor_view_store _ _ _ _ _) Hnd' Hall' Hco')
      as [Ht Hs]; [lia|].
    destruct (super fuel ctx') as [[[[]|e| |] c1] t1]; unfold trace, outcome, final in *;
      cbn [fst snd] in *; subst t1; try (split; [reflexivity | discriminate]).
    destruct (run_body_settled (super fuel) d (settled_super fuel) tail c1 (Hs eq_refl))
      as [Ht' Hs'].
    unfold trace, outcome, final in *. rewrite Ht', app_nil_r. split; [reflexivity | exact Hs'].
Qed.

Lemma NoDup_snoc_distinct A y :
  List.NoDup (map hid (A ++ [y])) -> Forall (fun x => hid x <> hid y) A.
Proof.
  intros Hnd. rewrite map_app in Hnd. simpl in Hnd. apply List.NoDup_remove_2 in Hnd.
  rewrite app_nil_r in Hnd. apply List.Forall_forall. intros x Hx E.
  apply Hnd. rewrite <- E. apply in_map. exact Hx.
Qed.

End Chain.

(** X19.  Stacked handlers that pass the event on are all reached: when
    every handler of the block that is not destroyed begins its body with
    [context->super()], one dispatch by [handleEvent] executes every handler
    of the block that is not destroyed, each exactly once with the payload
    of the event, from the newest binding to the oldest; destroyed handlers
    are skipped.  This holds whatever else the bodies do afterwards, and
    whether the dispatch returns, throws, or ends in undefined behaviour. *)
Theorem every_live_handler_runs_when_all_call_super
    (event : PendingEvent) (ctx : Context) (block : HandlerBlock) :
  handlerBlocks ctx !! path event = Some block ->
  List.NoDup (map hid (stackedHandlers block)) ->
  Forall (fun h => hid h < heapNext ctx) (stackedHandlers block) ->
  Forall (fun h => isDestroyed h = false -> starts_with_super h = true)
         (stackedHandlers block) ->
  trace (handleEvent event ctx) =
    map (fun i => AExecute i (data event)) (rev (live_ids (stackedHandlers block))).
Proof.
  intros Hb Hnd Hall Hco. unfold handleEvent. rewrite Hb.
  destruct (prune_back_spec (length (stackedHandlers block)) (stackedHandlers block))
    as (dropped & Heq & Hdrop & Hback); [lia|].
  set (kept := prune_back (length (stackedHandlers block)) (stackedHandlers block)) in *.
  assert (Hlive : live_ids (stackedHandlers block) = live_ids kept).
  { rewrite Heq, live_ids_app, (live_ids_destroyed dropped Hdrop), app_nil_r. reflexivity. }
  rewrite Hlive. rewrite Heq in Hnd, Hall, Hco. clear Heq Hlive.
  rewrite map_app in Hnd. apply List.NoDup_app_remove_r in Hnd.
  apply Forall_app in Hall. destruct Hall as [Hall _].
  apply Forall_app in Hco. destruct Hco as [Hco _].
  clearbody kept.
  destruct (snoc_cases kept) as [->|(A & y & ->)]; [reflexivity|].
  specialize (Hback y (back_snoc A y)).
  destruct (A ++ [y]) as [|k0 ks] eqn:E; [destruct A; discriminate|]. rewrite <- E in *.
  clear E k0 ks.
  rewrite bind_eq, length_app, Nat.add_1_r.
  rewrite super_from_end; [|exact Hback | apply NoDup_snoc_distinct; exact Hnd].
  assert (Hss : starts_with_super y = true).
  { rewrite List.Forall_forall in Hco. apply Hco; [|exact Hback].
    apply in_or_app. right. left. reflexivity. }
  unfold starts_with_super in Hss.
  destruct (fn y) as [|[| |tag|tgt|q body] tail] eqn:Hfn; try discriminate.
  rewrite bind_eq. unfold tell. cbn iota beta. cbn [run_body]. rewrite bind_eq.
  set (ctx' := store_block (path event) (A ++ [y]) (At (hid y)) (data event) ctx).
  assert (Hco' : Forall (fun h => isDestroyed h = false -> starts_with_super h = true) A).
  { apply Forall_app in Hco. apply Hco. }
  destruct (super_chain (length A) A y [] ctx' (path event) (data event)
              (cursor_view_store _ _ _ _ _) Hnd Hall Hco' (live_ids_length A)) as [Ht Hs].
  rewrite live_ids_app. simpl. rewrite Hback. rewrite rev_app_distr. cbn [rev app map].
  destruct (super (length A) ctx') as [[[[]|e| |] c1] t1]; unfold trace, outcome, final in *;
    cbn [fst snd] in *; subst t1; try reflexivity.
  destruct (run_body_settled (super (length A)) (data event) (settled_super (length A))
              tail c1 (Hs eq_refl)) as [Ht' _].
  unfold trace in Ht'.
  destruct (run_body (super (length A)) (data event) tail c1) as [[[[]|e| |] c2] t2];
    cbn [fst snd] in *; subst t2; rewrite ?app_nil_r; reflexivity.
Qed.

Lemma every_live_handler_runs_when_all_call_super_witness :
  trace (handleEvent sample_event stale_front_context) =
    map (fun i => AExecute i (data sample_event))
        (rev (live_ids [mkHandler 1 true []; mkHandler 2 false [CSuper; CSuper]])).
Proof.
  apply (every_live_handler_runs_when_all_call_super sample_event stale_front_context
           (mkHandlerBlock [mkHandler 1 true []; mkHandler 2 false [CSuper; CSuper]])).
  - reflexivity.
  - simpl. repeat constructor; simpl; intuition lia.
  - simpl. repeat constructor; simpl; lia.
  - simpl. repeat constructor; simpl; intros; try discriminate; reflexivity.
Defined.

(** * Destroyed handlers *)

Section Retired.

Variable t : nat.

Implicit Types (l : list Handler) (z h : Handler).

Lemma executes_app tr1 tr2 : executes t (tr1 ++ tr2) = executes t tr1 || executes t tr2.
Proof. apply existsb_app. Qed.

Lemma erase_In l c z : In z (erase l c) -> In z l.
Proof.
  induction l as [|a l IH]; simpl; [tauto|].
  destruct (hid a =? c); [right; assumption|].
  intros [->|Hz]; [left; reflexivity | right; apply IH; exact Hz].
Qed.

Lemma deref_In l c h : deref l c = Some h -> In h l.
Proof.
  induction l as [|a l IH]; simpl; [discriminate|].
  destruct (hid a =? c); [intros [= ->]; left; reflexivity | right; apply IH; assumption].
Qed.

Lemma find_alive_sub n : forall l it,
  match find_alive n l it with
  | Alive l' h => isDestroyed h = false /\ In h l /\ (forall z, In z l' -> In z l)
  | Exhausted l' => forall z, In z l' -> In z l
  | ScanUB | ScanUnfinished => True
  end.
Proof.
  assert (Hpop : forall l z, In z (pop_front l) -> In z l).
  { intros l z Hz. destruct l; [contradiction | right; exact Hz]. }
  induction n as [|n IH]; intros l it; cbn [find_alive];
    destruct (deref l it) as [h|] eqn:Hd; try exact I;
    (destruct (isDestroyed h) eqn:Hh;
     [|split; [exact Hh|]; split; [apply (deref_In l it); exact Hd | auto]]);
    (destruct (iter_eqb (At it) (begin l)); [apply Hpop|]); try exact I.
  destruct (pred_of l it) as [it'|]; [|exact I].
  specialize (IH (erase l it) it').
  destruct (find_alive n (erase l it) it') as [l' h'|l'| |]; try exact I.
  - destruct IH as (H1 & H2 & H3). split; [exact H1|].
    split; [apply (erase_In l it); exact H2|].
    intros z Hz. apply (erase_In l it), H3, Hz.
  - intros z Hz. apply (erase_In l it), IH, Hz.
Qed.

Lemma retired_store p l it d ctx :
  retired t ctx ->
  (forall z, In z l -> hid z = t -> isDestroyed z = true) ->
  retired t (store_block p l it d ctx).
Proof.
  intros [Hlt Hr] Hl. split; [exact Hlt|].
  intros q b h. unfold store_block. simpl. rewrite lookup_insert_Some.
  intros [[_ <-]|[_ Hq]]; [apply Hl | apply (Hr q b h Hq)].
Qed.

Lemma retired_destroy tgt ctx :
  retired t ctx -> retired t (final (HandlerRef_destroy tgt ctx)).
Proof.
  intros [Hlt Hr]. split; [exact Hlt|].
  intros q b h. unfold HandlerRef_destroy, modify, final. simpl.
  rewrite lookup_fmap_Some. intros (b0 & <- & Hq). simpl.
  intros Hin Hid. apply in_map_iff in Hin. destruct Hin as (a & <- & Ha).
  rewrite hid_mark in Hid. rewrite isDestroyed_mark, (Hr q b0 a Hq Ha Hid).
  apply orb_true_r.
Qed.

Lemma retired_bind q body ctx :
  retired t ctx -> retired t (final (Event_bind q body ctx)).
Proof.
  intros [Hlt Hr]. split; [change (t < S (heapNext ctx)); lia|].
  intros r b h. rewrite Event_bind_blocks, lookup_insert_Some.
  intros [[_ <-]|[_ Hq]]; [|apply (Hr r b h Hq)].
  cbn [stackedHandlers]. intros Hin Hid. apply in_app_or in Hin.
  destruct Hin as [Hin|[<-|[]]].
  - unfold bound_to in Hin. destruct (handlerBlocks ctx !! q) as [b0|] eqn:Hq;
      [apply (Hr q b0 h Hq Hin Hid) | contradiction].
  - simpl in Hid. lia.
Qed.

Lemma run_body_retired (super_rec : M unit) payload :
  (forall ctx, retired t ctx ->
     executes t (trace (super_rec ctx)) = false /\ retired t (final (super_rec ctx))) ->
  forall cs ctx, retired t ctx ->
    executes t (trace (run_body super_rec payload cs ctx)) = false /\
    retired t (final (run_body super_rec payload cs ctx)).
Proof.
  intros Hrec cs. induction cs as [|c cs IH]; intros ctx Hr.
  - split; [reflexivity | exact Hr].
  - destruct c as [| |tag|tgt|q body]; cbn [run_body];
      try (split; [reflexivity | exact Hr]).
    + rewrite bind_eq. destruct (Hrec ctx Hr) as [Ht Hr1].
      destruct (super_rec ctx) as [[[[]|e| |] c1] t1]; unfold trace, final in *;
        cbn [fst snd] in *; try (split; assumption).
      destruct (IH c1 Hr1) as [Ht2 Hr2]. unfold trace, final in *.
      rewrite executes_app, Ht, Ht2. auto.
    + erewrite bind_pure by reflexivity. apply IH. apply retired_destroy. exact Hr.
    + erewrite bind_pure by reflexivity. apply IH. apply retired_bind. exact Hr.
Qed.

Lemma super_with_retired (execute : Handler -> nat -> M unit) :
  (forall h d ctx, hid h <> t -> retired t ctx ->
     executes t (trace (execute h d ctx)) = false /\ retired t (final (execute h d ctx))) ->
  forall ctx, retired t ctx ->
    executes t (trace (super_with execute ctx)) = false /\
    retired t (final (super_with execute ctx)).
Proof.
  intros Hex ctx Hr. unfold super_with.
  destruct (handlerContext ctx) as [hc|]; [|split; [reflexivity | exact Hr]].
  destruct (handlerBlocks ctx !! handlerBlock hc) as [b|] eqn:Hb;
    [|split; [reflexivity | exact Hr]].
  cbn zeta.
  destruct (iter_eqb (handler hc) (begin (stackedHandlers b)));
    [split; [reflexivity | exact Hr]|].
  destruct (decr (stackedHandlers b) (handler hc)) as [it0|];
    [|split; [reflexivity | exact Hr]].
  pose proof (find_alive_sub (length (stackedHandlers b)) (stackedHandlers b) it0) as Hfa.
  destruct (find_alive _ _ _) as [l' h|l'| |]; try (split; [reflexivity | exact Hr]).
  - destruct Hfa as (Hlive & Hin & Hsub).
    apply Hex.
    + intros Hid. destruct Hr as [_ Hr]. rewrite (Hr _ _ h Hb Hin Hid) in Hlive. discriminate.
    + apply retired_store; [exact Hr|]. intros z Hz. destruct Hr as [_ Hr].
      apply (Hr _ _ z Hb). apply Hsub. exact Hz.
  - split; [reflexivity|]. apply retired_store; [exact Hr|]. intros z Hz.
    destruct Hr as [_ Hr]. apply (Hr _ _ z Hb). apply Hfa. exact Hz.
Qed.

Lemma super_retired fuel : forall ctx, retired t ctx ->
  executes t (trace (super fuel ctx)) = false /\ retired t (final (super fuel ctx)).
Proof.
  induction fuel as [|fuel IH]; intros ctx Hr; cbn [super];
    apply super_with_retired; try exact Hr; intros h d c Hid Hc.
  - split; [reflexivity | exact Hc].
  - rewrite bind_eq. unfold tell. cbn iota beta.
    destruct (run_body_retired (super fuel) d IH (fn h) c Hc) as [Ht Hr1].
    apply Nat.eqb_neq in Hid.
    destruct (run_body (super fuel) d (fn h) c) as [[[[]|e| |] c1] t1];
      unfold trace, final in *; cbn [fst snd] in *; split; try exact Hr1;
      cbn [app executes existsb]; fold (executes t t1); rewrite Hid, Ht; reflexivity.
Qed.

Lemma handleEvent_retired event ctx :
  retired t ctx ->
  executes t (trace (handleEvent event ctx)) = false /\
  retired t (final (handleEvent event ctx)).
Proof.
  intros Hr. unfold handleEvent.
  destruct (handlerBlocks ctx !! path event) as [block|] eqn:Hb;
    [|split; [reflexivity | exact Hr]].
  destruct (prune_back_spec (length (stackedHandlers block)) (stackedHandlers block))
    as (dropped & Heq & _); [lia|].
  assert (Hsub : forall z,
            In z (prune_back (length (stackedHandlers block)) (stackedHandlers block)) ->
            In z (stackedHandlers block)).
  { intros z Hz. rewrite Heq. apply in_or_app. left. exact Hz. }
  destruct (prune_back _ _) as [|k0 kept].
  - split; [reflexivity|]. destruct Hr as [Hlt Hr]. split; [exact Hlt|].
    intros q b h. unfold final. simpl. rewrite lookup_delete_Some.
    intros [_ Hq]. exact (Hr q b h Hq).
  - rewrite bind_eq.
    assert (Hst : retired t (store_block (path event) (k0 :: kept) End (data event) ctx)).
    { apply retired_store; [exact Hr|]. intros z Hz. destruct Hr as [_ Hr].
      apply (Hr _ _ z Hb). apply Hsub. exact Hz. }
    destruct (super_retired (length (k0 :: kept)) _ Hst) as [Ht Hr1].
    destruct (super _ _) as [[[[]|e| |] c1] t1]; unfold trace, final in *;
      cbn [fst snd] in *; try (split; assumption).
    unfold modify. cbn [fst snd]. rewrite app_nil_r. split; [exact Ht | exact Hr1].
Qed.

Lemma dispatch_retired event ctx :
  retired t ctx ->
  executes t (trace (dispatch event ctx)) = false /\
  retired t (final (dispatch event ctx)).
Proof.
  intros Hr. rewrite dispatch_eq. destruct (handleEvent_retired event ctx Hr) as [Ht Hr1].
  destruct (handleEvent event ctx) as [[[[]|e| |] c] tr]; unfold trace, final in *;
    cbn [fst snd] in *; rewrite ?executes_app, ?Ht; auto.
Qed.

Lemma process_loop_retired n : forall ctx,
  retired t ctx ->
  executes t (trace (process_loop n ctx)) = false /\
  retired t (final (process_loop n ctx)).
Proof.
  induction n as [|n IH]; intros ctx Hr; simpl; rewrite bind_eq; unfold dequeue;
    destruct (mailbox (controlBlock ctx)) as [|event rest] eqn:Hmb; simpl;
    try (split; [reflexivity | exact Hr]).
  rewrite bind_eq.
  assert (Hr' : retired t (set_mailbox rest ctx)) by exact Hr.
  destruct (dispatch_retired event _ Hr') as [Ht Hr1].
  destruct (dispatch event (set_mailbox rest ctx)) as [[[[]|e| |] c] tr];
    unfold trace, final in *; cbn [fst snd] in *; try (split; assumption).
  destruct (IH c Hr1) as [Ht2 Hr2]. unfold trace, final in *.
  rewrite executes_app, Ht, Ht2. auto.
Qed.

Lemma yield_iteration_retired a ctx :
  retired t ctx ->
  executes t (trace (yield_iteration a ctx)) = false /\
  retired t (final (yield_iteration a ctx)).
Proof.
  intros Hr. rewrite yield_iteration_eq.
  destruct (process_loop_retired (length (mailbox (controlBlock ctx))) ctx Hr) as [Ht Hr1].
  fold (process ctx) in Ht, Hr1.
  destruct (process ctx) as [[[[]|e| |] c1] t1]; unfold trace, final in *;
    cbn [fst snd] in *; try (split; assumption).
  destruct (executor (controlBlock c1)).
  - destruct (mailbox (controlBlock (arrive (afterDrain a) c1))) as [|event rest];
      cbn [fst snd].
    + rewrite executes_app, Ht. split; [reflexivity | exact Hr1].
    + assert (Hr2 : retired t
                (set_mutex false (set_mailbox rest (set_mutex true (arrive (afterDrain a) c1)))))
        by exact Hr1.
      destruct (dispatch_retired event _ Hr2) as [Ht3 Hr3]. unfold trace, final in *.
      rewrite executes_app, Ht. cbn [app executes existsb orb].
      split; [exact Ht3 | exact Hr3].
  - cbn [fst snd]. rewrite executes_app, Ht. split; [reflexivity | exact Hr1].
Qed.

Lemma yield_retired env : forall ctx,
  retired t ctx -> executes t (trace (yield env ctx)) = false.
Proof.
  induction env as [|a env IH]; intros ctx Hr; [reflexivity|].
  simpl. rewrite bind_eq. destruct (yield_iteration_retired a ctx Hr) as [Ht Hr1].
  destruct (yield_iteration a ctx) as [[[[]|e| |] c1] t1]; unfold trace, final in *;
    cbn [fst snd] in *; try exact Ht.
  rewrite executes_app, Ht. apply IH. exact Hr1.
Qed.

End Retired.

(** X20.  A destroyed handler is never executed again: once the handler
    object at an address is marked destroyed wherever it is linked into a
    block, no dispatch executes it, whether made by [handleEvent],
    [process] or any run of [yield], whatever the handlers that do run
    bind or destroy; and it stays destroyed. *)
Theorem destroyed_handler_is_never_executed (t : nat) (ctx : Context) :
  retired t ctx ->
  (forall event,
     executes t (trace (handleEvent event ctx)) = false /\
     retired t (final (handleEvent event ctx))) /\
  (executes t (trace (process ctx)) = false /\ retired t (final (process ctx))) /\
  (forall env, executes t (trace (yield env ctx)) = false).
Proof.
  intros Hr. split; [intros event; apply handleEvent_retired; exact Hr|].
  split; [apply process_loop_retired; exact Hr|].
  intros env. apply yield_retired. exact Hr.
Qed.

Lemma destroyed_handler_is_never_executed_witness :
  (forall event,
     executes 1 (trace (handleEvent event stale_front_context)) = false /\
     retired 1 (final (handleEvent event stale_front_context))) /\
  (executes 1 (trace (process stale_front_context)) = false /\
   retired 1 (final (process stale_front_context))) /\
  (forall env, executes 1 (trace (yield env stale_front_context)) = false).
Proof.
  apply (destroyed_handler_is_never_executed 1 stale_front_context).
  split; [simpl; lia|].
  intros p b h Hb. unfold stale_front_context, with_block, idle_context in Hb.
  simpl in Hb. apply lookup_insert_Some in Hb.
  destruct Hb as [[_ <-]|[_ Hb]]; [|rewrite lookup_empty in Hb; discriminate].
  simpl. intros [<-|[<-|[]]]; simpl; [reflexivity | discriminate].
Defined.

(** * The handler of [await] afterwards *)

Lemma run_body_heapNext (super_rec : M unit) d :
  (forall ctx, heapNext ctx <= heapNext (final (super_rec ctx))) ->
  forall cs ctx, heapNext ctx <= heapNext (final (run_body super_rec d cs ctx)).
Proof.
  intros Hrec cs. induction cs as [|c cs IH]; intros ctx; [reflexivity|].
  destruct c as [| |tag|tgt|q body]; cbn [run_body]; try reflexivity.
  - rewrite bind_eq. specialize (Hrec ctx).
    destruct (super_rec ctx) as [[[[]|e| |] c1] t1]; unfold final in *; cbn [fst snd] in *;
      try exact Hrec.
    specialize (IH c1). unfold final in IH. lia.
  - erewrite bind_pure by reflexivity.
    match goal with |- _ <= heapNext (final (run_body _ _ _ ?c)) => exact (IH c) end.
  - erewrite bind_pure by reflexivity.
    match goal with |- _ <= heapNext (final (run_body _ _ _ ?c)) =>
      pose proof (IH c) as H;
      assert (Hc : heapNext c = S (heapNext ctx)) by reflexivity
    end.
    lia.
Qed.

Lemma super_heapNext fuel : forall ctx,
  heapNext ctx <= heapNext (final (super fuel ctx)).
Proof.
  induction fuel as [|fuel IH]; intros ctx; cbn [super]; unfold super_with;
    repeat match goal with
           | |- context [match ?x with _ => _ end] => destruct x
           end; try reflexivity.
  rewrite bind_eq. unfold tell. cbn iota beta.
  match goal with |- context [run_body ?s ?d ?cs ?c] =>
    pose proof (run_body_heapNext s d IH cs c) as H;
    destruct (run_body s d cs c) as [[[[]|e| |] c1] t1]
  end; unfold final in *; cbn [fst snd] in *; exact H.
Qed.

Lemma handleEvent_heapNext event ctx :
  heapNext ctx <= heapNext (final (handleEvent event ctx)).
Proof.
  unfold handleEvent.
  destruct (handlerBlocks ctx !! path event) as [block|]; [|reflexivity].
  destruct (prune_back _ _) as [|h l]; [reflexivity|].
  rewrite bind_eq.
  match goal with |- context [super ?n ?c] =>
    pose proof (super_heapNext n c) as H; destruct (super n c) as [[[[]|e| |] c1] t1]
  end; unfold final in *; cbn [fst snd] in *; exact H.
Qed.

Lemma dispatch_heapNext event ctx :
  heapNext ctx <= heapNext (final (dispatch event ctx)).
Proof.
  rewrite dispatch_eq. pose proof (handleEvent_heapNext event ctx) as H.
  destruct (handleEvent event ctx) as [[[[]|e| |] c] t]; exact H.
Qed.

Lemma process_loop_heapNext n : forall ctx,
  heapNext ctx <= heapNext (final (process_loop n ctx)).
Proof.
  induction n as [|n IH]; intros ctx; simpl; rewrite bind_eq; unfold dequeue;
    destruct (mailbox (controlBlock ctx)) as [|event rest]; simpl; try reflexivity.
  rewrite bind_eq. pose proof (dispatch_heapNext event (set_mailbox rest ctx)) as H.
  destruct (dispatch event (set_mailbox rest ctx)) as [[[[]|e| |] c] t];
    unfold final in *; cbn [fst snd] in *; try exact H.
  specialize (IH c). unfold final in IH. simpl in H. lia.
Qed.

Lemma yield_iteration_heapNext a ctx :
  heapNext ctx <= heapNext (final (yield_iteration a ctx)).
Proof.
  rewrite yield_iteration_eq.
  pose proof (process_loop_heapNext (length (mailbox (controlBlock ctx))) ctx) as H.
  fold (process ctx) in H.
  destruct (process ctx) as [[[[]|e| |] c1] t1]; unfold final in *; cbn [fst snd] in *;
    try exact H.
  destruct (executor (controlBlock c1)); [|exact H].
  destruct (mailbox (controlBlock (arrive (afterDrain a) c1))) as [|event rest];
    cbn [fst snd]; [exact H|].
  match goal with |- context [dispatch ?e ?c] =>
    pose proof (dispatch_heapNext e c) as Hd end.
  unfold final in Hd. simpl in Hd. lia.
Qed.

Lemma yield_heapNext env : forall ctx,
  heapNext ctx <= heapNext (final (yield env ctx)).
Proof.
  induction env as [|a env IH]; intros ctx; [reflexivity|].
  simpl. rewrite bind_eq. pose proof (yield_iteration_heapNext a ctx) as H.
  destruct (yield_iteration a ctx) as [[[[]|e| |] c1] t1]; unfold final in *;
    cbn [fst snd] in *; try exact H.
  specialize (IH c1). unfold final in IH. lia.
Qed.

(** X21.  The handler of [await] is single-shot: when [await] returns or
    lets an exception through, the handler it bound has been destroyed, and
    no later dispatch of the fiber ([handleEvent], or any run of [yield],
    which is what a later [await] does) executes it again. *)
Theorem await_handler_is_single_shot (p : Path) (env : list Arrivals) (ctx : Context) :
  exits (outcome (await p env ctx)) ->
  retired (heapNext ctx) (final (await p env ctx)) /\
  (forall event,
     executes (heapNext ctx) (trace (handleEvent event (final (await p env ctx)))) = false) /\
  (forall env',
     executes (heapNext ctx) (trace (yield env' (final (await p env ctx)))) = false).
Proof.
  intros Hex.
  assert (Hr : retired (heapNext ctx) (final (await p env ctx))).
  { revert Hex. rewrite await_eq. unfold scoped, catch_EventFired.
    pose proof (yield_heapNext env (awaiting p ctx)) as Hmono.
    change (heapNext (awaiting p ctx)) with (S (heapNext ctx)) in Hmono.
    destruct (yield env (awaiting p ctx)) as [[[[]|[v|tag]| |] c1] t1];
      unfold final, outcome in *; cbn [fst snd] in *; try contradiction; intros _;
      (split; [simpl; lia|]);
      intros q b h; simpl; rewrite lookup_fmap_Some; intros (b0 & <- & Hq); simpl;
      intros Hin Hid; apply in_map_iff in Hin; destruct Hin as (a0 & <- & Ha);
      rewrite hid_mark in Hid; rewrite isDestroyed_mark;
      apply Nat.eqb_eq in Hid; rewrite Hid; reflexivity. }
  split; [exact Hr|]. split.
  - intros event. apply handleEvent_retired. exact Hr.
  - intros env'. apply yield_retired. exact Hr.
Qed.

Lemma await_handler_is_single_shot_witness :
  retired (heapNext awaited_context) (final (await 7 [mkArrivals [] []] awaited_context)) /\
  (forall event,
     executes (heapNext awaited_context)
       (trace (handleEvent event (final (await 7 [mkArrivals [] []] awaited_context)))) =
       false) /\
  (forall env',
     executes (heapNext awaited_context)
       (trace (yield env' (final (await 7 [mkArrivals [] []] awaited_context)))) = false).
Proof.
  apply (await_handler_is_single_shot 7 [mkArrivals [] []] awaited_context).
  vm_compute. exact I.
Defined.
